(** * allknn: the all-k-nearest-neighbours executable of mlpack

    A shallow embedding of [src/mlpack/methods/neighbor_search/allknn_main.cpp]
    and of the search core it drives, with the properties of the
    specification stated and settled over them. *)

From Stdlib Require Import ZArith.
From stdpp Require Import base list sorting gmap strings.

Local Open Scope Z_scope.

(** ** Machine integers *)

(** [size_t] is a 64-bit unsigned integer; the conversion from [int] that
    the initialisation [size_t k = CLI::GetParam<int>("k")] performs wraps
    modulo [2^64]. *)
Definition size_t_modulus : Z := 2 ^ 64.
Definition size_t_of_int (i : Z) : Z := i mod size_t_modulus.

Definition int_min : Z := - 2 ^ 31.
Definition int_max : Z := 2 ^ 31 - 1.
Definition is_int (i : Z) : Prop := int_min <= i <= int_max.

(** ** Matrices

    An [arma::Mat<T>] is column-major: a row count and the list of its
    columns.  [n_cols] is the number of columns. *)
Record Mat (T : Type) : Type := mkMat { n_rows : nat; columns : list (list T) }.
Arguments mkMat {T} _ _.
Arguments n_rows {T} _.
Arguments columns {T} _.

Definition n_cols {T} (m : Mat T) : nat := length (columns m).

(** Every column has [n_rows] entries. *)
Definition well_shaped {T} (m : Mat T) : Prop :=
  Forall (λ c, length c = n_rows m) (columns m).

(** [Mat<T> m(r, c)]: a matrix of the given size whose entries are not
    initialised; an entry never written reads as [None]. *)
Definition uninitialised {T} (r c : nat) : Mat (option T) :=
  mkMat r (replicate c (replicate r None)).

(** ** Outcomes of a run *)

(** An access outside a container: [std::vector::operator[]] past the end,
    or an Armadillo element or column access past the matrix.  C++ does not
    define what such an access does; a run is followed up to the first one
    and no further. *)
Inductive fault : Type :=
| VectorIndex (vector : string) (index size : nat)
| MatrixIndex (matrix : string) (row col : nat).

Inductive outcome (A : Type) : Type :=
| Done (a : A)
| Exited
| Faulted (f : fault).
Arguments Done {A} _.
Arguments Exited {A}.
Arguments Faulted {A} _.

Global Instance outcome_ret : MRet outcome := λ A a, Done a.
Global Instance outcome_bind : MBind outcome := λ A B f m,
  match m with
  | Done a => f a
  | Exited => Exited
  | Faulted e => Faulted e
  end.

(** [v[i]] on a [std::vector]. *)
Definition vector_at (name : string) (v : list nat) (i : nat) : outcome nat :=
  match v !! i with
  | Some x => Done x
  | None => Faulted (VectorIndex name i (length v))
  end.

(** [m.col(i)] read. *)
Definition col {T} (name : string) (m : Mat T) (i : nat) : outcome (list T) :=
  match columns m !! i with
  | Some c => Done c
  | None => Faulted (MatrixIndex name 0 i)
  end.

(** [m(j, i)] read. *)
Definition at_ {T} (name : string) (m : Mat T) (j i : nat) : outcome T :=
  match columns m !! i with
  | Some c => match c !! j with
              | Some x => Done x
              | None => Faulted (MatrixIndex name j i)
              end
  | None => Faulted (MatrixIndex name j i)
  end.

(** [m.col(i) = c] write. *)
Definition set_col {T} (name : string) (m : Mat (option T)) (i : nat)
    (c : list T) : outcome (Mat (option T)) :=
  if decide (i < n_cols m)%nat
  then Done (mkMat (n_rows m) (<[i := Some <$> c]> (columns m)))
  else Faulted (MatrixIndex name 0 i).

(** [m(j, i) = x] write. *)
Definition set_at {T} (name : string) (m : Mat (option T)) (j i : nat)
    (x : T) : outcome (Mat (option T)) :=
  match columns m !! i with
  | Some c =>
      if decide (j < length c)%nat
      then Done (mkMat (n_rows m) (<[i := <[j := Some x]> c]> (columns m)))
      else Faulted (MatrixIndex name j i)
  | None => Faulted (MatrixIndex name j i)
  end.

(** [for (size_t i = 0; i < n; i++) body], threading the loop state. *)
Fixpoint for_loop {St} (from count : nat) (body : nat → St → outcome St)
    (s : St) : outcome St :=
  match count with
  | O => Done s
  | S count' => s' ← body from s; for_loop (S from) count' body s'
  end.

(** ** The remapping loop (lines 164 to 178)

    [remap] is the loop nest; it returns [distancesOut] and [neighborsOut]. *)
Section Remap.
Context {R : Type}.
Variables oldFromNewQueries oldFromNewRefs : list nat.
Variable distances : Mat R.
Variable neighbors : Mat nat.

Definition remap_entry (i j : nat) (neighborsOut : Mat (option nat))
    : outcome (Mat (option nat)) :=
  q ← vector_at "oldFromNewQueries" oldFromNewQueries i;
  nb ← at_ "neighbors" neighbors j i;
  r ← vector_at "oldFromNewRefs" oldFromNewRefs nb;
  set_at "neighborsOut" neighborsOut j q r.

Definition remap_column (i : nat) (out : Mat (option R) * Mat (option nat))
    : outcome (Mat (option R) * Mat (option nat)) :=
  q ← vector_at "oldFromNewQueries" oldFromNewQueries i;
  c ← col "distances" distances i;
  distancesOut ← set_col "distancesOut" out.1 q c;
  neighborsOut ← for_loop 0 (n_rows distances) (remap_entry i) out.2;
  mret (distancesOut, neighborsOut).

Definition remap : outcome (Mat (option R) * Mat (option nat)) :=
  let distancesOut := uninitialised (n_rows distances) (n_cols distances) in
  let neighborsOut := uninitialised (n_rows neighbors) (n_cols neighbors) in
  for_loop 0 (n_cols distances) remap_column (distancesOut, neighborsOut).
End Remap.

(** The loop state has the sizes the two output matrices are declared with
    (lines 164 and 165): [distancesOut] as [distances], [neighborsOut] as
    [neighbors], every column as long as the matrix has rows. *)
Definition sized_as {A B C} (distances : Mat A) (neighbors : Mat B)
    (out : Mat (option A) * Mat (option C)) : Prop :=
  (n_rows out.1 = n_rows distances ∧ n_cols out.1 = n_cols distances)
  ∧ (n_rows out.2 = n_rows neighbors ∧ n_cols out.2 = n_cols neighbors)
  ∧ well_shaped out.2
  ∧ (well_shaped distances → well_shaped out.1).

(** ** The program

    What the executable does to the outside world, in the order it does it:
    the log lines, the timers, and the calls into the mlpack library (tree
    construction, engine construction, search, saving a matrix). *)
Inductive piece : Type :=
| Str (s : string)
| Num (z : Z)
| Endl.

Inductive level : Type := Info | Warn | Fatal.

Section Program.
(** The element type of [arma::mat] (a [double]), the tree type
    [BinarySpaceTree<HRectBound<2>, QueryStat<NearestNeighborSort>>]. *)
Variable R : Type.
Variable Tree : Type.

(** The arguments of the two [AllkNN] constructors, as [main] passes them. *)
Record AllkNN : Type := mkAllkNN {
  referenceSet : Mat R;
  querySet : option (Mat R);
  naive : bool;
  singleMode : bool;
  leafSize : Z;
  referenceTree : Tree;
  queryTree : option Tree
}.

Inductive event : Type :=
| Logged (l : level) (msg : list piece)
| TimerStart (name : string)
| TimerStop (name : string)
| TreeBuilt (data : Mat R) (leaf : Z)
| EngineBuilt (a : AllkNN)
| Searched (a : AllkNN) (k : Z)
| SavedDistances (file : string) (m : Mat R)
| SavedNeighbors (file : string) (m : Mat nat).

(** A computation in [main]: it extends the trace and ends in an outcome. *)
Definition M (A : Type) : Type := list event → outcome A * list event.

Definition M_ret {A} (a : A) : M A := λ t, (Done a, t).
Definition M_bind {A B} (f : A → M B) (m : M A) : M B := λ t,
  match m t with
  | (Done a, t') => f a t'
  | (Exited, t') => (Exited, t')
  | (Faulted e, t') => (Faulted e, t')
  end.
#[global] Instance M_mret : MRet M := @M_ret.
#[global] Instance M_mbind : MBind M := @M_bind.

Definition emit (e : event) : M unit := λ t, (Done tt, t ++ [e]).
Definition lift {A} (o : outcome A) : M A := λ t, (o, t).

Definition has_endl (msg : list piece) : bool :=
  existsb (λ p, match p with Endl => true | _ => false end) msg.

(** Modelled from the spec: the [Log] streams of mlpack's core, not under
    src/.  A configuration error is "fatal to the operation": a statement
    on [Log::Fatal] that ends its line terminates the process once the line
    is out; [Log::Info] and [Log::Warn] only print. *)
Definition log (l : level) (msg : list piece) : M unit := λ t,
  (match l with
   | Fatal => if has_endl msg then Exited else Done tt
   | _ => Done tt
   end, t ++ [Logged l msg]).

(** The command line, as [CLI] hands it over. *)
Record Params : Type := mkParams {
  reference_file : string;
  query_file : string;
  distances_file : string;
  neighbors_file : string;
  leaf_size : Z;
  naive_flag : bool;
  single_mode : bool;
  k_param : Z
}.

(** The library [main] calls into.  [Load file] is the matrix in [file], if
    it can be read.  [BinarySpaceTree data leaf] is the constructor
    [BinarySpaceTree(data, oldFromNew, leafSize)]: it returns the tree, the
    matrix as the constructor leaves it (columns reordered in place) and the
    contents it gives to the vector [oldFromNew], whatever that held before.
    [Search a k] is [AllkNN::Search]: the neighbour and distance matrices.
    The engine refers to the matrices and trees it is constructed with and
    does not copy them (line 110); [a] holds what they contain when the
    constructor is called.  The query matrix and the query tree are local
    to the block of lines 123 to 147, which the search of line 156 comes
    after. *)
Variable Load : string → option (Mat R).
Variable BinarySpaceTree : Mat R → Z → Tree * Mat R * list nat.
Variable Search : AllkNN → Z → Mat nat * Mat R.

Definition data_Load (file : string) : bool * Mat R :=
  match Load file with
  | Some m => (true, m)
  | None => (false, mkMat 0 [])
  end.

Definition build_tree (data : Mat R) (leaf : Z) : M (Tree * Mat R * list nat) :=
  emit (TreeBuilt data leaf);; mret (BinarySpaceTree data leaf).

Definition when (b : bool) (m : M unit) : M unit := if b then m else mret tt.

(** The local variables of [main] that are live after the trees are built
    and the engine is constructed (line 153). *)
Record locals : Type := mkLocals {
  referenceData : Mat R;
  oldFromNewRefs : list nat;
  oldFromNewQueries : list nat;
  allknn : AllkNN
}.

(** Lines 73 to 99: load the reference set, check [k] and the leaf size,
    warn when [--single_mode] comes with [--naive]. *)
Definition load_and_check (p : Params) : M (Mat R) :=
  let referenceFile := reference_file p in
  let leafSize := leaf_size p in
  let k := size_t_of_int (k_param p) in
  let naive := naive_flag p in
  let singleMode := single_mode p in
  let '(loaded, referenceData) := data_Load referenceFile in
  when (negb loaded)
    (log Fatal [Str "Reference file "; Str referenceFile; Str "not found."; Endl]);;
  log Info [Str "Loaded reference data from "; Str referenceFile; Endl];;
  when ((k <=? 0) || (k >=? Z.of_nat (n_cols referenceData)))
    (log Fatal [Str "Invalid k: "; Num k; Str "; must be greater than 0 and less "];;
     log Fatal [Str "than the number of reference points ("];;
     log Fatal [Num (Z.of_nat (n_cols referenceData)); Str ")."; Endl]);;
  when (leafSize <? 0)
    (log Fatal [Str "Invalid leaf size: "; Num leafSize;
                Str ".  Must be greater than or equal to 0."; Endl]);;
  when (singleMode && naive)
    (log Warn [Str "--single_mode ignored because --naive is present."; Endl]);;
  mret referenceData.

(** Lines 101 to 153: build the trees by hand and construct the engine. *)
Definition build_trees (p : Params) (referenceData : Mat R) : M locals :=
  let leafSize := leaf_size p in
  let naive := naive_flag p in
  let singleMode := single_mode p in
  let oldFromNewRefs : list nat := [] in
  log Info [Str "Building reference tree..."; Endl];;
  emit (TimerStart "tree_building");;
  '(refTree, referenceData, oldFromNewRefs) ← build_tree referenceData leafSize;
  emit (TimerStop "tree_building");;
  let oldFromNewQueries : list nat := [] in
  if negb (String.eqb (query_file p) "") then
    let queryFile := query_file p in
    let '(loaded, queryData) := data_Load queryFile in
    when (negb loaded)
      (log Fatal [Str "Query file "; Str queryFile; Str " not found"; Endl]);;
    log Info [Str "Query data loaded from "; Str queryFile; Endl];;
    log Info [Str "Building query tree..."; Endl];;
    emit (TimerStart "tree_building");;
    '(queryTree, queryData, oldFromNewRefs) ← build_tree queryData leafSize;
    emit (TimerStop "tree_building");;
    let allknn := mkAllkNN referenceData (Some queryData) naive singleMode 20
                    refTree (Some queryTree) in
    emit (EngineBuilt allknn);;
    log Info [Str "Tree built."; Endl];;
    mret (mkLocals referenceData oldFromNewRefs oldFromNewQueries allknn)
  else
    let allknn := mkAllkNN referenceData None naive singleMode 20 refTree None in
    emit (EngineBuilt allknn);;
    log Info [Str "Trees built."; Endl];;
    mret (mkLocals referenceData oldFromNewRefs oldFromNewQueries allknn).

(** Lines 155 to 158: the search. *)
Definition search (p : Params) (l : locals) : M (Mat nat * Mat R) :=
  let k := size_t_of_int (k_param p) in
  log Info [Str "Computing "; Num k; Str " nearest neighbors..."; Endl];;
  emit (Searched (allknn l) k);;
  let '(neighbors, distances) := Search (allknn l) k in
  log Info [Str "Neighbors computed."; Endl];;
  mret (neighbors, distances).

(** Lines 180 to 182: save the output.  [distancesOut] and [neighborsOut]
    are in scope here. *)
Definition save_output (p : Params) (distances : Mat R) (neighbors : Mat nat)
    (distancesOut : Mat (option R)) (neighborsOut : Mat (option nat)) : M unit :=
  emit (SavedDistances (distances_file p) distances);;
  emit (SavedNeighbors (neighbors_file p) neighbors).

(** Lines 155 to 182: search, map the indices back, save. *)
Definition search_and_save (p : Params) (l : locals) : M unit :=
  '(neighbors, distances) ← search p l;
  log Info [Str "Re-mapping indices..."; Endl];;
  '(distancesOut, neighborsOut) ←
     lift (remap (oldFromNewQueries l) (oldFromNewRefs l) distances neighbors);
  save_output p distances neighbors distancesOut neighborsOut.

(** [main], lines 54 to 185.  Lines 57 to 71 read the command line, here
    the record [p]; line 61 also reads a parameter "output_file" that the
    program does not declare, and never uses the value.  Line 184 frees the
    engine. *)
Definition main (p : Params) : M unit :=
  referenceData ← load_and_check p;
  l ← build_trees p referenceData;
  search_and_save p l.

(** A run starts from the empty trace. *)
Definition run (p : Params) : outcome unit * list event := main p [].

End Program.

Arguments mkAllkNN {R Tree} _ _ _ _ _ _ _.
Arguments referenceSet {R Tree} _.
Arguments querySet {R Tree} _.
Arguments naive {R Tree} _.
Arguments singleMode {R Tree} _.
Arguments leafSize {R Tree} _.
Arguments referenceTree {R Tree} _.
Arguments queryTree {R Tree} _.
Arguments Logged {R Tree} _ _.
Arguments TimerStart {R Tree} _.
Arguments TimerStop {R Tree} _.
Arguments TreeBuilt {R Tree} _ _.
Arguments EngineBuilt {R Tree} _.
Arguments Searched {R Tree} _ _.
Arguments SavedDistances {R Tree} _ _.
Arguments SavedNeighbors {R Tree} _ _.
Arguments mkLocals {R Tree} _ _ _ _.
Arguments referenceData {R Tree} _.
Arguments oldFromNewRefs {R Tree} _.
Arguments oldFromNewQueries {R Tree} _.
Arguments allknn {R Tree} _.

(** ** What a trace shows *)

(** The event is a call into the library that computes: a tree
    construction, the construction of the engine, or the search. *)
Definition computes {R Tree} (e : event R Tree) : bool :=
  match e with
  | TreeBuilt _ _ | EngineBuilt _ | Searched _ _ => true
  | _ => false
  end.

(** The event writes an output file. *)
Definition writes {R Tree} (e : event R Tree) : bool :=
  match e with
  | SavedDistances _ _ | SavedNeighbors _ _ => true
  | _ => false
  end.


(** The event is the first line of the fatal report on [k], or the fatal
    report on the leaf size. *)
Definition reports_invalid_k {R Tree} (e : event R Tree) : bool :=
  match e with
  | Logged Fatal (Str s :: _) => String.eqb s "Invalid k: "
  | _ => false
  end.

Definition reports_invalid_leaf_size {R Tree} (e : event R Tree) : bool :=
  match e with
  | Logged Fatal (Str s :: _) => String.eqb s "Invalid leaf size: "
  | _ => false
  end.

(** The reference set has a number of columns that a [size_t] converted
    from a negative [int] is never below. *)
Definition fits {T} (m : Mat T) : Prop :=
  Z.of_nat (n_cols m) <= size_t_modulus + int_min.

(** Every event that [m] adds to the trace satisfies [P]. *)
Definition adds {R Tree A} (P : event R Tree → Prop) (m : M R Tree A) : Prop :=
  ∀ t, ∃ ext, (m t).2 = t ++ ext ∧ Forall P ext.

(** The engine and the trees as the trace shows them: the leaf size of
    each. *)
Definition leaf_sizes_as_coded {R Tree} (p : Params) (e : event R Tree)
    : Prop :=
  match e with
  | EngineBuilt a => leafSize a = 20
  | TreeBuilt _ leaf => leaf = leaf_size p
  | _ => True
  end.

(** ** The search core

    The classes behind [AllkNN] live in mlpack's library, outside this
    source file; the definitions of this part follow sections 3 and 4 of
    the specification. *)

(** Modelled from the spec: the metric and the BoundingVolume interface of
    section 4.1, which are missing from src/.  [leq] compares two
    distances, [Evaluate] is the distance between two points, [Contains]
    tells whether a volume holds a point, [MinDistance] is the least
    possible distance from a point to any point the volume could contain
    and [MinDistanceBound] its volume-to-volume analogue; [NoResult] is the
    sentinel that pads a result with too few entries. *)
Class Geometry (R Bound : Type) : Type := {
  leq : R → R → bool;
  Evaluate : list R → list R → R;
  Contains : Bound → list R → bool;
  MinDistance : Bound → list R → R;
  MinDistanceBound : Bound → Bound → R;
  NoResult : R * nat
}.

(** Modelled from the spec: what section 4.1 asks of the interface (the
    operations are missing from src/).  Distances are totally ordered, and
    each minimum distance bounds from below the distance to every point the
    volume contains. *)
Class GeometryLaws (R Bound : Type) `{Geometry R Bound} : Prop := {
  leq_refl : ∀ x : R, leq x x = true;
  leq_trans : ∀ x y z : R, leq x y = true → leq y z = true → leq x z = true;
  leq_total : ∀ x y : R, leq x y = true ∨ leq y x = true;
  MinDistance_lower : ∀ (b : Bound) (q r : list R),
    Contains b r = true → leq (MinDistance b q) (Evaluate q r) = true;
  MinDistanceBound_lower : ∀ (bq br : Bound) (q r : list R),
    Contains bq q = true → Contains br r = true →
    leq (MinDistanceBound bq br) (Evaluate q r) = true
}.

(** Modelled from the spec: the PartitionTreeNode of section 3, missing
    from src/.  A leaf holds the contiguous range of point indices
    [begin, begin + count) in tree-internal order; an internal node holds
    two children; every node carries the volume that bounds its points. *)
Inductive Node (Bound : Type) : Type :=
| Leaf (bound : Bound) (begin count : nat)
| Inner (bound : Bound) (left right : Node Bound).
Arguments Leaf {Bound} _ _ _.
Arguments Inner {Bound} _ _ _.

(** Modelled from the spec: the volume of a node, the first index of its
    range and the number of its points (section 3; the accessors are
    missing from src/). *)
Definition Bound_of {Bound} (t : Node Bound) : Bound :=
  match t with Leaf b _ _ => b | Inner b _ _ => b end.

Fixpoint Begin {Bound} (t : Node Bound) : nat :=
  match t with Leaf _ b _ => b | Inner _ l _ => Begin l end.

Fixpoint Count {Bound} (t : Node Bound) : nat :=
  match t with Leaf _ _ c => c | Inner _ l r => (Count l + Count r)%nat end.

(** Modelled from the spec: the "three mutually exclusive modes" of
    section 4.3 (the engine is missing from src/). *)
Inductive SearchMode : Type := NaiveMode | SingleTreeMode | DualTreeMode.

(** Modelled from the spec: the mode selection policy of section 4.3,
    which [AllkNN] applies to the two flags [main] hands it and which is
    missing from src/.  "An explicit naive flag forces naive mode
    regardless of other flags"; otherwise the single-tree flag chooses
    between single-tree and dual-tree. *)
Definition SelectMode (naive singleMode : bool) : SearchMode :=
  if naive then NaiveMode
  else if singleMode then SingleTreeMode
  else DualTreeMode.

Section Core.
Context {R Bound : Type} `{Geometry R Bound}.

(** Modelled from the spec: the comparisons of section 4.3 against a
    worst distance or a statistic that may be +infinity, here [None] (the
    engine is missing from src/): [at_least d w] is d >= w, [below d w] is
    d < w, [max_ext] is the maximum. *)
Definition at_least (d : R) (w : option R) : bool :=
  match w with Some w => leq w d | None => false end.

Definition below (d : R) (w : option R) : bool :=
  match w with Some w => negb (leq w d) | None => true end.

Definition max_ext (a b : option R) : option R :=
  match a, b with
  | Some x, Some y => Some (if leq x y then y else x)
  | _, _ => None
  end.

(** Modelled from the spec: the CandidateSet of sections 3 and 4.4,
    missing from src/.  At most [k] pairs (distance, reference index),
    ascending by distance; [place] puts a new pair behind the pairs that
    are not farther, so that among equal distances the first found stays
    first. *)
Fixpoint place (c : R * nat) (cs : list (R * nat)) : list (R * nat) :=
  match cs with
  | [] => [c]
  | c' :: cs' => if leq c'.1 c.1 then c' :: place c cs' else c :: cs
  end.

(** Modelled from the spec: "current worst distance" of section 3, the
    k-th smallest distance found so far, or +infinity if fewer than k
    candidates are held. *)
Definition CurrentWorst (k : nat) (cs : list (R * nat)) : option R :=
  if (length cs <? k)%nat then None else last (cs.*1).

(** Modelled from the spec: [Insert] of section 4.4.  "If fewer than k
    entries held, insert unconditionally; otherwise insert only if
    distance < currentWorst, evicting the previous worst." *)
Definition Insert (k : nat) (d : R) (i : nat) (cs : list (R * nat))
    : list (R * nat) :=
  if (length cs <? k)%nat then place (d, i) cs
  else if below d (CurrentWorst k cs) then removelast (place (d, i) cs)
  else cs.

(** Modelled from the spec: [Finalize] of section 4.4: the k entries in
    ascending order, padded with the sentinel when fewer are held. *)
Definition Finalize (k : nat) (cs : list (R * nat)) : list (R * nat) :=
  take k (cs ++ replicate (k - length cs) NoResult).

(** Modelled from the spec: the brute-force comparison of one query point
    against the reference points of a range, "maintaining each query's
    CandidateSet via insert" (section 4.3). *)
Definition BaseCase (k : nat) (refs : list (list R)) (q : list R)
    (begin count : nat) (cs : list (R * nat)) : list (R * nat) :=
  foldl (λ cs i, match refs !! i with
                 | Some r => Insert k (Evaluate q r) i cs
                 | None => cs
                 end) cs (seq begin count).

(** Modelled from the spec: naive mode of section 4.3: "for every query
    point, compute distance to every reference point". *)
Definition NaiveSearch (k : nat) (refs queries : list (list R))
    : list (list (R * nat)) :=
  (λ q, BaseCase k refs q 0 (length refs) []) <$> queries.

(** Modelled from the spec: the single-tree traversal of section 4.3.  At
    an internal reference node, prune if the set is full and the minimum
    distance from the query point to the volume is at least the current
    worst distance; otherwise visit the child with the smaller minimum
    distance first.  At a leaf, compare against all contained points. *)
Fixpoint SingleTree (k : nat) (refs : list (list R)) (q : list R)
    (node : Node Bound) (cs : list (R * nat)) : list (R * nat) :=
  match node with
  | Leaf _ b c => BaseCase k refs q b c cs
  | Inner bound l r =>
      if at_least (MinDistance bound q) (CurrentWorst k cs) then cs
      else if leq (MinDistance (Bound_of l) q) (MinDistance (Bound_of r) q)
      then SingleTree k refs q r (SingleTree k refs q l cs)
      else SingleTree k refs q l (SingleTree k refs q r cs)
  end.

Definition SingleTreeSearch (k : nat) (refs queries : list (list R))
    (referenceTree : Node Bound) : list (list (R * nat)) :=
  (λ q, SingleTree k refs q referenceTree []) <$> queries.

(** Modelled from the spec: the search-time state of dual-tree mode
    (section 3): one CandidateSet per query point, and the NodeStatistic of
    the query-tree nodes, kept by the path from the root ([false] is the
    left child); a node without an entry has the statistic +infinity. *)
Record DualState : Type := mkDualState {
  candidates : list (list (R * nat));
  statistics : gmap (list bool) R
}.

Definition NodeStatistic (s : DualState) (path : list bool) : option R :=
  statistics s !! path.

Definition set_statistic (path : list bool) (w : option R)
    (stats : gmap (list bool) R) : gmap (list bool) R :=
  match w with
  | Some x => <[path := x]> stats
  | None => delete path stats
  end.

(** Modelled from the spec: the NodeStatistic of a leaf by its definition
    in section 3, "the maximum, over all query points in this node's
    subtree, of the distance to that point's current k-th nearest
    candidate" (missing from src/). *)
Definition worst_of (k : nat) (cands : list (list (R * nat))) (qi : nat)
    : option R :=
  match cands !! qi with
  | Some cs => CurrentWorst k cs
  | None => None
  end.

Definition worst_over (k : nat) (cands : list (list (R * nat)))
    (begin count : nat) : option R :=
  match count with
  | O => None
  | S count' =>
      foldl (λ w qi, max_ext w (worst_of k cands qi))
            (worst_of k cands begin) (seq (S begin) count')
  end.

(** Modelled from the spec: "if both are leaves, brute-force all point
    pairs between the two leaf ranges, updating each query point's
    CandidateSet" (section 4.3; missing from src/). *)
Definition BaseCases (k : nat) (refs queries : list (list R))
    (qbegin qcount rbegin rcount : nat) (cands : list (list (R * nat)))
    : list (list (R * nat)) :=
  foldl (λ cands qi,
           match queries !! qi, cands !! qi with
           | Some q, Some cs => <[qi := BaseCase k refs q rbegin rcount cs]> cands
           | _, _ => cands
           end) cands (seq qbegin qcount).

(** Modelled from the spec: "visiting in increasing order of inter-volume
    MinDistance" (section 4.3; missing from src/), by a stable insertion
    sort on the key. *)
Fixpoint insert_by_key {A} (x : R * A) (l : list (R * A)) : list (R * A) :=
  match l with
  | [] => [x]
  | y :: l' => if leq y.1 x.1 then y :: insert_by_key x l' else x :: l
  end.

Definition sort_by_key {A} (l : list (R * A)) : list (R * A) :=
  foldr insert_by_key [] l.

(** Modelled from the spec: the dual-tree traversal of section 4.3, with a
    query leaf held fixed.  Prune the pair if the minimum distance between
    the volumes is at least the query node's statistic; against a
    reference leaf, compare all point pairs and refresh the statistic;
    against an internal reference node, recurse over its children. *)
Fixpoint DualLeaf (k : nat) (refs queries : list (list R))
    (qbound : Bound) (qbegin qcount : nat) (path : list bool)
    (rnode : Node Bound) (s : DualState) : DualState :=
  if at_least (MinDistanceBound qbound (Bound_of rnode)) (NodeStatistic s path)
  then s
  else
    match rnode with
    | Leaf _ rb rc =>
        let cands :=
          BaseCases k refs queries qbegin qcount rb rc (candidates s) in
        mkDualState cands
          (set_statistic path (worst_over k cands qbegin qcount) (statistics s))
    | Inner _ rl rr =>
        DualLeaf k refs queries qbound qbegin qcount path rr
          (DualLeaf k refs queries qbound qbegin qcount path rl s)
    end.

(** Modelled from the spec: the dual-tree traversal of section 4.3 on a
    pair (query node, reference node).  Both internal: the four child
    pairs in increasing order of minimum distance between the volumes; one
    side a leaf: the children of the internal side against the leaf.
    After the children, the node's statistic is the maximum of its two
    children's statistics. *)
Fixpoint DualTree (k : nat) (refs queries : list (list R))
    (qnode : Node Bound) (path : list bool) (rnode : Node Bound)
    (s : DualState) : DualState :=
  match qnode with
  | Leaf qbound qb qc => DualLeaf k refs queries qbound qb qc path rnode s
  | Inner qbound ql qr =>
      if at_least (MinDistanceBound qbound (Bound_of rnode))
           (NodeStatistic s path)
      then s
      else
        let s' :=
          match rnode with
          | Leaf _ _ _ =>
              DualTree k refs queries qr (path ++ [true]) rnode
                (DualTree k refs queries ql (path ++ [false]) rnode s)
          | Inner _ rl rr =>
              let key (a b : bool) :=
                MinDistanceBound (Bound_of (if a then qr else ql))
                                 (Bound_of (if b then rr else rl)) in
              foldl (λ s (task : R * (bool * bool)),
                       DualTree k refs queries
                         (if task.2.1 then qr else ql) (path ++ [task.2.1])
                         (if task.2.2 then rr else rl) s)
                    s
                    (sort_by_key
                       [(key false false, (false, false));
                        (key false true, (false, true));
                        (key true false, (true, false));
                        (key true true, (true, true))])
          end in
        mkDualState (candidates s')
          (set_statistic path
             (max_ext (NodeStatistic s' (path ++ [false]))
                      (NodeStatistic s' (path ++ [true])))
             (statistics s'))
  end.

(** Modelled from the spec: the visit of the children in [DualTree], at
    an internal query node whose pair with [rnode] is not pruned; the body
    of [DualTree] at that point, under a name. *)
Definition DualChildren (k : nat) (refs queries : list (list R))
    (ql qr : Node Bound) (path : list bool) (rnode : Node Bound)
    (s : DualState) : DualState :=
  match rnode with
  | Leaf _ _ _ =>
      DualTree k refs queries qr (path ++ [true]) rnode
        (DualTree k refs queries ql (path ++ [false]) rnode s)
  | Inner _ rl rr =>
      let key (a b : bool) :=
        MinDistanceBound (Bound_of (if a then qr else ql))
                         (Bound_of (if b then rr else rl)) in
      foldl (λ s (task : R * (bool * bool)),
               DualTree k refs queries
                 (if task.2.1 then qr else ql) (path ++ [task.2.1])
                 (if task.2.2 then rr else rl) s)
            s
            (sort_by_key
               [(key false false, (false, false));
                (key false true, (false, true));
                (key true false, (true, false));
                (key true true, (true, true))])
  end.

Definition DualTreeSearch (k : nat) (refs queries : list (list R))
    (referenceTree queryTree : Node Bound) : list (list (R * nat)) :=
  candidates
    (DualTree k refs queries queryTree [] referenceTree
       (mkDualState (replicate (length queries) []) ∅)).

(** Modelled from the spec: the SearchEngine of section 4.3, missing from
    src/: one of the three modes, fixed for the whole search. *)
Definition SearchEngine (mode : SearchMode) (k : nat)
    (refs queries : list (list R)) (referenceTree queryTree : Node Bound)
    : list (list (R * nat)) :=
  match mode with
  | NaiveMode => NaiveSearch k refs queries
  | SingleTreeMode => SingleTreeSearch k refs queries referenceTree
  | DualTreeMode => DualTreeSearch k refs queries referenceTree queryTree
  end.

(** Modelled from the spec: [AllkNN::Search], missing from src/, on the
    arguments [main] gave the constructor.  Without a separate query set
    the reference set doubles as the query set, and the reference tree as
    the query tree.  The result is the pair of k-row matrices, one column
    per query point, in tree-internal order. *)
Definition AllkNN_Search (a : AllkNN R (Node Bound)) (k : Z)
    : Mat nat * Mat R :=
  let refs := columns (referenceSet a) in
  let queries := match querySet a with
                 | Some q => columns q
                 | None => refs
                 end in
  let qtree := match queryTree a with
               | Some t => t
               | None => referenceTree a
               end in
  let results :=
    Finalize (Z.to_nat k) <$>
      SearchEngine (SelectMode (naive a) (singleMode a)) (Z.to_nat k)
        refs queries (referenceTree a) qtree in
  (mkMat (Z.to_nat k) ((λ cs, cs.*2) <$> results),
   mkMat (Z.to_nat k) ((λ cs, cs.*1) <$> results)).

End Core.

(** ** Points with integer coordinates

    An instance of the interface on which the definitions run: points and
    distances are integers, distances are compared squared (which orders
    them as the Euclidean distance does), volumes are hyper-rectangles. *)

(** Modelled from the spec: the squared Euclidean distance between two
    points (the metric is missing from src/). *)
Fixpoint SquaredDistance (a b : list Z) : Z :=
  match a, b with
  | x :: a', y :: b' => (x - y) * (x - y) + SquaredDistance a' b'
  | _, _ => 0
  end.

(** Modelled from the spec: the BoundingVolume of section 3, "one
    min-coordinate and one max-coordinate vector", here the pair (min, max)
    of each dimension ([HRectBound] is missing from src/). *)
Definition HRectBound : Type := list (Z * Z).

Fixpoint HRect_Contains (b : HRectBound) (p : list Z) : bool :=
  match b, p with
  | [], [] => true
  | (lo, hi) :: b', x :: p' => (lo <=? x) && (x <=? hi) && HRect_Contains b' p'
  | _, _ => false
  end.

(** The gap along one axis between a coordinate and an interval, and
    between two intervals. *)
Definition axis_gap (lo hi x : Z) : Z := Z.max 0 (Z.max (lo - x) (x - hi)).
Definition axis_gap2 (lo1 hi1 lo2 hi2 : Z) : Z :=
  Z.max 0 (Z.max (lo1 - hi2) (lo2 - hi1)).

(** Modelled from the spec: [MinDistance(point)] of section 4.1: 0 if the
    point lies inside the box on all axes, otherwise the (squared) distance
    to the nearest face or corner. *)
Fixpoint HRect_MinDistance (b : HRectBound) (p : list Z) : Z :=
  match b, p with
  | (lo, hi) :: b', x :: p' =>
      axis_gap lo hi x * axis_gap lo hi x + HRect_MinDistance b' p'
  | _, _ => 0
  end.

(** Modelled from the spec: [MinDistance(otherVolume)] of section 4.1, the
    per-axis minimum gap combined as the (squared) norm. *)
Fixpoint HRect_MinDistanceBound (b1 b2 : HRectBound) : Z :=
  match b1, b2 with
  | (lo1, hi1) :: b1', (lo2, hi2) :: b2' =>
      axis_gap2 lo1 hi1 lo2 hi2 * axis_gap2 lo1 hi1 lo2 hi2
      + HRect_MinDistanceBound b1' b2'
  | _, _ => 0
  end.

#[global] Instance Z_Geometry : Geometry Z HRectBound := {|
  leq := Z.leb;
  Evaluate := SquaredDistance;
  Contains := HRect_Contains;
  MinDistance := HRect_MinDistance;
  MinDistanceBound := HRect_MinDistanceBound;
  NoResult := (-1, 0%nat)
|}.

(** Modelled from the spec: the construction of a volume of section 4.1,
    "the per-axis min/max over a point range". *)
Definition widen (b : HRectBound) (p : list Z) : HRectBound :=
  zip_with (λ '(lo, hi) x, (Z.min lo x, Z.max hi x)) b p.

Definition bounding (pts : list (list Z)) : HRectBound :=
  match pts with
  | [] => []
  | p :: rest => foldl widen ((λ x, (x, x)) <$> p) rest
  end.

(** Modelled from the spec: "the dimension of greatest spread
    (max[i] - min[i]) in the current bounding volume" of section 4.2, the
    first such dimension, with its width. *)
Fixpoint widest_from (i : nat) (b : HRectBound) (best : nat * Z) : nat * Z :=
  match b with
  | [] => best
  | (lo, hi) :: b' =>
      widest_from (S i) b' (if best.2 <? hi - lo then (i, hi - lo) else best)
  end.

Definition widest (b : HRectBound) : nat * Z := widest_from 0 b (0%nat, 0).

(** Modelled from the spec: [Build] of section 4.2 ([BinarySpaceTree] is
    missing from src/).  The points come with their original indices.  A
    range of at most [leaf] points becomes a leaf; otherwise the range is
    partitioned around the midpoint of the dimension of greatest spread,
    points below the midpoint first.  A range whose points all coincide
    cannot be partitioned and becomes a leaf.  The result is the node and
    the points in the order the tree stores them. *)
Fixpoint Build (fuel leaf begin : nat) (pts : list (list Z * nat))
    : Node HRectBound * list (list Z * nat) :=
  let bound := bounding pts.*1 in
  match fuel with
  | O => (Leaf bound begin (length pts), pts)
  | S fuel' =>
      let '(dim, width) := widest bound in
      if (length pts <=? leaf)%nat || (width <=? 0)
      then (Leaf bound begin (length pts), pts)
      else
        let '(lo, hi) := default (0, 0) (bound !! dim) in
        let low := filter (λ p, 2 * default 0 (p.1 !! dim) < lo + hi) pts in
        let high := filter (λ p, ¬ (2 * default 0 (p.1 !! dim) < lo + hi)) pts in
        let '(l, lpts) := Build fuel' leaf begin low in
        let '(r, rpts) := Build fuel' leaf (begin + length low) high in
        (Inner bound l r, lpts ++ rpts)
  end.

(** Modelled from the spec: the constructor
    [BinarySpaceTree(data, oldFromNew, leafSize)] as section 4.2 describes
    its side effect: it "physically reorders the underlying point storage
    in place ... and records the resulting permutation array", which maps a
    tree-internal index to the original input index. *)
Definition BinarySpaceTree_Z (data : Mat Z) (leaf : Z)
    : Node HRectBound * Mat Z * list nat :=
  let pts := zip (columns data) (seq 0 (n_cols data)) in
  let '(tree, pts') := Build (n_cols data) (Z.to_nat leaf) 0 pts in
  (tree, mkMat (n_rows data) pts'.*1, pts'.*2).

(** ** What the search core is checked against *)

Section CoreSpec.
Context {R Bound : Type} `{Geometry R Bound}.

(** Ascending by distance. *)
Definition ascending (cs : list (R * nat)) : Prop :=
  StronglySorted (λ a b, leq a.1 b.1 = true) cs.

(** The point indices of a node: [Begin t, Begin t + Count t). *)
Definition in_node (t : Node Bound) (i : nat) : Prop :=
  (Begin t ≤ i < Begin t + Count t)%nat.

(** The invariants of section 3 on a tree over the points [pts]: every
    node's volume contains the points of the node, the range of a node
    lies within the point set, and the range of the right child follows
    that of the left. *)
Fixpoint well_formed (pts : list (list R)) (t : Node Bound) : bool :=
  forallb (λ i, match pts !! i with
                | Some p => Contains (Bound_of t) p
                | None => false
                end) (seq (Begin t) (Count t))
  && match t with
     | Leaf _ _ _ => true
     | Inner _ l r =>
         (Begin r =? Begin l + Count l)%nat
         && well_formed pts l && well_formed pts r
     end.

(** The tree is over the whole point set [0, n). *)
Definition covers (t : Node Bound) (n : nat) : bool :=
  (Begin t =? 0)%nat && (Count t =? n)%nat.

(** [res] is an exact answer for the query point [q]: [k] pairs in
    ascending order, on distinct reference points, each with the distance
    of its point, and no reference point left out is nearer than a point
    that is in. *)
Definition exact_knn (k : nat) (refs : list (list R)) (q : list R)
    (res : list (R * nat)) : Prop :=
  length res = k
  ∧ ascending res
  ∧ NoDup res.*2
  ∧ (∀ d i, (d, i) ∈ res → ∃ r, refs !! i = Some r ∧ d = Evaluate q r)
  ∧ (∀ i r, refs !! i = Some r → i ∉ res.*2 →
       ∀ c, c ∈ res → leq c.1 (Evaluate q r) = true).

(** The candidate set [cs] of the query point [q] accounts for the
    reference points in [P]: it is what an exact search over [P] alone
    would hold. *)
Definition accounts (k : nat) (refs : list (list R)) (q : list R)
    (P : nat → Prop) (cs : list (R * nat)) : Prop :=
  ascending cs
  ∧ NoDup cs.*2
  ∧ (length cs ≤ k)%nat
  ∧ (∀ d i, (d, i) ∈ cs → P i ∧ ∃ r, refs !! i = Some r ∧ d = Evaluate q r)
  ∧ (∀ i r, P i → refs !! i = Some r → i ∉ cs.*2 →
       length cs = k ∧ ∀ c, c ∈ cs → leq c.1 (Evaluate q r) = true).

(** The node reached from [t] along [path] ([false] is the left child). *)
Fixpoint node_at (t : Node Bound) (path : list bool) {struct path}
    : option (Node Bound) :=
  match path with
  | [] => Some t
  | b :: path' =>
      match t with
      | Leaf _ _ _ => None
      | Inner _ l r => node_at (if b then r else l) path'
      end
  end.

(** Every statistic recorded for a node of the query tree bounds from
    above the current worst distance of each query point of the node. *)
Definition statistics_valid (k : nat) (qroot : Node Bound) (s : DualState)
    : Prop :=
  ∀ path t x qi,
    node_at qroot path = Some t → statistics s !! path = Some x →
    in_node t qi → at_least x (worst_of k (candidates s) qi) = true.

(** The current worst distances have not grown from [cands] to [cands']. *)
Definition improves (k : nat) (cands cands' : list (list (R * nat))) : Prop :=
  ∀ qi x, at_least x (worst_of k cands qi) = true →
          at_least x (worst_of k cands' qi) = true.

(** The candidate set of each query point [qi] accounts for the reference
    points that [A qi] holds of. *)
Definition all_account (k : nat) (refs queries : list (list R))
    (A : nat → nat → Prop) (cands : list (list (R * nat))) : Prop :=
  length cands = length queries
  ∧ ∀ qi q, queries !! qi = Some q →
      ∃ cs, cands !! qi = Some cs ∧ accounts k refs q (A qi) cs.

End CoreSpec.

(** ** What a run computes *)

(** The work a run performs, without the log lines and the timers: the
    trees it builds, the searches with the mode the engine selects and the
    matrices it returns, and the files it saves. *)
Inductive work (R : Type) : Type :=
| BuildWork (data : Mat R) (leaf : Z)
| SearchWork (mode : SearchMode) (neighbors : Mat nat) (distances : Mat R)
| SaveDistancesWork (file : string) (m : Mat R)
| SaveNeighborsWork (file : string) (m : Mat nat).
Arguments BuildWork {R} _ _.
Arguments SearchWork {R} _ _ _.
Arguments SaveDistancesWork {R} _ _.
Arguments SaveNeighborsWork {R} _ _.

Definition performed {R Bound} `{Geometry R Bound}
    (e : event R (Node Bound)) : option (work R) :=
  match e with
  | TreeBuilt data leaf => Some (BuildWork data leaf)
  | Searched a k =>
      Some (SearchWork (SelectMode (naive a) (singleMode a))
              (AllkNN_Search a k).1 (AllkNN_Search a k).2)
  | SavedDistances file m => Some (SaveDistancesWork file m)
  | SavedNeighbors file m => Some (SaveNeighborsWork file m)
  | _ => None
  end.

Definition single_mode_warning {R Tree} : event R Tree :=
  Logged Warn [Str "--single_mode ignored because --naive is present."; Endl].

(** ** Two inputs

    Four points on a line with a second set of three query points, and the
    four points in the plane of the example scenario of the specification. *)
Definition line_reference : Mat Z := mkMat 1 [[5]; [0]; [3]; [9]].
Definition line_query : Mat Z := mkMat 1 [[4]; [8]; [1]].

Definition line_Load (file : string) : option (Mat Z) :=
  if String.eqb file "reference.csv" then Some line_reference
  else if String.eqb file "query.csv" then Some line_query
  else None.

(** --k=2 --leaf_size=2, without and with a query file. *)
Definition line_self_search : Params :=
  mkParams "reference.csv" "" "distances.csv" "neighbors.csv" 2 false false 2.
Definition line_with_query : Params :=
  mkParams "reference.csv" "query.csv" "distances.csv" "neighbors.csv"
    2 false false 2.


Definition plane_reference : Mat Z := mkMat 2 [[0; 0]; [1; 0]; [0; 1]; [5; 5]].

Definition plane_Load (file : string) : option (Mat Z) :=
  if String.eqb file "reference.csv" then Some plane_reference else None.

(** --k=1 --leaf_size=1, no query file. *)
Definition plane_self_search : Params :=
  mkParams "reference.csv" "" "distances.csv" "neighbors.csv" 1 false false 1.

(** The program on integer points, with the tree and the engine of the
    specification. *)
Definition run_Z (Load : string → option (Mat Z)) (p : Params)
    : outcome unit * list (event Z (Node HRectBound)) :=
  run Z (Node HRectBound) Load BinarySpaceTree_Z AllkNN_Search p.

(** A result in tree-internal indices, with each index translated to the
    original index through the permutation [oldFromNew]. *)
Definition relabel {R} (oldFromNew : list nat) (res : list (R * nat))
    : list (R * nat) :=
  (λ c, (c.1, default 0%nat (oldFromNew !! c.2))) <$> res.

(** * Properties *)

Section ProgramFacts.
Context {R Tree : Type}.
Variable Load : string → option (Mat R).
Variable BinarySpaceTree : Mat R → Z → Tree * Mat R * list nat.
Variable Search : AllkNN R Tree → Z → Mat nat * Mat R.

Abbreviation ev := (event R Tree).
Abbreviation Prog := (M R Tree).

Lemma adds_ret {A} P (a : A) : adds P (mret a : Prog A).
Proof. intros t. exists []. rewrite app_nil_r. by split. Qed.

Lemma adds_lift {A} P (o : outcome A) : adds P (lift R Tree o).
Proof. intros t. exists []. rewrite app_nil_r. by split. Qed.

Lemma adds_emit P e : P e → adds P (emit R Tree e).
Proof. intros He t. exists [e]. split; [done | by constructor]. Qed.

Lemma adds_log P l msg : P (Logged l msg) → adds P (log R Tree l msg).
Proof. intros He t. exists [Logged l msg]. split; [done | by constructor]. Qed.

Lemma adds_bind {A B} P (m : Prog A) (f : A → Prog B) :
  adds P m → (∀ a, adds P (f a)) → adds P (m ≫= f).
Proof.
  intros Hm Hf t. destruct (Hm t) as (ext & Ht & Hext).
  unfold mbind, M_mbind, M_bind.
  destruct (m t) as [[a| |e] t'] eqn:Hmt; simpl in Ht; subst t'.
  - destruct (Hf a (t ++ ext)) as (ext' & -> & Hext').
    exists (ext ++ ext'). rewrite app_assoc. split; [done |].
    by apply Forall_app.
  - by exists ext.
  - by exists ext.
Qed.

Lemma adds_when P b (m : Prog unit) : adds P m → adds P (when R Tree b m).
Proof. intros Hm. destruct b; [done | apply adds_ret]. Qed.

Lemma adds_run {A} P (m : Prog A) : adds P m → Forall P (m []).2.
Proof. intros Hm. destruct (Hm []) as (ext & -> & Hext). done. Qed.

(** Once a step has exited, what follows it does not run. *)
Lemma bind_exited {A B} (m : Prog A) (f : A → Prog B) t t' :
  m t = (Exited, t') → (m ≫= f) t = (Exited, t').
Proof. intros H. unfold mbind, M_mbind, M_bind. by rewrite H. Qed.

Lemma bind_done {A B} (m : Prog A) (f : A → Prog B) t t' a :
  m t = (Done a, t') → (m ≫= f) t = f a t'.
Proof. intros H. unfold mbind, M_mbind, M_bind. by rewrite H. Qed.

Lemma bind_faulted {A B} (m : Prog A) (f : A → Prog B) t t' e :
  m t = (Faulted e, t') → (m ≫= f) t = (Faulted e, t').
Proof. intros H. unfold mbind, M_mbind, M_bind. by rewrite H. Qed.

Ltac in_trace :=
  simpl;
  repeat (rewrite elem_of_app || rewrite elem_of_cons
          || rewrite list_elem_of_singleton);
  intuition congruence.

Ltac adds_step :=
  first
    [ apply adds_ret | apply adds_lift
    | apply adds_emit | apply adds_log | apply adds_when
    | apply adds_bind; [| intros ?] ].

Ltac adds_auto := repeat (adds_step; simpl; try done).

Lemma adds_build_tree P data leaf :
  P (TreeBuilt data leaf) →
  adds P (build_tree R Tree BinarySpaceTree data leaf).
Proof. intros H. unfold build_tree. adds_auto. Qed.

(** The code's condition on [k] is the claim's: [k <= 0 || k >= n] on the
    [size_t] holds exactly when the [int] is below 1 or above [n - 1]. *)
Lemma k_condition (k : Z) (n : nat) :
  is_int k → Z.of_nat n <= size_t_modulus + int_min →
  (size_t_of_int k <=? 0) || (size_t_of_int k >=? Z.of_nat n) = true
  ↔ k < 1 ∨ k > Z.of_nat n - 1.
Proof.
  unfold is_int, size_t_of_int, size_t_modulus, int_min, int_max.
  intros Hk Hn. rewrite orb_true_iff, Z.leb_le, Z.geb_le.
  destruct (Z_lt_le_dec k 0) as [Hneg | Hpos].
  - assert (k mod 2 ^ 64 = k + 2 ^ 64) as ->.
    { symmetry. apply (Z.mod_unique _ _ (-1)); lia. }
    lia.
  - rewrite Z.mod_small by lia. lia.
Qed.

Abbreviation k_rejected p m :=
  ((size_t_of_int (k_param p) <=? 0)
   || (size_t_of_int (k_param p) >=? Z.of_nat (n_cols m))).

Abbreviation loaded_line p :=
  (Logged Info [Str "Loaded reference data from "; Str (reference_file p); Endl]).

Lemma load_and_check_not_found p t :
  Load (reference_file p) = None →
  ∃ e, load_and_check R Tree Load p t = (Exited, t ++ [e])
       ∧ computes e = false ∧ writes e = false.
Proof.
  intros HL. unfold load_and_check, data_Load. rewrite HL. simpl.
  eexists. split; [reflexivity | done].
Qed.

Lemma load_and_check_invalid_k p m t :
  Load (reference_file p) = Some m →
  k_rejected p m = true →
  load_and_check R Tree Load p t =
    (Exited,
     t ++ [loaded_line p]
       ++ [Logged Fatal [Str "Invalid k: "; Num (size_t_of_int (k_param p));
                         Str "; must be greater than 0 and less "]]
       ++ [Logged Fatal [Str "than the number of reference points ("]]
       ++ [Logged Fatal [Num (Z.of_nat (n_cols m)); Str ")."; Endl]]).
Proof.
  intros HL Hk. unfold load_and_check, data_Load. rewrite HL. simpl.
  unfold mbind, M_mbind, M_bind. simpl. rewrite Hk. simpl.
  by rewrite <- !app_assoc.
Qed.

Lemma load_and_check_invalid_leaf_size p m t :
  Load (reference_file p) = Some m →
  k_rejected p m = false →
  leaf_size p < 0 →
  load_and_check R Tree Load p t =
    (Exited,
     t ++ [loaded_line p]
       ++ [Logged Fatal [Str "Invalid leaf size: "; Num (leaf_size p);
                         Str ".  Must be greater than or equal to 0."; Endl]]).
Proof.
  intros HL Hk Hleaf. unfold load_and_check, data_Load. rewrite HL. simpl.
  unfold mbind, M_mbind, M_bind. simpl. rewrite Hk. simpl.
  apply Z.ltb_lt in Hleaf. rewrite Hleaf. simpl.
  by rewrite <- !app_assoc.
Qed.

Lemma load_and_check_passes p m t :
  Load (reference_file p) = Some m →
  k_rejected p m = false →
  0 <= leaf_size p →
  load_and_check R Tree Load p t =
    (Done m,
     t ++ [loaded_line p]
       ++ (if single_mode p && naive_flag p
           then [Logged Warn
                   [Str "--single_mode ignored because --naive is present."; Endl]]
           else [])).
Proof.
  intros HL Hk Hleaf. unfold load_and_check, data_Load. rewrite HL. simpl.
  unfold mbind, M_mbind, M_bind. simpl. rewrite Hk. simpl.
  apply Z.ltb_ge in Hleaf. rewrite Hleaf. simpl.
  destruct (single_mode p && naive_flag p); simpl;
    by rewrite <- ?app_assoc, ?app_nil_r.
Qed.

(** Each phase of [main] only adds events that satisfy [P], when the
    events it can add do. *)
Lemma adds_load_and_check (P : ev → Prop) p :
  (∀ msg, P (Logged Info msg)) → (∀ msg, P (Logged Warn msg)) →
  P (Logged Fatal [Str "Reference file "; Str (reference_file p);
                   Str "not found."; Endl]) →
  P (Logged Fatal [Str "than the number of reference points ("]) →
  (∀ z msg, P (Logged Fatal (Num z :: msg))) →
  (k_rejected p (data_Load R Load (reference_file p)).2 = true →
   ∀ msg, P (Logged Fatal (Str "Invalid k: " :: msg))) →
  (leaf_size p < 0 → ∀ msg, P (Logged Fatal (Str "Invalid leaf size: " :: msg))) →
  adds P (load_and_check R Tree Load p).
Proof.
  intros HI HW HF H2 H3 Hk Hl. unfold load_and_check, when.
  destruct (data_Load R Load (reference_file p)) as [loaded m]. simpl in Hk.
  apply adds_bind; [destruct (negb loaded); adds_auto | intros _].
  apply adds_bind; [adds_auto | intros _].
  apply adds_bind; [| intros _].
  { destruct (_ || _); [| apply adds_ret].
    repeat (apply adds_bind; [| intros _]); apply adds_log; auto. }
  apply adds_bind; [| intros _].
  { destruct (Z.ltb_spec (leaf_size p) 0); [| apply adds_ret].
    apply adds_log; auto. }
  apply adds_bind; [| intros _; apply adds_ret].
  destruct (_ && _); adds_auto.
Qed.

Lemma adds_build_trees (P : ev → Prop) p m :
  (∀ msg, P (Logged Info msg)) →
  P (Logged Fatal [Str "Query file "; Str (query_file p);
                   Str " not found"; Endl]) →
  (∀ s, P (TimerStart s)) → (∀ s, P (TimerStop s)) →
  (∀ d, P (TreeBuilt d (leaf_size p))) →
  (∀ d q t u, P (EngineBuilt
                   (mkAllkNN d q (naive_flag p) (single_mode p) 20 t u))) →
  adds P (build_trees R Tree Load BinarySpaceTree p m).
Proof.
  intros HI HF HS HT HB HE. unfold build_trees, when.
  apply adds_bind; [adds_auto | intros _].
  apply adds_bind; [adds_auto | intros _].
  apply adds_bind; [by apply adds_build_tree | intros [[refTree m'] perm]].
  apply adds_bind; [adds_auto | intros _].
  destruct (negb _).
  - destruct (data_Load R Load (query_file p)) as [loaded qd].
    apply adds_bind; [destruct (negb loaded); adds_auto | intros _].
    apply adds_bind; [adds_auto | intros _].
    apply adds_bind; [adds_auto | intros _].
    apply adds_bind; [adds_auto | intros _].
    apply adds_bind; [by apply adds_build_tree | intros [[qTree qd'] perm']].
    adds_auto.
  - adds_auto.
Qed.

Lemma adds_search (P : ev → Prop) p l :
  (∀ msg, P (Logged Info msg)) →
  P (Searched (allknn l) (size_t_of_int (k_param p))) →
  adds P (search R Tree Search p l).
Proof.
  intros HI HS. unfold search.
  apply adds_bind; [adds_auto | intros _].
  apply adds_bind; [adds_auto | intros _].
  destruct (Search _ _) as [nb ds]. adds_auto.
Qed.

Lemma adds_save_output (P : ev → Prop) p ds nb dso nbo :
  P (SavedDistances (distances_file p) ds) →
  P (SavedNeighbors (neighbors_file p) nb) →
  adds P (save_output R Tree p ds nb dso nbo).
Proof. intros H1 H2. unfold save_output. adds_auto. Qed.

Abbreviation run' := (run R Tree Load BinarySpaceTree Search).

Lemma adds_search_and_save (P : ev → Prop) p l :
  (∀ msg, P (Logged Info msg)) →
  (∀ a k, P (Searched a k)) →
  (∀ f d, P (SavedDistances f d)) → (∀ f d, P (SavedNeighbors f d)) →
  adds P (search_and_save R Tree Search p l).
Proof.
  intros HI HQ HD HN. unfold search_and_save.
  apply adds_bind; [by apply adds_search | intros [nb ds]].
  apply adds_bind; [by apply adds_log | intros _].
  apply adds_bind; [apply adds_lift | intros [dso nbo]].
  by apply adds_save_output.
Qed.

Lemma adds_main (P : ev → Prop) p :
  adds P (load_and_check R Tree Load p) →
  (∀ msg, P (Logged Info msg)) →
  P (Logged Fatal [Str "Query file "; Str (query_file p);
                   Str " not found"; Endl]) →
  (∀ s, P (TimerStart s)) → (∀ s, P (TimerStop s)) →
  (∀ d, P (TreeBuilt d (leaf_size p))) →
  (∀ d q t u, P (EngineBuilt
                   (mkAllkNN d q (naive_flag p) (single_mode p) 20 t u))) →
  (∀ a k, P (Searched a k)) →
  (∀ f d, P (SavedDistances f d)) → (∀ f d, P (SavedNeighbors f d)) →
  adds P (main R Tree Load BinarySpaceTree Search p).
Proof.
  intros HC HI HF HS HT HB HE HQ HD HN. unfold main.
  apply adds_bind; [done | intros m].
  apply adds_bind; [by apply adds_build_trees | intros l].
  by apply adds_search_and_save.
Qed.

(** The trees and the engine, as lines 101 to 153 leave them. *)
Abbreviation building_line :=
  (Logged Info [Str "Building reference tree..."; Endl]).

Lemma build_trees_self_search p m t :
  query_file p = "" →
  let '(refTree, m', perm) := BinarySpaceTree m (leaf_size p) in
  let a := mkAllkNN m' None (naive_flag p) (single_mode p) 20 refTree None in
  build_trees R Tree Load BinarySpaceTree p m t =
    (Done (mkLocals m' perm [] a),
     t ++ [building_line] ++ [TimerStart "tree_building"]
       ++ [TreeBuilt m (leaf_size p)] ++ [TimerStop "tree_building"]
       ++ [EngineBuilt a] ++ [Logged Info [Str "Trees built."; Endl]]).
Proof.
  intros Hq. unfold build_trees, build_tree. rewrite Hq. simpl.
  unfold mbind, M_mbind, M_bind. simpl.
  destruct (BinarySpaceTree m (leaf_size p)) as [[refTree m'] perm]. simpl.
  by rewrite <- !app_assoc.
Qed.

Lemma build_trees_query_not_found p m t :
  query_file p ≠ "" → Load (query_file p) = None →
  ∃ e,
    build_trees R Tree Load BinarySpaceTree p m t =
      (Exited,
       t ++ [building_line] ++ [TimerStart "tree_building"]
         ++ [TreeBuilt m (leaf_size p)] ++ [TimerStop "tree_building"] ++ [e])
    ∧ e = Logged Fatal [Str "Query file "; Str (query_file p);
                        Str " not found"; Endl].
Proof.
  intros Hq HL. unfold build_trees, build_tree, data_Load.
  apply String.eqb_neq in Hq. rewrite Hq, HL. simpl.
  unfold mbind, M_mbind, M_bind. simpl.
  destruct (BinarySpaceTree m (leaf_size p)) as [[refTree m'] perm]. simpl.
  eexists. split; [| reflexivity]. by rewrite <- !app_assoc.
Qed.

Lemma build_trees_with_query p m qd t :
  query_file p ≠ "" → Load (query_file p) = Some qd →
  let '(refTree, m', perm) := BinarySpaceTree m (leaf_size p) in
  let '(qTree, qd', qperm) := BinarySpaceTree qd (leaf_size p) in
  let a := mkAllkNN m' (Some qd') (naive_flag p) (single_mode p) 20
             refTree (Some qTree) in
  build_trees R Tree Load BinarySpaceTree p m t =
    (Done (mkLocals m' qperm [] a),
     t ++ [building_line] ++ [TimerStart "tree_building"]
       ++ [TreeBuilt m (leaf_size p)] ++ [TimerStop "tree_building"]
       ++ [Logged Info [Str "Query data loaded from "; Str (query_file p); Endl]]
       ++ [Logged Info [Str "Building query tree..."; Endl]]
       ++ [TimerStart "tree_building"]
       ++ [TreeBuilt qd (leaf_size p)] ++ [TimerStop "tree_building"]
       ++ [EngineBuilt a] ++ [Logged Info [Str "Tree built."; Endl]]).
Proof.
  intros Hq HL. unfold build_trees, build_tree, data_Load.
  apply String.eqb_neq in Hq. rewrite Hq, HL. simpl.
  unfold mbind, M_mbind, M_bind. simpl.
  destruct (BinarySpaceTree m (leaf_size p)) as [[refTree m'] perm]. simpl.
  destruct (BinarySpaceTree qd (leaf_size p)) as [[qTree qd'] qperm]. simpl.
  by rewrite <- !app_assoc.
Qed.

(** Whatever happens after the checks, the reference tree is built from
    the loaded matrix with the leaf size of the command line. *)
Lemma build_trees_builds p m t :
  ∃ o ext,
    build_trees R Tree Load BinarySpaceTree p m t =
      (o, t ++ [building_line] ++ [TimerStart "tree_building"]
            ++ [TreeBuilt m (leaf_size p)] ++ ext).
Proof.
  destruct (decide (query_file p = "")) as [Hq | Hq].
  - pose proof (build_trees_self_search p m t Hq) as H.
    destruct (BinarySpaceTree m (leaf_size p)) as [[refTree m'] perm].
    rewrite H. by eexists _, _.
  - destruct (Load (query_file p)) as [qd |] eqn:HL.
    + pose proof (build_trees_with_query p m qd t Hq HL) as H.
      destruct (BinarySpaceTree m (leaf_size p)) as [[refTree m'] perm].
      destruct (BinarySpaceTree qd (leaf_size p)) as [[qTree qd'] qperm].
      rewrite H. by eexists _, _.
    + destruct (build_trees_query_not_found p m t Hq HL) as (e & -> & _).
      by eexists _, _.
Qed.

Lemma run_builds_reference_tree p m :
  Load (reference_file p) = Some m →
  k_rejected p m = false → 0 <= leaf_size p →
  TreeBuilt m (leaf_size p) ∈ (run' p).2.
Proof.
  intros HL Hk Hleaf. unfold run, main.
  rewrite (bind_done _ _ _ _ _ (load_and_check_passes p m [] HL Hk Hleaf)).
  match goal with |- _ ∈ ((_ ≫= _) ?t).2 => set (t1 := t) end.
  destruct (build_trees_builds p m t1) as (o & ext & HB).
  assert (∀ l, adds (λ _, True) (search_and_save R Tree Search p l)) as Hrest
    by (intros l; by apply adds_search_and_save).
  destruct o as [l | | e].
  - rewrite (bind_done _ _ _ _ _ HB).
    destruct (Hrest l (t1 ++ [building_line] ++ [TimerStart "tree_building"]
                          ++ [TreeBuilt m (leaf_size p)] ++ ext))
      as (ext' & -> & _).
    in_trace.
  - rewrite (bind_exited _ _ _ _ HB). in_trace.
  - rewrite (bind_faulted _ _ _ _ _ HB). in_trace.
Qed.

Abbreviation quiet := (λ e : ev, computes e = false ∧ writes e = false).

(** C6.  The check on k: with the reference set loaded and n its number of
    points, every k below 1 or above n - 1 ends the run on the fatal report
    on k, before anything is computed or written; for every k from 1 to
    n - 1 the report on k is never made, and the run goes on to the leaf
    size and, when that is valid, to the construction of the reference
    tree. *)
Theorem k_outside_range_is_fatal p m :
  Load (reference_file p) = Some m →
  is_int (k_param p) → fits m →
  let n := Z.of_nat (n_cols m) in
  ((k_param p < 1 ∨ k_param p > n - 1) →
     (run' p).1 = Exited
     ∧ Exists (λ e, reports_invalid_k e = true) (run' p).2
     ∧ Forall quiet (run' p).2)
  ∧ (1 <= k_param p <= n - 1 →
     Forall (λ e, reports_invalid_k e = false) (run' p).2
     ∧ (0 <= leaf_size p → TreeBuilt m (leaf_size p) ∈ (run' p).2)).
Proof.
  intros HL Hint Hfit n.
  pose proof (k_condition (k_param p) (n_cols m) Hint Hfit) as Hcond.
  split.
  - intros Hk. apply Hcond in Hk. unfold run, main.
    rewrite (bind_exited _ _ _ _ (load_and_check_invalid_k p m [] HL Hk)).
    simpl. split; [done |]. split.
    + apply Exists_cons_tl, Exists_cons_hd. reflexivity.
    + repeat constructor.
  - intros Hk.
    assert (k_rejected p m = false) as Hpass.
    { apply not_true_is_false. rewrite Hcond. fold n. lia. }
    split.
    + apply adds_run, adds_main; try done.
      apply adds_load_and_check; try done.
      unfold data_Load. rewrite HL. simpl. congruence.
    + intros Hleaf. by apply run_builds_reference_tree.
Qed.

(** C7.  The check on the leaf size: every negative leaf size ends the run
    on a fatal report with no tree constructed, and that report is the one
    on the leaf size whenever the reference set loads and k is valid; for
    every leaf size from 0 up the report on the leaf size is never made, and
    the reference tree is built with that leaf size whenever the reference
    set loads and k is valid. *)
Theorem negative_leaf_size_is_fatal p :
  (leaf_size p < 0 →
     (run' p).1 = Exited
     ∧ Forall (λ e, computes e = false) (run' p).2
     ∧ (∀ m, Load (reference_file p) = Some m → k_rejected p m = false →
          Exists (λ e, reports_invalid_leaf_size e = true) (run' p).2))
  ∧ (0 <= leaf_size p →
     Forall (λ e, reports_invalid_leaf_size e = false) (run' p).2
     ∧ (∀ m, Load (reference_file p) = Some m → k_rejected p m = false →
          TreeBuilt m (leaf_size p) ∈ (run' p).2)).
Proof.
  split.
  - intros Hleaf. unfold run, main.
    destruct (Load (reference_file p)) as [m |] eqn:HL.
    + destruct (k_rejected p m) eqn:Hk.
      * rewrite (bind_exited _ _ _ _ (load_and_check_invalid_k p m [] HL Hk)).
        simpl. split; [done |]. split; [by repeat constructor |].
        intros m' [= <-]. congruence.
      * rewrite (bind_exited _ _ _ _
                   (load_and_check_invalid_leaf_size p m [] HL Hk Hleaf)).
        simpl. split; [done |]. split; [by repeat constructor |].
        intros _ _ _. apply Exists_cons_tl, Exists_cons_hd. reflexivity.
    + destruct (load_and_check_not_found p [] HL) as (e & He & Hc & _).
      rewrite (bind_exited _ _ _ _ He). simpl.
      split; [done |]. split; [by repeat constructor | done].
  - intros Hleaf. split.
    + apply adds_run, adds_main; try done.
      apply adds_load_and_check; try done. lia.
    + intros m HL Hk. by apply run_builds_reference_tree.
Qed.

(** C8.  A configuration error stops the run before any computation and
    any output: when k is outside 1 .. n - 1 or the leaf size is negative,
    the run exits and its trace holds no tree construction, no engine, no
    search and no saved file; and whenever a trace holds the report on k or
    on the leaf size, the run has exited with such a trace. *)
Theorem configuration_error_halts_first p :
  (∀ m, Load (reference_file p) = Some m →
     is_int (k_param p) → fits m →
     k_param p < 1 ∨ k_param p > Z.of_nat (n_cols m) - 1 ∨ leaf_size p < 0 →
     (run' p).1 = Exited ∧ Forall quiet (run' p).2)
  ∧ (Exists (λ e, reports_invalid_k e = true
                  ∨ reports_invalid_leaf_size e = true) (run' p).2 →
     (run' p).1 = Exited ∧ Forall quiet (run' p).2).
Proof.
  assert (∀ m, Load (reference_file p) = Some m →
            k_rejected p m = true ∨ leaf_size p < 0 →
            (run' p).1 = Exited ∧ Forall quiet (run' p).2) as Hhalt.
  { intros m HL Hbad. unfold run, main.
    destruct (k_rejected p m) eqn:Hk.
    - rewrite (bind_exited _ _ _ _ (load_and_check_invalid_k p m [] HL Hk)).
      simpl. split; [done | repeat constructor].
    - destruct Hbad as [? | Hleaf]; [done |].
      rewrite (bind_exited _ _ _ _
                 (load_and_check_invalid_leaf_size p m [] HL Hk Hleaf)).
      simpl. split; [done | repeat constructor]. }
  split.
  - intros m HL Hint Hfit Hbad. apply (Hhalt m HL).
    rewrite (k_condition _ _ Hint Hfit). tauto.
  - intros Hrep.
    destruct (Load (reference_file p)) as [m |] eqn:HL.
    + destruct (k_rejected p m) eqn:Hk; [apply (Hhalt m); [done | by left] |].
      destruct (Z.ltb_spec (leaf_size p) 0) as [Hleaf | Hleaf];
        [apply (Hhalt m); [done | by right] |].
      exfalso. apply Exists_exists in Hrep as (e & He & Hrep).
      assert (Forall (λ e, reports_invalid_k e = false
                           ∧ reports_invalid_leaf_size e = false) (run' p).2)
        as Hnone.
      { apply adds_run, adds_main; try done.
        apply adds_load_and_check; try done.
        - unfold data_Load. rewrite HL. simpl. congruence.
        - lia. }
      rewrite Forall_forall in Hnone. apply Hnone in He as [? ?].
      destruct Hrep; congruence.
    + unfold run, main.
      destruct (load_and_check_not_found p [] HL) as (e & He & Hc & Hw).
      rewrite (bind_exited _ _ _ _ He). simpl.
      split; [done | by repeat constructor].
Qed.

(** C10.  In every run the engine is constructed with the leaf size 20,
    whatever --leaf_size is; the leaf size of the command line goes to the
    trees built by hand and nowhere else.  A self-search run that passes
    the checks does construct both. *)
Theorem engine_leaf_size_is_fixed p :
  Forall (leaf_sizes_as_coded p) (run' p).2
  ∧ (∀ m, Load (reference_file p) = Some m → k_rejected p m = false →
       0 <= leaf_size p → query_file p = "" →
       TreeBuilt m (leaf_size p) ∈ (run' p).2
       ∧ ∃ a, EngineBuilt a ∈ (run' p).2 ∧ leafSize a = 20).
Proof.
  split.
  - apply adds_run, adds_main; try done.
    apply adds_load_and_check; done.
  - intros m HL Hk Hleaf Hq.
    split; [by apply run_builds_reference_tree |].
    unfold run, main.
    rewrite (bind_done _ _ _ _ _ (load_and_check_passes p m [] HL Hk Hleaf)).
    match goal with |- ∃ a, _ ∈ ((_ ≫= _) ?t).2 ∧ _ => set (t1 := t) end.
    pose proof (build_trees_self_search p m t1 Hq) as HB.
    destruct (BinarySpaceTree m (leaf_size p)) as [[refTree m'] perm].
    cbv zeta in HB. rewrite (bind_done _ _ _ _ _ HB).
    exists (mkAllkNN m' None (naive_flag p) (single_mode p) 20 refTree None).
    split; [| reflexivity].
    match goal with |- _ ∈ (search_and_save _ _ _ _ ?l ?t0).2 =>
      assert (adds (λ _, True) (search_and_save R Tree Search p l)) as Hrest
        by (by apply adds_search_and_save);
      destruct (Hrest t0) as (ext & -> & _)
    end.
    in_trace.
Qed.

End ProgramFacts.

(** ** The candidate set *)

Section CoreFacts.
Context {R Bound : Type} `{GeometryLaws R Bound}.

Implicit Types (cs : list (R * nat)) (c : R * nat) (q : list R).

Lemma below_leq (d w : R) : leq w d = false → leq d w = true.
Proof. intros Hw. destruct (leq_total d w); congruence. Qed.

Lemma place_Permutation c cs : place c cs ≡ₚ c :: cs.
Proof.
  induction cs as [| c' cs IH]; simpl; [done |].
  destruct (leq c'.1 c.1); [| done].
  rewrite IH. apply Permutation_swap.
Qed.

Lemma place_ascending c cs : ascending cs → ascending (place c cs).
Proof.
  unfold ascending. induction cs as [| c' cs IH]; simpl; intros Hs.
  - repeat constructor.
  - apply StronglySorted_cons in Hs as [Hall Hs].
    destruct (leq c'.1 c.1) eqn:Hle.
    + apply StronglySorted_cons. split; [| by apply IH].
      rewrite place_Permutation. by constructor.
    + apply StronglySorted_cons. split; [| by apply StronglySorted_cons].
      apply below_leq in Hle. constructor; [done |].
      eapply Forall_impl; [exact Hall |]. simpl. intros x Hx.
      by eapply leq_trans.
Qed.

Lemma place_snoc c cs w :
  leq w.1 c.1 = false → place c (cs ++ [w]) = place c cs ++ [w].
Proof.
  intros Hw. induction cs as [| c' cs IH]; simpl.
  - by rewrite Hw.
  - rewrite IH. by destruct (leq c'.1 c.1).
Qed.

Lemma CurrentWorst_Some k cs w :
  (length cs ≤ k)%nat → CurrentWorst k cs = Some w →
  length cs = k ∧ ∃ cs' i, cs = cs' ++ [(w, i)].
Proof.
  unfold CurrentWorst. intros Hlen.
  destruct (Nat.ltb_spec (length cs) k); [done |].
  intros Hlast. split; [lia |].
  apply last_Some in Hlast as [l' Hl'].
  destruct cs as [| c cs _] using rev_ind.
  - by destruct l'.
  - rewrite fmap_app in Hl'. simpl in Hl'.
    apply app_inj_tail in Hl' as [_ Hw]. destruct c as [d i]. simpl in Hw.
    subst. by eexists _, _.
Qed.

Lemma ascending_snoc_max cs w c :
  ascending (cs ++ [w]) → c ∈ cs ++ [w] → leq c.1 w.1 = true.
Proof.
  intros Hs Hc. apply elem_of_app in Hc as [Hc | Hc].
  - eapply (StronglySorted_app_1_elem_of _ _ _ _ _ Hs); [done |].
    by apply list_elem_of_singleton.
  - apply list_elem_of_singleton in Hc as ->. apply leq_refl.
Qed.

(** The entries of a full candidate set are at most its current worst. *)
Lemma CurrentWorst_max k cs w c :
  ascending cs → (length cs ≤ k)%nat → CurrentWorst k cs = Some w →
  c ∈ cs → leq c.1 w = true.
Proof.
  intros Hs Hlen Hw Hc.
  apply CurrentWorst_Some in Hw as (_ & cs' & i & ->); [| done].
  by apply (ascending_snoc_max _ _ _ Hs Hc).
Qed.

Lemma accounts_proper k refs q (P P' : nat → Prop) cs :
  (∀ i, P i ↔ P' i) → accounts k refs q P cs → accounts k refs q P' cs.
Proof.
  intros HP (Hs & Hnd & Hlen & Hin & Hout).
  split; [done |]. split; [done |]. split; [done |]. split.
  - intros d i Hdi. destruct (Hin d i Hdi) as [? ?]. split; [by apply HP | done].
  - intros i r Hi. apply Hout. by apply HP.
Qed.

Lemma accounts_nil k refs q : accounts k refs q (λ _, False) [].
Proof.
  split; [constructor |]. split; [constructor |]. split; [simpl; lia |].
  split; [intros d i Hdi; by apply elem_of_nil in Hdi | done].
Qed.

Lemma accounts_fresh k refs q P cs i :
  accounts k refs q P cs → ¬ P i → i ∉ cs.*2.
Proof.
  intros (_ & _ & _ & Hin & _) HnP Hi.
  apply list_elem_of_fmap in Hi as ([d j] & -> & Hc).
  destruct (Hin d j Hc) as [HP _]. done.
Qed.

(** Inserting a reference point not yet accounted for accounts for it. *)
Lemma Insert_accounts k refs q P cs i r :
  accounts k refs q P cs → ¬ P i → refs !! i = Some r →
  accounts k refs q (λ j, P j ∨ j = i) (Insert k (Evaluate q r) i cs).
Proof.
  intros Hacc HnP Hr.
  pose proof (accounts_fresh _ _ _ _ _ _ Hacc HnP) as Hfresh.
  destruct Hacc as (Hs & Hnd & Hlen & Hin & Hout).
  set (d := Evaluate q r). unfold Insert.
  destruct (Nat.ltb_spec (length cs) k) as [Hroom | Hfull].
  - (* fewer than k entries: insert unconditionally *)
    pose proof (place_Permutation (d, i) cs) as Hperm.
    split; [by apply place_ascending |].
    split; [rewrite Hperm; simpl; by constructor |].
    split; [rewrite Hperm; simpl; lia |].
    split.
    + intros d' j. rewrite Hperm, elem_of_cons. intros [[= -> ->] | Hc].
      * split; [by right | by exists r].
      * destruct (Hin d' j Hc) as [? ?]. split; [by left | done].
    + intros j rj Hj Hrj. rewrite Hperm. simpl. rewrite elem_of_cons.
      intros Hout'. destruct Hj as [Hj | ->]; [| tauto].
      destruct (Hout j rj Hj Hrj) as [Hk _]; [tauto | lia].
  - destruct (CurrentWorst k cs) as [w |] eqn:HW; simpl.
    + destruct (CurrentWorst_Some _ _ _ Hlen HW) as (Hk & cs0 & iw & ->).
      destruct (leq w d) eqn:Hwd; simpl.
      * (* not better than the current worst: unchanged *)
        split; [done |]. split; [done |]. split; [done |]. split.
        -- intros d' j Hc. destruct (Hin d' j Hc) as [? ?].
           split; [by left | done].
        -- intros j rj [Hj | ->] Hrj Hnot; [exact (Hout j rj Hj Hrj Hnot) |].
           split; [done |]. intros c Hc.
           assert (rj = r) as -> by congruence.
           eapply leq_trans; [| exact Hwd].
           apply (ascending_snoc_max _ _ _ Hs Hc).
      * (* better: insert, evicting the previous worst *)
        rewrite place_snoc by done. rewrite removelast_last.
        pose proof (place_Permutation (d, i) cs0) as Hperm.
        apply StronglySorted_app in Hs as (Hlast & Hs0 & _).
        rewrite fmap_app in Hnd, Hfresh. simpl in Hnd, Hfresh.
        apply NoDup_app in Hnd as (Hnd0 & Hnw & _).
        rewrite length_app in Hk. simpl in Hk.
        assert (∀ c, c ∈ place (d, i) cs0 → leq c.1 w = true) as Hmax.
        { intros c. rewrite Hperm, elem_of_cons. intros [-> | Hc].
          - by apply below_leq.
          - apply (Hlast c (w, iw) Hc). by apply list_elem_of_singleton. }
        split; [by apply place_ascending |].
        split.
        { rewrite Hperm. simpl. constructor; [| done].
          intros Hi. apply Hfresh, elem_of_app. by left. }
        split; [rewrite Hperm; simpl; lia |].
        split.
        -- intros d' j. rewrite Hperm, elem_of_cons. intros [[= -> ->] | Hc].
           ++ split; [by right | by exists r].
           ++ destruct (Hin d' j) as [? ?]; [apply elem_of_app; by left |].
              split; [by left | done].
        -- intros j rj Hj Hrj. rewrite Hperm. simpl. rewrite elem_of_cons.
           intros Hnot. split; [lia |].
           destruct Hj as [Hj | ->]; [| tauto].
           intros c Hc. eapply leq_trans; [by apply Hmax |].
           destruct (decide (j = iw)) as [-> | Hne].
           ++ destruct (Hin w iw) as (_ & r' & Hr' & ->).
              { apply elem_of_app. right. by apply list_elem_of_singleton. }
              assert (rj = r') as -> by congruence. apply leq_refl.
           ++ destruct (Hout j rj Hj Hrj) as [_ Hle].
              { rewrite fmap_app, elem_of_app. simpl.
                rewrite list_elem_of_singleton. tauto. }
              apply (Hle (w, iw)). apply elem_of_app. right.
              by apply list_elem_of_singleton.
    + (* a full set with no worst entry: k = 0 *)
      unfold CurrentWorst in HW.
      destruct (Nat.ltb_spec (length cs) k); [lia |].
      apply last_None, fmap_nil_inv in HW. subst cs. simpl in *.
      assert (k = 0%nat) as -> by lia.
      split; [constructor |]. split; [constructor |]. split; [simpl; lia |].
      split; [intros d' j Hc; by apply elem_of_nil in Hc |].
      intros j rj _ _ _. split; [done |].
      intros c Hc. by apply elem_of_nil in Hc.
Qed.

(** ** Brute force and naive mode *)

Lemma BaseCase_accounts k refs q P b n cs :
  accounts k refs q P cs →
  (∀ i, (b ≤ i < b + n)%nat → ¬ P i ∧ (i < length refs)%nat) →
  accounts k refs q (λ i, P i ∨ (b ≤ i < b + n)%nat) (BaseCase k refs q b n cs).
Proof.
  revert b P cs. induction n as [| n IH]; intros b P cs Hacc Hnew.
  - eapply accounts_proper; [| exact Hacc]. intros i. intuition lia.
  - unfold BaseCase. simpl.
    destruct (lookup_lt_is_Some_2 refs b) as [r Hr]; [apply Hnew; lia |].
    rewrite Hr.
    eapply accounts_proper; [| apply IH].
    + intros i. instantiate (1 := λ j, P j ∨ j = b). simpl. intuition lia.
    + apply Insert_accounts; [done | apply Hnew; lia | done].
    + intros i Hi. split; [| apply Hnew; lia].
      intros [HP | ->]; [| lia]. apply (Hnew i); [lia | done].
Qed.

(** A candidate set that accounts for every reference point is an exact
    answer. *)
Lemma accounts_all_exact k refs q cs :
  (k ≤ length refs)%nat →
  accounts k refs q (λ i, (i < length refs)%nat) cs →
  exact_knn k refs q cs.
Proof.
  intros Hk (Hs & Hnd & Hlen & Hin & Hout).
  assert (length cs = k) as Hfull.
  { destruct (decide (Forall (λ i, i ∈ cs.*2) (seq 0 (length refs))))
      as [Hall | Hsome].
    - assert (seq 0 (length refs) ⊆+ cs.*2) as Hsub.
      { apply NoDup_submseteq; [apply NoDup_seq |].
        by apply Forall_forall. }
      apply submseteq_length in Hsub.
      rewrite length_seq, length_fmap in Hsub. lia.
    - apply not_Forall_Exists in Hsome; [| solve_decision].
      apply Exists_exists in Hsome as (i & Hi & Hnot).
      apply elem_of_seq in Hi.
      destruct (lookup_lt_is_Some_2 refs i) as [r Hr]; [lia |].
      destruct (Hout i r) as [? _]; [lia | done | done | done]. }
  split; [done |]. split; [done |]. split; [done |]. split.
  - intros d i Hc. by destruct (Hin d i Hc) as [_ ?].
  - intros i r Hr Hnot. destruct (Hout i r) as [_ ?]; [| done | done | done].
    by eapply lookup_lt_Some.
Qed.

Lemma Finalize_full k cs : length cs = k → Finalize k cs = cs.
Proof.
  intros <-. unfold Finalize. rewrite Nat.sub_diag. simpl.
  rewrite app_nil_r. by rewrite firstn_all.
Qed.

Lemma NaiveSearch_exact k refs queries qi q :
  (k ≤ length refs)%nat → queries !! qi = Some q →
  ∃ res, NaiveSearch k refs queries !! qi = Some res ∧ exact_knn k refs q res.
Proof.
  intros Hk Hq. unfold NaiveSearch. rewrite list_lookup_fmap, Hq. simpl.
  eexists. split; [reflexivity |].
  apply accounts_all_exact; [done |].
  eapply accounts_proper; [| apply BaseCase_accounts].
  - intros i. instantiate (1 := λ _, False). simpl. intuition lia.
  - apply accounts_nil.
  - intros i Hi. split; [tauto | lia].
Qed.

(** ** Trees *)

Lemma well_formed_contains pts (t : Node Bound) i :
  well_formed pts t = true → in_node t i →
  ∃ p, pts !! i = Some p ∧ Contains (Bound_of t) p = true.
Proof.
  intros Hwf Hi.
  assert (forallb (λ i, match pts !! i with
                        | Some p => Contains (Bound_of t) p
                        | None => false
                        end) (seq (Begin t) (Count t)) = true) as Hall.
  { destruct t; simpl in Hwf; by apply andb_true_iff in Hwf as [? _]. }
  rewrite forallb_forall in Hall.
  specialize (Hall i). rewrite <- list_elem_of_In, elem_of_seq in Hall.
  specialize (Hall Hi). destruct (pts !! i) as [p |]; [| done].
  by exists p.
Qed.

Lemma well_formed_in_range pts (t : Node Bound) i :
  well_formed pts t = true → in_node t i → (i < length pts)%nat.
Proof.
  intros Hwf Hi. destruct (well_formed_contains _ _ _ Hwf Hi) as (p & Hp & _).
  by eapply lookup_lt_Some.
Qed.

Lemma well_formed_Inner pts (b : Bound) l r :
  well_formed pts (Inner b l r) = true →
  Begin r = (Begin l + Count l)%nat
  ∧ well_formed pts l = true ∧ well_formed pts r = true.
Proof.
  simpl. rewrite !andb_true_iff, Nat.eqb_eq. tauto.
Qed.

Lemma in_node_Inner (b : Bound) l r i :
  Begin r = (Begin l + Count l)%nat →
  in_node (Inner b l r) i ↔ in_node l i ∨ in_node r i.
Proof. unfold in_node. simpl. lia. Qed.

Lemma in_node_disjoint (l r : Node Bound) i :
  Begin r = (Begin l + Count l)%nat → in_node l i → in_node r i → False.
Proof. unfold in_node. lia. Qed.

(** ** Single-tree mode *)

(** Points that cannot beat the current worst of a full candidate set are
    accounted for without being looked at. *)
Lemma accounts_skip k refs q (P Q : nat → Prop) cs w :
  accounts k refs q P cs →
  CurrentWorst k cs = Some w →
  (∀ i r, Q i → refs !! i = Some r → leq w (Evaluate q r) = true) →
  accounts k refs q (λ i, P i ∨ Q i) cs.
Proof.
  intros (Hs & Hnd & Hlen & Hin & Hout) HW HQ.
  split; [done |]. split; [done |]. split; [done |]. split.
  - intros d i Hc. destruct (Hin d i Hc) as [? ?]. split; [by left | done].
  - intros i r [HP | Hq] Hr Hnot; [exact (Hout i r HP Hr Hnot) |].
    split; [by apply (CurrentWorst_Some _ _ _ Hlen HW) |].
    intros c Hc. eapply leq_trans; [| by eapply HQ].
    by eapply CurrentWorst_max.
Qed.

Lemma SingleTree_accounts k refs q (t : Node Bound) P cs :
  well_formed refs t = true →
  accounts k refs q P cs →
  (∀ i, in_node t i → ¬ P i) →
  accounts k refs q (λ i, P i ∨ in_node t i) (SingleTree k refs q t cs).
Proof.
  revert P cs. induction t as [b rb rc | b l IHl r IHr]; intros P cs Hwf Hacc Hnew.
  - simpl. apply BaseCase_accounts; [done |].
    intros i Hi. split; [by apply Hnew |].
    by apply (well_formed_in_range _ _ _ Hwf).
  - simpl.
    destruct (well_formed_Inner _ _ _ _ Hwf) as (Hbr & Hwl & Hwr).
    pose proof (in_node_Inner b l r) as Hsplit.
    destruct (at_least _ _) eqn:Hprune.
    + (* pruned *)
      destruct (CurrentWorst k cs) as [w |] eqn:HW; [| done]. simpl in Hprune.
      eapply accounts_skip; [done | done |].
      intros i ri Hi Hri.
      destruct (well_formed_contains _ _ _ Hwf Hi) as (p & Hp & Hc).
      assert (p = ri) as -> by congruence.
      eapply leq_trans; [exact Hprune |]. by apply MinDistance_lower.
    + destruct (leq _ _).
      * eapply accounts_proper; [| apply IHr; [done | apply IHl; [done | done |] |]].
        -- intros i. simpl. rewrite Hsplit by done. tauto.
        -- intros i Hi. apply Hnew, Hsplit; tauto.
        -- intros i Hi [HP | Hl].
           ++ apply (Hnew i); [apply Hsplit; tauto | done].
           ++ by eapply in_node_disjoint.
      * eapply accounts_proper; [| apply IHl; [done | apply IHr; [done | done |] |]].
        -- intros i. simpl. rewrite Hsplit by done. tauto.
        -- intros i Hi. apply Hnew, Hsplit; tauto.
        -- intros i Hi [HP | Hr].
           ++ apply (Hnew i); [apply Hsplit; tauto | done].
           ++ by eapply in_node_disjoint.
Qed.

Lemma covers_in_node (t : Node Bound) n i :
  covers t n = true → in_node t i ↔ (i < n)%nat.
Proof.
  unfold covers, in_node. rewrite andb_true_iff, !Nat.eqb_eq. lia.
Qed.

Lemma SingleTreeSearch_exact k refs queries (t : Node Bound) qi q :
  (k ≤ length refs)%nat →
  well_formed refs t = true → covers t (length refs) = true →
  queries !! qi = Some q →
  ∃ res, SingleTreeSearch k refs queries t !! qi = Some res
         ∧ exact_knn k refs q res.
Proof.
  intros Hk Hwf Hcov Hq. unfold SingleTreeSearch.
  rewrite list_lookup_fmap, Hq. simpl.
  eexists. split; [reflexivity |].
  apply accounts_all_exact; [done |].
  eapply accounts_proper; [| apply SingleTree_accounts].
  - intros i. instantiate (1 := λ _, False). simpl.
    rewrite (covers_in_node _ _ _ Hcov). tauto.
  - done.
  - apply accounts_nil.
  - tauto.
Qed.

(** ** Dual-tree mode *)

Lemma node_at_snoc (t : Node Bound) path b (bd : Bound) l r :
  node_at t path = Some (Inner bd l r) →
  node_at t (path ++ [b]) = Some (if b then r else l).
Proof.
  revert t. induction path as [| a path IH]; intros t; simpl.
  - by intros [= ->].
  - destruct t; [done |]. apply IH.
Qed.

Lemma set_statistic_lookup path path' (w : option R) stats :
  set_statistic path w stats !! path' =
    if decide (path = path') then w else stats !! path'.
Proof.
  unfold set_statistic. destruct w.
  - by rewrite lookup_insert.
  - by rewrite lookup_delete.
Qed.

Lemma at_least_weaken (x y : R) w :
  leq x y = true → at_least x w = true → at_least y w = true.
Proof. destruct w; simpl; [| done]. intros. by eapply leq_trans. Qed.

Lemma max_ext_Some (a b : option R) x :
  max_ext a b = Some x →
  ∃ xa xb, a = Some xa ∧ b = Some xb ∧ leq xa x = true ∧ leq xb x = true.
Proof.
  destruct a as [xa |], b as [xb |]; simpl; try done.
  intros [= <-]. exists xa, xb. split; [done |]. split; [done |].
  destruct (leq xa xb) eqn:Hab.
  - split; [done | apply leq_refl].
  - split; [apply leq_refl | by apply below_leq].
Qed.

Lemma worst_over_bound k cands b n x qi :
  worst_over k cands b n = Some x → (b ≤ qi < b + n)%nat →
  at_least x (worst_of k cands qi) = true.
Proof.
  unfold worst_over. destruct n as [| n]; [done |].
  assert (∀ m w0 x b',
            foldl (λ w qi, max_ext w (worst_of k cands qi)) w0 (seq b' m)
              = Some x →
            at_least x w0 = true
            ∧ ∀ j, (b' ≤ j < b' + m)%nat →
                at_least x (worst_of k cands j) = true) as Hfold.
  { clear b n x qi. induction m as [| m IH]; intros w0 y b'; simpl.
    - intros ->. simpl. split; [apply leq_refl | lia].
    - intros Hy. apply IH in Hy as [Hw Hrest].
      destruct (max_ext w0 (worst_of k cands b')) as [z |] eqn:Hz; [| done].
      apply max_ext_Some in Hz as (xa & xb & -> & Hb & Ha & Hb').
      simpl in Hw. split; [simpl; by eapply leq_trans |].
      intros j Hj. destruct (decide (j = b')) as [-> | Hne].
      + rewrite Hb. simpl. by eapply leq_trans.
      + apply Hrest. lia. }
  intros Hx Hqi. apply Hfold in Hx as [Hfirst Hrest].
  destruct (decide (qi = b)) as [-> | Hne]; [done |]. apply Hrest. lia.
Qed.

Lemma improves_refl k cands : improves k cands cands.
Proof. by intros qi x. Qed.

Lemma improves_trans k (x1 x2 x3 : list (list (R * nat))) :
  improves k x1 x2 → improves k x2 x3 → improves k x1 x3.
Proof. intros H12 H23 qi x Hx. by apply H23, H12. Qed.

Lemma all_account_proper k refs queries (A A' : nat → nat → Prop) cands :
  (∀ qi i, A qi i ↔ A' qi i) →
  all_account k refs queries A cands → all_account k refs queries A' cands.
Proof.
  intros HA [Hlen Hall]. split; [done |].
  intros qi q Hq. destruct (Hall qi q Hq) as (cs & Hcs & Hacc).
  exists cs. split; [done |]. eapply accounts_proper; [| exact Hacc].
  intros i. apply HA.
Qed.

(** An insertion never raises the current worst distance. *)
Lemma Insert_improves k cs d i x :
  ascending cs → (length cs ≤ k)%nat →
  at_least x (CurrentWorst k cs) = true →
  at_least x (CurrentWorst k (Insert k d i cs)) = true.
Proof.
  intros Hs Hlen Hx.
  destruct (CurrentWorst k cs) as [w |] eqn:HW; [| done]. simpl in Hx.
  destruct (CurrentWorst_Some _ _ _ Hlen HW) as (Hk & cs0 & iw & ->).
  unfold Insert. rewrite HW.
  destruct (Nat.ltb_spec (length (cs0 ++ [(w, iw)])) k); [lia |]. simpl.
  destruct (leq w d) eqn:Hwd; simpl.
  - by rewrite HW.
  - rewrite place_snoc by done. rewrite removelast_last.
    pose proof (place_Permutation (d, i) cs0) as Hperm.
    rewrite length_app in Hk. simpl in Hk.
    unfold CurrentWorst. rewrite Hperm. simpl.
    destruct (Nat.ltb_spec (S (length cs0)) k); [lia |].
    rewrite fmap_last.
    destruct (last (place (d, i) cs0)) as [c' |] eqn:Hlast.
    + simpl. eapply leq_trans; [| exact Hx].
      apply last_Some_elem_of in Hlast.
      rewrite Hperm, elem_of_cons in Hlast. destruct Hlast as [-> | Hc].
      * by apply below_leq.
      * apply StronglySorted_app in Hs as (Hmax & _ & _).
        apply (Hmax c' (w, iw) Hc). by apply list_elem_of_singleton.
    + apply last_None in Hlast.
      apply (f_equal length) in Hlast. rewrite Hperm in Hlast. done.
Qed.

Lemma accounts_ascending k refs q P cs :
  accounts k refs q P cs → ascending cs ∧ (length cs ≤ k)%nat.
Proof. intros (? & _ & ? & _). done. Qed.

Lemma BaseCase_improves k refs q P b n cs x :
  accounts k refs q P cs →
  (∀ i, (b ≤ i < b + n)%nat → ¬ P i ∧ (i < length refs)%nat) →
  at_least x (CurrentWorst k cs) = true →
  at_least x (CurrentWorst k (BaseCase k refs q b n cs)) = true.
Proof.
  revert b P cs. induction n as [| n IH]; intros b P cs Hacc Hnew Hx; [done |].
  unfold BaseCase. simpl.
  destruct (lookup_lt_is_Some_2 refs b) as [r Hr]; [apply Hnew; lia |].
  rewrite Hr.
  apply (IH (S b) (λ j, P j ∨ j = b)).
  - apply Insert_accounts; [done | apply Hnew; lia | done].
  - intros i Hi. split; [| apply Hnew; lia].
    intros [HP | ->]; [| lia]. apply (Hnew i); [lia | done].
  - destruct (accounts_ascending _ _ _ _ _ Hacc). by apply Insert_improves.
Qed.

Lemma statistics_valid_improves k (qroot : Node Bound) cands stats cands' :
  statistics_valid k qroot (mkDualState cands stats) →
  improves k cands cands' →
  statistics_valid k qroot (mkDualState cands' stats).
Proof.
  intros Hv Himp path t x qi Ht Hx Hqi. simpl in *.
  apply Himp. by eapply (Hv path t x qi).
Qed.

(** All point pairs between a range of query points and a range of
    reference points. *)
Lemma BaseCases_spec k refs queries (A : nat → nat → Prop) qb qn rb rn cands :
  all_account k refs queries A cands →
  (∀ qi, (qb ≤ qi < qb + qn)%nat → (qi < length queries)%nat) →
  (∀ qi i, (qb ≤ qi < qb + qn)%nat → (rb ≤ i < rb + rn)%nat →
     ¬ A qi i ∧ (i < length refs)%nat) →
  all_account k refs queries
    (λ qi i, A qi i ∨ ((qb ≤ qi < qb + qn)%nat ∧ (rb ≤ i < rb + rn)%nat))
    (BaseCases k refs queries qb qn rb rn cands)
  ∧ improves k cands (BaseCases k refs queries qb qn rb rn cands).
Proof.
  revert qb A cands. induction qn as [| qn IH]; intros qb A cands Hall Hq Hnew.
  - split; [| apply improves_refl].
    eapply all_account_proper; [| exact Hall]. intros qi i. intuition lia.
  - unfold BaseCases. simpl.
    destruct (lookup_lt_is_Some_2 queries qb) as [q Hqb]; [apply Hq; lia |].
    destruct Hall as [Hlen Hall].
    destruct (Hall qb q Hqb) as (cs & Hcs & Hacc).
    rewrite Hqb, Hcs.
    set (cs' := BaseCase k refs q rb rn cs).
    set (A1 := λ qi i, A qi i ∨ (qi = qb ∧ (rb ≤ i < rb + rn)%nat)).
    assert (all_account k refs queries A1 (<[qb := cs']> cands)) as Hall1.
    { split; [by rewrite length_insert |].
      intros qi q' Hq'. destruct (decide (qi = qb)) as [-> | Hne].
      - exists cs'. split.
        + apply list_lookup_insert_eq. by eapply lookup_lt_Some.
        + assert (q' = q) as -> by congruence.
          eapply accounts_proper; [| apply BaseCase_accounts; [exact Hacc |]].
          * intros i. unfold A1. simpl. intuition lia.
          * intros i Hi. apply Hnew; [lia | done].
      - destruct (Hall qi q' Hq') as (cs0 & Hcs0 & Hacc0).
        exists cs0. split; [by rewrite list_lookup_insert_ne |].
        eapply accounts_proper; [| exact Hacc0].
        intros i. unfold A1. intuition lia. }
    assert (improves k cands (<[qb := cs']> cands)) as Himp1.
    { intros qi x. unfold worst_of.
      destruct (decide (qi = qb)) as [-> | Hne].
      - rewrite Hcs, list_lookup_insert_eq by (by eapply lookup_lt_Some).
        eapply BaseCase_improves; [exact Hacc |].
        intros i Hi. apply Hnew; [lia | done].
      - by rewrite list_lookup_insert_ne. }
    destruct (IH (S qb) A1 (<[qb := cs']> cands)) as [Hall2 Himp2].
    + done.
    + intros qi Hqi. apply Hq. lia.
    + intros qi i Hqi Hi. split; [| apply (Hnew qi i); [lia | done]].
      intros [HA | [-> _]]; [| lia]. apply (Hnew qi i); [lia | done | done].
    + split; [| by eapply improves_trans].
      eapply all_account_proper; [| exact Hall2].
      intros qi i. unfold A1. intuition lia.
Qed.

Lemma in_node_dec (t : Node Bound) i : {in_node t i} + {¬ in_node t i}.
Proof.
  unfold in_node.
  destruct (decide (Begin t ≤ i < Begin t + Count t)%nat); [by left | by right].
Qed.

(** A pruned pair: no point of the reference node can improve the
    candidates of a query point of the query node. *)
Lemma prune_accounts k refs queries (qroot qnode rnode : Node Bound) path s
    (A : nat → nat → Prop) :
  node_at qroot path = Some qnode →
  well_formed queries qnode = true → well_formed refs rnode = true →
  all_account k refs queries A (candidates s) →
  statistics_valid k qroot s →
  at_least (MinDistanceBound (Bound_of qnode) (Bound_of rnode))
    (NodeStatistic s path) = true →
  all_account k refs queries
    (λ qi i, A qi i ∨ (in_node qnode qi ∧ in_node rnode i)) (candidates s).
Proof.
  intros Hpath Hwq Hwr [Hlen Hall] Hvalid Hprune.
  unfold NodeStatistic in Hprune.
  destruct (statistics s !! path) as [x |] eqn:Hx; [| done]. simpl in Hprune.
  split; [done |]. intros qi q Hq.
  destruct (Hall qi q Hq) as (cs & Hcs & Hacc). exists cs. split; [done |].
  destruct (in_node_dec qnode qi) as [Hin | Hout].
  - pose proof (Hvalid path qnode x qi Hpath Hx Hin) as Hw.
    unfold worst_of in Hw. rewrite Hcs in Hw.
    destruct (CurrentWorst k cs) as [w |] eqn:HW; [| done]. simpl in Hw.
    eapply accounts_proper; [| eapply (accounts_skip _ _ _ _ (in_node rnode));
                               [exact Hacc | exact HW |]].
    + intros i. simpl. tauto.
    + intros i r Hi Hr.
      destruct (well_formed_contains _ _ _ Hwq Hin) as (q' & Hq' & Hcq).
      destruct (well_formed_contains _ _ _ Hwr Hi) as (r' & Hr' & Hcr).
      assert (q' = q) as -> by congruence.
      assert (r' = r) as -> by congruence.
      eapply leq_trans; [exact Hw |]. eapply leq_trans; [exact Hprune |].
      by apply MinDistanceBound_lower.
  - eapply accounts_proper; [| exact Hacc]. intros i. tauto.
Qed.

Lemma DualLeaf_spec k refs queries (qroot : Node Bound) path
    (qbound : Bound) qb qn (rnode : Node Bound) :
  ∀ s (A : nat → nat → Prop),
  node_at qroot path = Some (Leaf qbound qb qn) →
  well_formed queries (Leaf qbound qb qn) = true →
  well_formed refs rnode = true →
  all_account k refs queries A (candidates s) →
  statistics_valid k qroot s →
  (∀ qi i, in_node (Leaf qbound qb qn) qi → in_node rnode i → ¬ A qi i) →
  let s' := DualLeaf k refs queries qbound qb qn path rnode s in
  all_account k refs queries
    (λ qi i, A qi i ∨ (in_node (Leaf qbound qb qn) qi ∧ in_node rnode i))
    (candidates s')
  ∧ statistics_valid k qroot s'.
Proof.
  induction rnode as [rbound rb rn | rbound rl IHl rr IHr];
    intros s A Hpath Hwq Hwr Hall Hvalid Hnew.
  - simpl. destruct (at_least _ _) eqn:Hprune.
    + split; [| done].
      by apply (prune_accounts _ _ _ qroot (Leaf qbound qb qn)
                  (Leaf rbound rb rn) path).
    + destruct (BaseCases_spec k refs queries A qb qn rb rn (candidates s))
        as [Hall' Himp].
      * done.
      * intros qi Hqi. by apply (well_formed_in_range _ _ _ Hwq).
      * intros qi i Hqi Hi. split; [by apply Hnew |].
        by apply (well_formed_in_range _ _ _ Hwr).
      * split; [exact Hall' |].
        intros path' t x qi Ht Hx Hqi. simpl in Hx |- *.
        rewrite set_statistic_lookup in Hx.
        destruct (decide (path = path')) as [<- | Hne].
        -- assert (t = Leaf qbound qb qn) as -> by congruence.
           by eapply worst_over_bound.
        -- apply Himp. by eapply (Hvalid path' t x qi).
  - simpl. destruct (at_least _ _) eqn:Hprune.
    + split; [| done].
      by apply (prune_accounts _ _ _ qroot (Leaf qbound qb qn)
                  (Inner rbound rl rr) path).
    + destruct (well_formed_Inner _ _ _ _ Hwr) as (Hbr & Hwl & Hwr').
      pose proof (in_node_Inner rbound rl rr) as Hsplit.
      destruct (IHl s A) as [Hall1 Hvalid1]; try done.
      { intros qi i Hqi Hi. apply Hnew; [done |]. apply Hsplit; tauto. }
      match goal with
      | |- context [DualLeaf _ _ _ _ _ _ _ rr ?s1] =>
          destruct (IHr s1 (λ qi i, A qi i
                      ∨ (in_node (Leaf qbound qb qn) qi ∧ in_node rl i)))
            as [Hall2 Hvalid2]; try done
      end.
      { intros qi i Hqi Hi [HA | [_ Hl]].
        - apply (Hnew qi i); [done | apply Hsplit; tauto | done].
        - by eapply in_node_disjoint. }
      split; [| done].
      eapply all_account_proper; [| exact Hall2].
      intros qi i. simpl. rewrite Hsplit by done. tauto.
Qed.

Lemma insert_by_key_Permutation {A} (x : R * A) l :
  insert_by_key x l ≡ₚ x :: l.
Proof.
  induction l as [| y l IH]; simpl; [done |].
  destruct (leq y.1 x.1); [| done]. rewrite IH. apply Permutation_swap.
Qed.

Lemma sort_by_key_Permutation {A} (l : list (R * A)) : sort_by_key l ≡ₚ l.
Proof.
  induction l as [| x l IH]; simpl; [done |].
  by rewrite insert_by_key_Permutation, IH.
Qed.

Lemma DualTree_Inner k refs queries (qbound : Bound) ql qr path rnode s :
  DualTree k refs queries (Inner qbound ql qr) path rnode s =
    if at_least (MinDistanceBound qbound (Bound_of rnode)) (NodeStatistic s path)
    then s
    else
      let s' := DualChildren k refs queries ql qr path rnode s in
      mkDualState (candidates s')
        (set_statistic path
           (max_ext (NodeStatistic s' (path ++ [false]))
                    (NodeStatistic s' (path ++ [true])))
           (statistics s')).
Proof. by destruct rnode. Qed.

Lemma DualTree_spec k refs queries (qroot qnode : Node Bound) :
  ∀ path (rnode : Node Bound) s (A : nat → nat → Prop),
  node_at qroot path = Some qnode →
  well_formed queries qnode = true →
  well_formed refs rnode = true →
  all_account k refs queries A (candidates s) →
  statistics_valid k qroot s →
  (∀ qi i, in_node qnode qi → in_node rnode i → ¬ A qi i) →
  let s' := DualTree k refs queries qnode path rnode s in
  all_account k refs queries
    (λ qi i, A qi i ∨ (in_node qnode qi ∧ in_node rnode i)) (candidates s')
  ∧ statistics_valid k qroot s'.
Proof.
  induction qnode as [qbound qb qn | qbound ql IHl qr IHr];
    intros path rnode s A Hpath Hwq Hwr Hall Hvalid Hnew.
  { simpl. by apply DualLeaf_spec. }
  cbv zeta. rewrite DualTree_Inner.
  change qbound with (Bound_of (Inner qbound ql qr)) at 1.
  destruct (at_least _ _) eqn:Hprune.
  { split; [| done].
    by apply (prune_accounts _ _ _ qroot (Inner qbound ql qr) rnode path). }
  destruct (well_formed_Inner _ _ _ _ Hwq) as (Hbq & Hwql & Hwqr).
  pose proof (in_node_Inner qbound ql qr) as Hqsplit.
  set (child := λ a : bool, if a then qr else ql).
  assert (∀ a path' (rnode' : Node Bound) s0 (A0 : nat → nat → Prop),
            path' = path ++ [a] →
            well_formed refs rnode' = true →
            all_account k refs queries A0 (candidates s0) →
            statistics_valid k qroot s0 →
            (∀ qi i, in_node (child a) qi → in_node rnode' i → ¬ A0 qi i) →
            all_account k refs queries
              (λ qi i, A0 qi i ∨ (in_node (child a) qi ∧ in_node rnode' i))
              (candidates (DualTree k refs queries (child a) path' rnode' s0))
            ∧ statistics_valid k qroot
                (DualTree k refs queries (child a) path' rnode' s0)) as IH.
  { intros a path' rnode' s0 A0 -> Hwr' Hall0 Hvalid0 Hnew0.
    pose proof (node_at_snoc _ _ a _ _ _ Hpath) as Hchild.
    destruct a; simpl in *; [by apply IHr | by apply IHl]. }
  clear IHl IHr.
  (* once the children are done, the statistic of the node is refreshed *)
  cbv zeta.
  assert (all_account k refs queries
            (λ qi i, A qi i
               ∨ (in_node (Inner qbound ql qr) qi ∧ in_node rnode i))
            (candidates (DualChildren k refs queries ql qr path rnode s))
          ∧ statistics_valid k qroot
              (DualChildren k refs queries ql qr path rnode s))
    as [Hall' Hvalid'].
  2:{ split; [exact Hall' |].
      intros path' t x qi Ht Hx Hqi. simpl in Hx |- *.
      rewrite set_statistic_lookup in Hx.
      destruct (decide (path = path')) as [<- | Hne];
        [| by eapply (Hvalid' path' t x qi)].
      assert (t = Inner qbound ql qr) as -> by congruence.
      apply max_ext_Some in Hx as (xl & xr & Hxl & Hxr & Hlx & Hrx).
      apply Hqsplit in Hqi as [Hqi | Hqi]; [| | done].
      - eapply at_least_weaken; [exact Hlx |].
        eapply (Hvalid' (path ++ [false]) ql xl qi); [| done | done].
        apply (node_at_snoc _ _ false _ _ _ Hpath).
      - eapply at_least_weaken; [exact Hrx |].
        eapply (Hvalid' (path ++ [true]) qr xr qi); [| done | done].
        apply (node_at_snoc _ _ true _ _ _ Hpath). }
  unfold DualChildren.
  destruct rnode as [rbound rb rn | rbound rl rr].
  - (* the reference node is a leaf: both query children against it *)
    destruct (IH false (path ++ [false]) (Leaf rbound rb rn) s A)
      as [Hall1 Hvalid1]; try done.
    { intros qi i Hqi Hi. apply Hnew; [| done]. apply Hqsplit; tauto. }
    destruct (IH true (path ++ [true]) (Leaf rbound rb rn)
                (DualTree k refs queries ql (path ++ [false])
                   (Leaf rbound rb rn) s)
                (λ qi i, A qi i
                   ∨ (in_node ql qi ∧ in_node (Leaf rbound rb rn) i)))
      as [Hall2 Hvalid2]; try done.
    { intros qi i Hqi Hi [HA | [Hl _]].
      - apply (Hnew qi i); [apply Hqsplit; tauto | done | done].
      - by eapply (in_node_disjoint ql qr). }
    split; [| done].
    eapply all_account_proper; [| exact Hall2].
    intros qi i. simpl. rewrite Hqsplit by done. tauto.
  - (* both internal: the four child pairs, in sorted order *)
    destruct (well_formed_Inner _ _ _ _ Hwr) as (Hbr & Hwrl & Hwrr).
    pose proof (in_node_Inner rbound rl rr) as Hrsplit.
    set (rchild := λ b : bool, if b then rr else rl).
    set (done_by := λ (D : list (bool * bool)) qi i,
           ∃ ab, ab ∈ D ∧ in_node (child ab.1) qi ∧ in_node (rchild ab.2) i).
    cbv zeta.
    match goal with
    | |- context [foldl ?f s (sort_by_key ?l)] =>
        set (step := f); set (tasks := sort_by_key l);
        assert (tasks.*2 ≡ₚ
                  [(false, false); (false, true); (true, false); (true, true)])
          as Hperm by (unfold tasks; by rewrite sort_by_key_Permutation)
    end.
    assert (∀ ts D s0,
              NoDup (D ++ ts.*2) →
              all_account k refs queries (λ qi i, A qi i ∨ done_by D qi i)
                (candidates s0) →
              statistics_valid k qroot s0 →
              all_account k refs queries
                (λ qi i, A qi i ∨ done_by (D ++ ts.*2) qi i)
                (candidates (foldl step s0 ts))
              ∧ statistics_valid k qroot (foldl step s0 ts)) as Hfold.
    { clear tasks Hperm.
      induction ts as [| [key [a b]] ts IHts]; intros D s0 Hnd Hall0 Hvalid0.
      - simpl. rewrite app_nil_r. done.
      - simpl. unfold step at 2 4. simpl.
        destruct (IH a (path ++ [a]) (rchild b) s0
                    (λ qi i, A qi i ∨ done_by D qi i))
          as [Hall1 Hvalid1]; try done.
        { by destruct b. }
        { intros qi i Hqi Hi [HA | (ab & Hab & Hq' & Hr')].
          - apply (Hnew qi i); [| | done].
            + apply Hqsplit; [done |]. destruct a; simpl in Hqi; tauto.
            + apply Hrsplit; [done |]. destruct b; simpl in Hi; tauto.
          - apply NoDup_app in Hnd as (_ & Hnd & _).
            apply (Hnd ab Hab). simpl.
            assert (ab = (a, b)) as ->; [| by left].
            destruct ab as [a' b']. simpl in *.
            assert (a' = a) as ->.
            { destruct a, a'; simpl in *; try done; exfalso;
                by eapply (in_node_disjoint ql qr). }
            assert (b' = b) as ->; [| done].
            destruct b, b'; simpl in *; try done; exfalso;
              by eapply (in_node_disjoint rl rr). }
        destruct (IHts (D ++ [(a, b)])
                    (DualTree k refs queries (child a) (path ++ [a])
                       (rchild b) s0)) as [Hall2 Hvalid2].
        + by rewrite <- app_assoc.
        + eapply all_account_proper; [| exact Hall1].
          intros qi i. unfold done_by. split.
          * intros [[HA | (ab & Hab & ?)] | [Hq' Hr']].
            -- by left.
            -- right. exists ab. split; [apply elem_of_app; by left | done].
            -- right. exists (a, b).
               split; [apply elem_of_app; right; by left | done].
          * intros [HA | (ab & Hab & Hq' & Hr')]; [by left; left |].
            apply elem_of_app in Hab as [Hab | Hab].
            -- left. right. by exists ab.
            -- apply list_elem_of_singleton in Hab as ->. by right.
        + done.
        + rewrite <- app_assoc in Hall2. done. }
    destruct (Hfold tasks [] s) as [Hall1 Hvalid1].
    + simpl. rewrite Hperm. by compute_done.
    + eapply all_account_proper; [| exact Hall].
      intros qi i. unfold done_by. split; [by left |].
      intros [? | (ab & Hab & _)]; [done |]. by apply elem_of_nil in Hab.
    + done.
    + split; [| done].
      eapply all_account_proper; [| exact Hall1].
      intros qi i. simpl. unfold done_by.
      rewrite Hqsplit, Hrsplit by done. split.
      * intros [HA | ([a b] & _ & Hq' & Hr')]; [by left | right].
        destruct a, b; simpl in *; tauto.
      * intros [HA | [Hq' Hr']]; [by left | right].
        assert (∀ ab : bool * bool, ab ∈ tasks.*2) as Hin.
        { intros [[] []]; rewrite Hperm; compute_done. }
        destruct Hq' as [Hq' | Hq'], Hr' as [Hr' | Hr'].
        -- by exists (false, false).
        -- by exists (false, true).
        -- by exists (true, false).
        -- by exists (true, true).
Qed.

Lemma DualTreeSearch_exact k refs queries (rtree qtree : Node Bound) qi q :
  (k ≤ length refs)%nat →
  well_formed refs rtree = true → covers rtree (length refs) = true →
  well_formed queries qtree = true → covers qtree (length queries) = true →
  queries !! qi = Some q →
  ∃ res, DualTreeSearch k refs queries rtree qtree !! qi = Some res
         ∧ exact_knn k refs q res.
Proof.
  intros Hk Hwr Hcr Hwq Hcq Hq. unfold DualTreeSearch.
  destruct (DualTree_spec k refs queries qtree qtree [] rtree
              (mkDualState (replicate (length queries) []) ∅)
              (λ _ _, False)) as [[_ Hall] _]; try done.
  - split; [simpl; by rewrite length_replicate |].
    intros qj q' Hq'. exists []. split; [| apply accounts_nil].
    simpl. apply lookup_replicate_2. by eapply lookup_lt_Some.
  - tauto.
  - destruct (Hall qi q Hq) as (res & Hres & Hacc).
    exists res. split; [done |].
    apply accounts_all_exact; [done |].
    eapply accounts_proper; [| exact Hacc].
    intros i. simpl.
    rewrite (covers_in_node _ _ _ Hcr), (covers_in_node _ _ _ Hcq).
    apply lookup_lt_Some in Hq. tauto.
Qed.

(** Each mode of the engine returns, for every query point, an exact
    answer. *)
Lemma SearchEngine_exact mode k refs queries (rtree qtree : Node Bound) :
  (k ≤ length refs)%nat →
  well_formed refs rtree = true → covers rtree (length refs) = true →
  well_formed queries qtree = true → covers qtree (length queries) = true →
  ∀ qi q, queries !! qi = Some q →
    ∃ res,
      SearchEngine mode k refs queries rtree qtree !! qi = Some res
      ∧ exact_knn k refs q res.
Proof.
  intros Hk Hwr Hcr Hwq Hcq qi q Hq. destruct mode; simpl.
  - by apply NaiveSearch_exact.
  - by apply SingleTreeSearch_exact.
  - by apply DualTreeSearch_exact.
Qed.

(** C5.  In each of the three modes the result for every query point is
    exact: k reference points in ascending order of distance, each with
    the distance of its point to the query point, and no reference point
    left out that is nearer than one that is in.  So no pruned branch held
    a better candidate.  The trees are well formed over the whole point
    sets and k is at most the number of reference points. *)
Theorem search_is_exact mode k refs queries (rtree qtree : Node Bound) :
  (k ≤ length refs)%nat →
  well_formed refs rtree = true → covers rtree (length refs) = true →
  well_formed queries qtree = true → covers qtree (length queries) = true →
  ∀ qi q, queries !! qi = Some q →
    ∃ res,
      (Finalize k <$> SearchEngine mode k refs queries rtree qtree) !! qi
        = Some res
      ∧ exact_knn k refs q res.
Proof.
  intros Hk Hwr Hcr Hwq Hcq qi q Hq.
  assert (∃ res, SearchEngine mode k refs queries rtree qtree !! qi = Some res
                 ∧ exact_knn k refs q res) as (res & Hres & Hexact).
  { destruct mode; simpl.
    - by apply NaiveSearch_exact.
    - by apply SingleTreeSearch_exact.
    - by apply DualTreeSearch_exact. }
  exists res. rewrite list_lookup_fmap, Hres. simpl.
  rewrite Finalize_full; [done |]. by destruct Hexact.
Qed.

End CoreFacts.

(** ** The integer instance *)

Lemma SquaredDistance_nonneg a b : 0 <= SquaredDistance a b.
Proof.
  revert b. induction a as [| x a IH]; intros [| y b]; simpl; try lia.
  specialize (IH b). pose proof (Z.square_nonneg (x - y)). lia.
Qed.

Lemma square_le_abs (g d : Z) : 0 <= g → g <= d ∨ g <= - d → g * g <= d * d.
Proof.
  intros Hg [Hd | Hd].
  - by apply Z.square_le_mono_nonneg.
  - replace (d * d) with (- d * - d) by ring.
    by apply Z.square_le_mono_nonneg.
Qed.

Lemma axis_gap_lower lo hi x y :
  lo <= x <= hi → axis_gap lo hi y * axis_gap lo hi y <= (y - x) * (y - x).
Proof. intros Hx. apply square_le_abs; unfold axis_gap; lia. Qed.

Lemma axis_gap2_lower lo1 hi1 lo2 hi2 x y :
  lo1 <= y <= hi1 → lo2 <= x <= hi2 →
  axis_gap2 lo1 hi1 lo2 hi2 * axis_gap2 lo1 hi1 lo2 hi2 <= (y - x) * (y - x).
Proof. intros Hy Hx. apply square_le_abs; unfold axis_gap2; lia. Qed.

Lemma HRect_MinDistance_lower b q r :
  HRect_Contains b r = true → HRect_MinDistance b q <= SquaredDistance q r.
Proof.
  revert q r. induction b as [| [lo hi] b IH]; intros q r.
  - intros _. destruct q; apply SquaredDistance_nonneg.
  - destruct r as [| x r]; [done |]. simpl.
    rewrite !andb_true_iff, !Z.leb_le. intros [[Hlo Hhi] Hc].
    destruct q as [| y q]; simpl; [lia |].
    specialize (IH q r Hc).
    pose proof (axis_gap_lower lo hi x y). lia.
Qed.

Lemma HRect_MinDistanceBound_lower bq br q r :
  HRect_Contains bq q = true → HRect_Contains br r = true →
  HRect_MinDistanceBound bq br <= SquaredDistance q r.
Proof.
  revert br q r. induction bq as [| [lo1 hi1] bq IH]; intros br q r.
  - intros _ _. simpl. apply SquaredDistance_nonneg.
  - destruct q as [| y q]; [done |]. simpl.
    rewrite !andb_true_iff, !Z.leb_le. intros [[Hlo1 Hhi1] Hcq].
    destruct br as [| [lo2 hi2] br].
    + intros _. pose proof (SquaredDistance_nonneg (y :: q) r). simpl in *. lia.
    + destruct r as [| x r]; [done |]. simpl.
      rewrite !andb_true_iff, !Z.leb_le. intros [[Hlo2 Hhi2] Hcr].
      specialize (IH br q r Hcq Hcr).
      pose proof (axis_gap2_lower lo1 hi1 lo2 hi2 x y). lia.
Qed.

Lemma Z_GeometryLaws : GeometryLaws Z HRectBound.
Proof.
  split; simpl.
  - intros x. apply Z.leb_refl.
  - intros x y z. rewrite !Z.leb_le. lia.
  - intros x y. rewrite !Z.leb_le. lia.
  - intros b q r Hc. apply Z.leb_le. by apply HRect_MinDistance_lower.
  - intros bq br q r Hq Hr. apply Z.leb_le.
    by apply HRect_MinDistanceBound_lower.
Qed.

(** ** The permutations at the remapping loop *)

(** With an empty query-side permutation the first access of the loop is
    already outside the vector. *)
Lemma remap_without_query_permutation {R} (oldFromNewRefs : list nat)
    (distances : Mat R) (neighbors : Mat nat) :
  n_cols distances ≠ 0%nat →
  remap [] oldFromNewRefs distances neighbors
    = Faulted (VectorIndex "oldFromNewQueries" 0 0).
Proof.
  intros Hn. unfold remap.
  destruct (n_cols distances) as [| n]; [done |]. reflexivity.
Qed.

(** What the loop nest does when it is handed a permutation of the query
    columns and reference-side indices that are all in range: every
    tree-internal column [i] lands in the output column [oldFromNewQueries[i]],
    with each neighbour index translated through [oldFromNewRefs]. *)
Section RemapFacts.
Context {R : Type}.
Variables (oldFromNewQueries oldFromNewRefs : list nat).
Variable distances : Mat R.
Variable neighbors : Mat nat.

Abbreviation translated cn := ((λ x : nat, oldFromNewRefs !! x) <$> cn).

Lemma remap_entries i q cn :
  oldFromNewQueries !! i = Some q →
  columns neighbors !! i = Some cn →
  Forall (λ x, x < length oldFromNewRefs)%nat cn →
  ∀ cnt j neighborsOut colq,
    (j + cnt = length cn)%nat →
    columns neighborsOut !! q = Some colq → length colq = length cn →
    for_loop j cnt (remap_entry oldFromNewQueries oldFromNewRefs neighbors i)
      neighborsOut
    = Done (mkMat (n_rows neighborsOut)
              (<[q := take j colq ++ translated (drop j cn)]>
                 (columns neighborsOut))).
Proof.
  intros Hq Hcn Hin.
  induction cnt as [| cnt IH]; intros j nOut colq Hlen Hcol Hlc.
  - simpl. rewrite take_ge, drop_ge by lia. simpl. rewrite app_nil_r.
    rewrite list_insert_id by done. by destruct nOut.
  - destruct (lookup_lt_is_Some_2 cn j) as [x Hx]; [lia |].
    pose proof (Forall_lookup_1 _ _ _ _ Hin Hx) as Hxr. simpl in Hxr.
    destruct (lookup_lt_is_Some_2 oldFromNewRefs x) as [r Hr]; [done |].
    assert (remap_entry oldFromNewQueries oldFromNewRefs neighbors i j nOut
            = Done (mkMat (n_rows nOut)
                      (<[q := <[j := Some r]> colq]> (columns nOut))))
      as Hstep.
    { unfold remap_entry, vector_at, at_, set_at.
      rewrite Hq. simpl. rewrite Hcn, Hx. simpl. rewrite Hr. simpl.
      rewrite Hcol. destruct (decide (j < length colq)%nat); [done | lia]. }
    simpl. rewrite Hstep. simpl.
    rewrite (IH (S j) _ (<[j := Some r]> colq)); simpl.
    + rewrite list_insert_insert_eq. do 3 f_equal.
      rewrite (take_S_r _ _ (Some r)) by (apply list_lookup_insert_eq; lia).
      rewrite take_insert_ge by done.
      rewrite (drop_S cn x j) by done. simpl.
      by rewrite Hr, <- app_assoc.
    + lia.
    + apply list_lookup_insert_eq. by eapply lookup_lt_Some.
    + by rewrite length_insert.
Qed.

Lemma remap_column_done i q c cn distancesOut neighborsOut colq :
  oldFromNewQueries !! i = Some q →
  columns distances !! i = Some c →
  columns neighbors !! i = Some cn →
  length cn = n_rows distances →
  Forall (λ x, x < length oldFromNewRefs)%nat cn →
  (q < n_cols distancesOut)%nat →
  columns neighborsOut !! q = Some colq → length colq = n_rows distances →
  remap_column oldFromNewQueries oldFromNewRefs distances neighbors i
    (distancesOut, neighborsOut)
  = Done (mkMat (n_rows distancesOut)
            (<[q := Some <$> c]> (columns distancesOut)),
          mkMat (n_rows neighborsOut)
            (<[q := translated cn]> (columns neighborsOut))).
Proof.
  intros Hq Hc Hcn Hrows Hin Hqn Hcol Hlc.
  unfold remap_column, vector_at, col, set_col. rewrite Hq, Hc. simpl.
  destruct (decide (q < n_cols distancesOut)%nat); [| done]. simpl.
  rewrite (remap_entries i q cn Hq Hcn Hin (n_rows distances) 0 _ colq);
    [| lia | done | lia].
  by rewrite drop_0.
Qed.

Hypothesis query_permutation :
  oldFromNewQueries ≡ₚ seq 0 (n_cols distances).
Hypothesis neighbors_shape :
  n_cols neighbors = n_cols distances
  ∧ n_rows neighbors = n_rows distances
  ∧ well_shaped neighbors.
Hypothesis neighbors_in_range :
  Forall (Forall (λ x, x < length oldFromNewRefs)%nat) (columns neighbors).

Lemma remap_columns cnt :
  ∀ from distancesOut neighborsOut,
    (from + cnt = n_cols distances)%nat →
    n_cols distancesOut = n_cols distances →
    n_cols neighborsOut = n_cols distances →
    Forall (λ c, length c = n_rows distances) (columns neighborsOut) →
    ∃ distancesOut' neighborsOut',
      for_loop from cnt
        (remap_column oldFromNewQueries oldFromNewRefs distances neighbors)
        (distancesOut, neighborsOut)
      = Done (distancesOut', neighborsOut')
      ∧ (∀ i q c cn,
           (from ≤ i)%nat → oldFromNewQueries !! i = Some q →
           columns distances !! i = Some c → columns neighbors !! i = Some cn →
           columns distancesOut' !! q = Some (Some <$> c)
           ∧ columns neighborsOut' !! q = Some (translated cn))
      ∧ (∀ q, (∀ i, (from ≤ i)%nat → oldFromNewQueries !! i ≠ Some q) →
           columns distancesOut' !! q = columns distancesOut !! q
           ∧ columns neighborsOut' !! q = columns neighborsOut !! q).
Proof.
  destruct neighbors_shape as (Hnc & Hnr & Hshape).
  assert (NoDup oldFromNewQueries) as Hnd
    by (rewrite query_permutation; apply NoDup_seq).
  assert (length oldFromNewQueries = n_cols distances) as Hlen
    by (by rewrite query_permutation, length_seq).
  induction cnt as [| cnt IH]; intros from dOut nOut Hfrom Hd Hn Hrows.
  - exists dOut, nOut. split; [done |]. split; [| done].
    intros i q c cn Hi Hq. apply lookup_lt_Some in Hq. lia.
  - destruct (lookup_lt_is_Some_2 oldFromNewQueries from) as [q Hq]; [lia |].
    destruct (lookup_lt_is_Some_2 (columns distances) from) as [c Hc];
      [unfold n_cols in *; lia |].
    destruct (lookup_lt_is_Some_2 (columns neighbors) from) as [cn Hcn];
      [unfold n_cols in *; lia |].
    assert (q < n_cols distances)%nat as Hqn.
    { apply list_elem_of_lookup_2 in Hq. rewrite query_permutation in Hq.
      apply elem_of_seq in Hq. lia. }
    destruct (lookup_lt_is_Some_2 (columns nOut) q) as [colq Hcolq];
      [unfold n_cols in *; lia |].
    simpl.
    rewrite (remap_column_done from q c cn dOut nOut colq); try done.
    + simpl.
      destruct (IH (S from)
                  (mkMat (n_rows dOut) (<[q := Some <$> c]> (columns dOut)))
                  (mkMat (n_rows nOut) (<[q := translated cn]> (columns nOut))))
        as (dOut' & nOut' & Hloop & Hset & Hkeep).
      * lia.
      * unfold n_cols in *. simpl. by rewrite length_insert.
      * unfold n_cols in *. simpl. by rewrite length_insert.
      * simpl. apply Forall_insert; [done |]. rewrite length_fmap.
        rewrite <- Hnr. by apply (Forall_lookup_1 _ _ _ _ Hshape Hcn).
      * exists dOut', nOut'. split; [done |]. split.
        -- intros i q' c' cn' Hi Hq' Hc' Hcn'.
           destruct (decide (i = from)) as [-> | Hne].
           ++ assert (q' = q) as -> by congruence.
              assert (c' = c) as -> by congruence.
              assert (cn' = cn) as -> by congruence.
              destruct (Hkeep q) as [-> ->].
              { intros i Hi' Hqi.
                pose proof (NoDup_lookup _ _ _ _ Hnd Hq Hqi). lia. }
              simpl. unfold n_cols in *.
              rewrite !list_lookup_insert_eq by lia. done.
           ++ apply (Hset i q' c' cn'); [lia | done | done | done].
        -- intros q' Hq'.
           destruct (Hkeep q') as [-> ->].
           { intros i Hi. apply Hq'. lia. }
           simpl. assert (q ≠ q') as Hne.
           { intros <-. by apply (Hq' from). }
           by rewrite !list_lookup_insert_ne.
    + rewrite <- Hnr. by apply (Forall_lookup_1 _ _ _ _ Hshape Hcn).
    + by apply (Forall_lookup_1 _ _ _ _ neighbors_in_range Hcn).
    + lia.
    + by apply (Forall_lookup_1 _ _ _ _ Hrows Hcolq).
Qed.

Lemma remap_restores_order :
  ∃ distancesOut neighborsOut,
    remap oldFromNewQueries oldFromNewRefs distances neighbors
      = Done (distancesOut, neighborsOut)
    ∧ ∀ i q c cn,
        oldFromNewQueries !! i = Some q →
        columns distances !! i = Some c → columns neighbors !! i = Some cn →
        columns distancesOut !! q = Some (Some <$> c)
        ∧ columns neighborsOut !! q = Some (translated cn).
Proof.
  destruct neighbors_shape as (Hnc & Hnr & Hshape).
  unfold remap.
  destruct (remap_columns (n_cols distances) 0
              (uninitialised (n_rows distances) (n_cols distances))
              (uninitialised (n_rows neighbors) (n_cols neighbors)))
    as (dOut & nOut & Hloop & Hset & _).
  - done.
  - unfold n_cols, uninitialised. simpl. by rewrite length_replicate.
  - unfold n_cols, uninitialised in *. simpl. by rewrite length_replicate.
  - unfold uninitialised. simpl. apply Forall_replicate.
    by rewrite length_replicate.
  - exists dOut, nOut. split; [done |].
    intros i q c cn. apply Hset. lia.
Qed.

End RemapFacts.

Section PermutationFacts.
Context {R Tree : Type}.
Variable Load : string → option (Mat R).
Variable BinarySpaceTree : Mat R → Z → Tree * Mat R * list nat.
Variable Search : AllkNN R Tree → Z → Mat nat * Mat R.

(** Lines 101 to 153 never give the vector [oldFromNewQueries] any
    content, with or without a query file. *)
Lemma build_trees_leaves_query_permutation_empty p m t l t' :
  build_trees R Tree Load BinarySpaceTree p m t = (Done l, t') →
  oldFromNewQueries l = [].
Proof.
  destruct (decide (query_file p = "")) as [Hq | Hq].
  - pose proof (build_trees_self_search Load BinarySpaceTree p m t Hq) as HB.
    destruct (BinarySpaceTree m (leaf_size p)) as [[refTree m'] perm].
    cbv zeta in HB. rewrite HB. by intros [= <- _].
  - destruct (Load (query_file p)) as [qd |] eqn:HL.
    + pose proof (build_trees_with_query Load BinarySpaceTree p m qd t Hq HL)
        as HB.
      destruct (BinarySpaceTree m (leaf_size p)) as [[refTree m'] perm].
      destruct (BinarySpaceTree qd (leaf_size p)) as [[qTree qd'] qperm].
      cbv zeta in HB. rewrite HB. by intros [= <- _].
    + destruct (build_trees_query_not_found Load BinarySpaceTree p m t Hq HL)
        as (e & -> & _).
      done.
Qed.

(** With a query file, the vector [oldFromNewRefs] holds the permutation of
    the query tree when the trees are built. *)
Lemma build_trees_overwrites_reference_permutation p m qd t l t' :
  query_file p ≠ "" → Load (query_file p) = Some qd →
  build_trees R Tree Load BinarySpaceTree p m t = (Done l, t') →
  oldFromNewRefs l = (BinarySpaceTree qd (leaf_size p)).2.
Proof.
  intros Hq HL.
  pose proof (build_trees_with_query Load BinarySpaceTree p m qd t Hq HL) as HB.
  destruct (BinarySpaceTree m (leaf_size p)) as [[refTree m'] perm].
  destruct (BinarySpaceTree qd (leaf_size p)) as [[qTree qd'] qperm].
  cbv zeta in HB. rewrite HB. by intros [= <- _].
Qed.

(** A run that reaches the remapping loop with at least one query column
    stops there; so a run that completes has searched for no query point,
    and only such a run saves anything. *)
Lemma completed_run_has_no_query_point p t :
  run R Tree Load BinarySpaceTree Search p = (Done tt, t) →
  ∀ a k, Searched a k ∈ t → n_cols (Search a k).2 = 0%nat.
Proof.
  unfold run, main. intros Hrun a k Hin.
  destruct (load_and_check R Tree Load p []) as [[m | |] t1] eqn:HC;
    [rewrite (bind_done _ _ _ _ _ HC) in Hrun
    | by rewrite (bind_exited _ _ _ _ HC) in Hrun
    | by rewrite (bind_faulted _ _ _ _ _ HC) in Hrun].
  destruct (build_trees R Tree Load BinarySpaceTree p m t1) as [[l | |] t2]
    eqn:HB;
    [rewrite (bind_done _ _ _ _ _ HB) in Hrun
    | by rewrite (bind_exited _ _ _ _ HB) in Hrun
    | by rewrite (bind_faulted _ _ _ _ _ HB) in Hrun].
  pose proof (build_trees_leaves_query_permutation_empty _ _ _ _ _ HB) as Hempty.
  assert (Forall (λ e, ∀ a k, e ≠ Searched a k) t2) as Hnone.
  { assert (adds (λ e : event R Tree, ∀ a k, e ≠ Searched a k)
              (load_and_check R Tree Load p)) as H1
      by (apply adds_load_and_check; done).
    assert (adds (λ e : event R Tree, ∀ a k, e ≠ Searched a k)
              (build_trees R Tree Load BinarySpaceTree p m)) as H2
      by (apply adds_build_trees; done).
    destruct (H1 []) as (e1 & He1 & HF1). rewrite HC in He1. simpl in He1.
    destruct (H2 t1) as (e2 & He2 & HF2). rewrite HB in He2. simpl in He2.
    subst. apply Forall_app. done. }
  revert Hrun. unfold search_and_save, search.
  unfold mbind, M_mbind, M_bind, log, emit, lift. simpl.
  destruct (Search (allknn l) (size_t_of_int (k_param p))) as [nb ds] eqn:HS.
  simpl. rewrite Hempty.
  destruct (decide (n_cols ds = 0%nat)) as [Hz | Hnz].
  - destruct (remap _ _ _ _) as [[dso nbo] | | e]; simpl; [| done | done].
    intros [= <-].
    rewrite !elem_of_app in Hin. rewrite Forall_forall in Hnone.
    destruct Hin as [[[[[[Hin | Hin] | Hin] | Hin] | Hin] | Hin] | Hin];
      try (apply list_elem_of_singleton in Hin; try discriminate).
    + by destruct (Hnone _ Hin a k).
    + injection Hin as -> ->. by rewrite HS.
  - by rewrite remap_without_query_permutation.
Qed.

End PermutationFacts.

(** ** The program on the two inputs *)

(** On the four points of the line, --k=2 --leaf_size=2: the tree stores
    the points in the order 1, 2, 0, 3, and the search returns its matrices
    in that order.  Mapped back with that permutation on both sides they
    read differently; the run itself stops in the remapping loop and saves
    nothing. *)
Lemma line_results_are_in_tree_order :
  let '(tree, data, perm) := BinarySpaceTree_Z line_reference 2 in
  let '(neighbors, distances) :=
    AllkNN_Search (mkAllkNN data None false false 20 tree None) 2 in
  perm = [1; 2; 0; 3]%nat
  ∧ neighbors = mkMat 2 [[0; 1]; [1; 2]; [2; 1]; [3; 2]]%nat
  ∧ distances = mkMat 2 [[0; 9]; [0; 4]; [0; 4]; [0; 16]]
  ∧ remap perm perm distances neighbors
      = Done (mkMat 2 [[Some 0; Some 4]; [Some 0; Some 9];
                       [Some 0; Some 4]; [Some 0; Some 16]],
              mkMat 2 [[Some 0; Some 2]; [Some 1; Some 2];
                       [Some 2; Some 0]; [Some 3; Some 0]]%nat)
  ∧ (run_Z line_Load line_self_search).1
      = Faulted (VectorIndex "oldFromNewQueries" 0 0)
  ∧ Forall (λ e, writes e = false) (run_Z line_Load line_self_search).2.
Proof.
  vm_compute. repeat split. repeat constructor.
Qed.

(** C2.  On the same input the permutation recorded when the reference tree
    is built is 1, 2, 0, 3, a bijection on the four indices, and the
    query-side permutation of the remapping loop is the empty vector: the
    loop recovers no index, it stops at its first access. *)
Theorem build_and_remap_permutations_differ :
  ∃ l t neighbors distances,
    build_trees Z (Node HRectBound) line_Load BinarySpaceTree_Z
      line_self_search line_reference [] = (Done l, t)
    ∧ oldFromNewRefs l = [1; 2; 0; 3]%nat
    ∧ oldFromNewQueries l = []
    ∧ AllkNN_Search (allknn l) 2 = (neighbors, distances)
    ∧ n_cols distances = 4%nat
    ∧ remap (oldFromNewQueries l) (oldFromNewRefs l) distances neighbors
        = Faulted (VectorIndex "oldFromNewQueries" 0 0).
Proof.
  eexists _, _, _, _.
  split; [vm_compute; reflexivity |].
  split; [reflexivity |]. split; [reflexivity |].
  split; [vm_compute; reflexivity |].
  split; vm_compute; reflexivity.
Qed.

(** C3.  On the four points of the line with the three query points,
    --k=2 --leaf_size=2: once both trees are built the query-side
    permutation is still empty, and the reference-side permutation holds
    the permutation of the query tree, 0, 2, 1, in place of that of the
    reference tree, 1, 2, 0, 3; the run stops in the remapping loop. *)
Theorem query_permutation_replaces_reference_permutation :
  ∃ l t,
    build_trees Z (Node HRectBound) line_Load BinarySpaceTree_Z
      line_with_query line_reference [] = (Done l, t)
    ∧ oldFromNewQueries l = []
    ∧ oldFromNewRefs l = (BinarySpaceTree_Z line_query 2).2
    ∧ (BinarySpaceTree_Z line_query 2).2 = [0; 2; 1]%nat
    ∧ (BinarySpaceTree_Z line_reference 2).2 = [1; 2; 0; 3]%nat
    ∧ (run_Z line_Load line_with_query).1
        = Faulted (VectorIndex "oldFromNewQueries" 0 0).
Proof.
  eexists _, _.
  split; [vm_compute; reflexivity |].
  repeat split; vm_compute; reflexivity.
Qed.

(** C4.  On the example scenario of the specification, four points in the
    plane, --k=1, no query file: at the remapping loop the query-side
    permutation is empty while the reference-side permutation is
    0, 2, 1, 3, and the run stops on the access at index 0 of a vector of
    size 0. *)
Theorem self_search_reads_past_query_permutation :
  ∃ l t,
    build_trees Z (Node HRectBound) plane_Load BinarySpaceTree_Z
      plane_self_search plane_reference [] = (Done l, t)
    ∧ oldFromNewQueries l = []
    ∧ oldFromNewRefs l = [0; 2; 1; 3]%nat
    ∧ vector_at "oldFromNewQueries" (oldFromNewQueries l) 0
        = Faulted (VectorIndex "oldFromNewQueries" 0 0)
    ∧ (run_Z plane_Load plane_self_search).1
        = Faulted (VectorIndex "oldFromNewQueries" 0 0).
Proof.
  eexists _, _.
  split; [vm_compute; reflexivity |].
  repeat split; vm_compute; reflexivity.
Qed.

(** ** The properties at concrete inputs *)

Lemma search_is_exact_witness :
  let built := BinarySpaceTree_Z plane_reference 1 in
  let tree := built.1.1 in
  let refs := columns built.1.2 in
  ((2 ≤ length refs)%nat
   ∧ well_formed refs tree = true ∧ covers tree (length refs) = true
   ∧ refs !! 3%nat = Some [5; 5])
  ∧ ∃ res,
      (Finalize 2 <$> SearchEngine DualTreeMode 2 refs refs tree tree) !! 3%nat
        = Some res
      ∧ exact_knn 2 refs [5; 5] res.
Proof.
  intros built tree refs.
  assert ((2 ≤ length refs)%nat) as Hk by (vm_compute; lia).
  assert (well_formed refs tree = true) as Hwf by (by vm_compute).
  assert (covers tree (length refs) = true) as Hcov by (by vm_compute).
  assert (refs !! 3%nat = Some [5; 5]) as Hq by (by vm_compute).
  split; [done |].
  exact (@search_is_exact Z HRectBound Z_Geometry Z_GeometryLaws
           DualTreeMode 2 refs refs tree tree Hk Hwf Hcov Hwf Hcov
           3%nat [5; 5] Hq).
Defined.

Lemma k_outside_range_is_fatal_witness :
  let p := mkParams "reference.csv" "" "distances.csv" "neighbors.csv"
             20 false false 4 in
  (plane_Load (reference_file p) = Some plane_reference
   ∧ is_int (k_param p) ∧ fits plane_reference)
  ∧ (run_Z plane_Load p).1 = Exited
  ∧ Forall (λ e, reports_invalid_k e = false)
      (run_Z plane_Load plane_self_search).2.
Proof.
  intros p.
  assert (plane_Load (reference_file p) = Some plane_reference) as HL
    by reflexivity.
  assert (is_int (k_param p)) as Hint by (by vm_compute).
  assert (fits plane_reference) as Hfit by (by vm_compute).
  split; [done |]. split.
  - destruct (k_outside_range_is_fatal plane_Load BinarySpaceTree_Z
                AllkNN_Search p plane_reference HL Hint Hfit) as [Hbad _].
    apply Hbad. right. vm_compute. reflexivity.
  - destruct (k_outside_range_is_fatal plane_Load BinarySpaceTree_Z
                AllkNN_Search plane_self_search plane_reference)
      as [_ Hgood]; [reflexivity | by vm_compute | by vm_compute |].
    apply Hgood. by vm_compute.
Defined.

Lemma negative_leaf_size_is_fatal_witness :
  let p := mkParams "reference.csv" "" "distances.csv" "neighbors.csv"
             (-1) false false 1 in
  leaf_size p < 0
  ∧ (run_Z plane_Load p).1 = Exited
  ∧ Forall (λ e, computes e = false) (run_Z plane_Load p).2.
Proof.
  intros p. split; [by vm_compute |].
  destruct (negative_leaf_size_is_fatal plane_Load BinarySpaceTree_Z
              AllkNN_Search p) as [Hbad _].
  destruct Hbad as (Hexit & Hquiet & _); [by vm_compute | done].
Defined.

Lemma configuration_error_halts_first_witness :
  let p := mkParams "reference.csv" "" "distances.csv" "neighbors.csv"
             20 false false 0 in
  (plane_Load (reference_file p) = Some plane_reference
   ∧ is_int (k_param p) ∧ fits plane_reference ∧ k_param p < 1)
  ∧ (run_Z plane_Load p).1 = Exited
  ∧ Forall (λ e, computes e = false ∧ writes e = false) (run_Z plane_Load p).2.
Proof.
  intros p. split; [by vm_compute |].
  destruct (configuration_error_halts_first plane_Load BinarySpaceTree_Z
              AllkNN_Search p) as [Hbad _].
  apply (Hbad plane_reference); [reflexivity | by vm_compute | by vm_compute |].
  left. by vm_compute.
Defined.

Lemma engine_leaf_size_is_fixed_witness :
  (plane_Load (reference_file plane_self_search) = Some plane_reference
   ∧ 0 <= leaf_size plane_self_search
   ∧ query_file plane_self_search = "")
  ∧ TreeBuilt plane_reference 1 ∈ (run_Z plane_Load plane_self_search).2
  ∧ ∃ a, EngineBuilt a ∈ (run_Z plane_Load plane_self_search).2
         ∧ leafSize a = 20.
Proof.
  split; [by vm_compute |].
  destruct (engine_leaf_size_is_fixed plane_Load BinarySpaceTree_Z
              AllkNN_Search plane_self_search) as [_ Hbuilt].
  apply (Hbuilt plane_reference); by vm_compute.
Defined.

(** ** The tree construction on integer points *)

Lemma init_contains (p : list Z) :
  HRect_Contains ((λ x, (x, x)) <$> p) p = true.
Proof.
  induction p as [| x p IH]; simpl; [done |].
  rewrite !Z.leb_refl. exact IH.
Qed.

Lemma widen_length (b : HRectBound) (p : list Z) :
  length p = length b → length (widen b p) = length b.
Proof. intros Hp. unfold widen. by rewrite length_zip_with_l_eq. Qed.

Lemma widen_contains (b : HRectBound) (p q : list Z) :
  length p = length b →
  HRect_Contains b q = true → HRect_Contains (widen b p) q = true.
Proof.
  revert p q. induction b as [| [lo hi] b IH]; intros p q Hp.
  - by destruct p.
  - destruct p as [| x p]; [done |]. destruct q as [| y q]; [done |].
    simpl. rewrite !andb_true_iff, !Z.leb_le. intros [[Hlo Hhi] Hc].
    split; [lia |]. apply IH; [| done]. simpl in Hp. lia.
Qed.

Lemma widen_contains_new (b : HRectBound) (p : list Z) :
  length p = length b → HRect_Contains (widen b p) p = true.
Proof.
  revert p. induction b as [| [lo hi] b IH]; intros p Hp.
  - by destruct p.
  - destruct p as [| x p]; [done |]. simpl.
    rewrite !andb_true_iff, !Z.leb_le. split; [lia |].
    apply IH. simpl in Hp. lia.
Qed.

Lemma foldl_widen_contains (rest : list (list Z)) :
  ∀ (b : HRectBound),
    Forall (λ p, length p = length b) rest →
    (∀ q, HRect_Contains b q = true →
          HRect_Contains (foldl widen b rest) q = true)
    ∧ (∀ q, q ∈ rest → HRect_Contains (foldl widen b rest) q = true).
Proof.
  induction rest as [| p rest IH]; intros b Hlen.
  - split; [done |]. intros q Hq. by apply elem_of_nil in Hq.
  - apply Forall_cons in Hlen as [Hp Hrest]. simpl.
    destruct (IH (widen b p)) as [Hmono Hmem].
    { eapply Forall_impl; [exact Hrest |]. simpl. intros q ->.
      by rewrite widen_length. }
    split.
    + intros q Hq. by apply Hmono, widen_contains.
    + intros q Hq. apply elem_of_cons in Hq as [-> | Hq]; [| by apply Hmem].
      by apply Hmono, widen_contains_new.
Qed.

(** The volume computed over a point range contains each of its points. *)
Lemma bounding_contains d (pts : list (list Z)) p :
  Forall (λ p, length p = d) pts → p ∈ pts →
  HRect_Contains (bounding pts) p = true.
Proof.
  intros Hlen Hp. destruct pts as [| p0 rest]; [by apply elem_of_nil in Hp |].
  apply Forall_cons in Hlen as [Hp0 Hrest]. simpl.
  destruct (foldl_widen_contains rest ((λ x, (x, x)) <$> p0)) as [Hmono Hmem].
  { eapply Forall_impl; [exact Hrest |]. simpl. intros q ->.
    by rewrite length_fmap. }
  apply elem_of_cons in Hp as [-> | Hp]; [| by apply Hmem].
  apply Hmono, init_contains.
Qed.

Lemma Leaf_well_formed d (G : list (list Z)) begin (pts : list (list Z)) :
  Forall (λ p, length p = d) pts →
  (∀ i p, pts !! i = Some p → G !! (begin + i)%nat = Some p) →
  well_formed G (Leaf (bounding pts) begin (length pts)) = true.
Proof.
  intros Hlen HG. simpl. rewrite andb_true_r.
  apply forallb_forall. intros i Hi.
  apply list_elem_of_In, elem_of_seq in Hi.
  destruct (lookup_lt_is_Some_2 pts (i - begin)) as [p Hp]; [lia |].
  pose proof (HG _ _ Hp) as HGi.
  replace (begin + (i - begin))%nat with i in HGi by lia. rewrite HGi.
  eapply bounding_contains; [done |]. by eapply list_elem_of_lookup_2.
Qed.

(** [Build] returns the points it was given in another order, a tree over
    the range they occupy, and the tree is well formed over any point list
    that holds the returned points at that range. *)
Lemma Build_spec d fuel leaf :
  ∀ begin (pts : list (list Z * nat)),
    Forall (λ p, length p = d) pts.*1 →
    (Build fuel leaf begin pts).2 ≡ₚ pts
    ∧ Begin (Build fuel leaf begin pts).1 = begin
    ∧ Count (Build fuel leaf begin pts).1 = length pts
    ∧ ∀ G : list (list Z),
        (∀ i p, (Build fuel leaf begin pts).2.*1 !! i = Some p →
                G !! (begin + i)%nat = Some p) →
        well_formed G (Build fuel leaf begin pts).1 = true.
Proof.
  induction fuel as [| fuel IH]; intros begin pts Hlen.
  - cbn [Build fst snd Begin Count]. split; [done |]. split; [done |].
    split; [done |]. intros G HG.
    rewrite <- (length_fmap fst pts). by eapply Leaf_well_formed.
  - cbn [Build]. destruct (widest (bounding pts.*1)) as [dim width].
    destruct (_ || _).
    { cbn [fst snd Begin Count]. split; [done |]. split; [done |].
      split; [done |]. intros G HG. rewrite <- (length_fmap fst pts).
      by eapply Leaf_well_formed. }
    destruct (default (0, 0) (bounding pts.*1 !! dim)) as [lo hi].
    set (P := λ p : list Z * nat, 2 * default 0 (p.1 !! dim) < lo + hi).
    change (filter (λ p : list Z * nat, ¬ 2 * default 0 (p.1 !! dim) < lo + hi)
              pts) with (filter (λ p, ¬ P p) pts).
    pose proof (filter_app_complement P pts) as Hsplit.
    assert (∀ l : list (list Z * nat),
              (∀ x, x ∈ l → x ∈ pts) → Forall (λ p, length p = d) l.*1)
      as Hsub.
    { intros l Hl. apply Forall_fmap, Forall_forall. intros x Hx.
      apply Forall_fmap in Hlen. rewrite Forall_forall in Hlen.
      by apply Hlen, Hl. }
    destruct (IH begin (filter P pts)) as (Hpl & Hbl & Hcl & Hwl).
    { apply Hsub. intros x Hx. by apply list_elem_of_filter in Hx as [_ ?]. }
    destruct (IH (begin + length (filter P pts))%nat
                (filter (λ p, ¬ P p) pts)) as (Hpr & Hbr & Hcr & Hwr).
    { apply Hsub. intros x Hx. by apply list_elem_of_filter in Hx as [_ ?]. }
    destruct (Build fuel leaf begin (filter P pts)) as [l lpts].
    destruct (Build fuel leaf (begin + length (filter P pts))
                (filter (λ p, ¬ P p) pts)) as [r rpts].
    cbn [fst snd Begin Count] in *.
    assert (lpts ++ rpts ≡ₚ pts) as Hperm by (by rewrite Hpl, Hpr).
    assert (length lpts = length (filter P pts)) as Hll by (by rewrite Hpl).
    split; [done |]. split; [done |].
    split; [rewrite Hcl, Hcr, <- length_app; by rewrite Hsplit |].
    intros G HG. cbn [well_formed Bound_of Begin Count].
    rewrite Hbl, Hcl, Hbr, Hcr, Nat.eqb_refl.
    rewrite Hwl, Hwr; cbn [andb].
    + rewrite andb_true_r. apply forallb_forall. intros i Hi.
      apply list_elem_of_In, elem_of_seq in Hi.
      assert (length (lpts ++ rpts) = length pts) as Hlp by (by rewrite Hperm).
      rewrite <- Hpl, <- Hpr, <- length_app in Hi.
      destruct (lookup_lt_is_Some_2 (lpts ++ rpts).*1 (i - begin)) as [p Hp];
        [rewrite length_fmap; lia |].
      pose proof (HG _ _ Hp) as HGi.
      replace (begin + (i - begin))%nat with i in HGi by lia. rewrite HGi.
      eapply bounding_contains; [exact Hlen |].
      rewrite <- Hperm. by eapply list_elem_of_lookup_2.
    + intros i p Hp. rewrite <- Hll, <- Nat.add_assoc. apply HG.
      rewrite fmap_app, lookup_app_r; rewrite length_fmap; [| lia].
      by replace (length lpts + i - length lpts)%nat with i by lia.
    + intros i p Hp. apply HG. rewrite fmap_app.
      by apply lookup_app_l_Some.
Qed.

Lemma lookup_zip_seq {A} (l : list A) n x j :
  (x, j) ∈ zip l (seq 0 n) → l !! j = Some x.
Proof.
  intros Hin. apply elem_of_lookup_zip_with in Hin as (i & y & k & Heq & Hy & Hk).
  injection Heq as -> ->. apply lookup_seq in Hk as [-> _]. done.
Qed.

(** The constructor on a well-shaped matrix: the recorded permutation is a
    bijection on the column indices, column [i] of the reordered matrix is
    column [oldFromNew[i]] of the original, and the tree is well formed
    over the reordered matrix and covers it. *)
Lemma BinarySpaceTree_Z_spec (data : Mat Z) (leaf : Z) :
  well_shaped data →
  let built := BinarySpaceTree_Z data leaf in
  built.2 ≡ₚ seq 0 (n_cols data)
  ∧ n_cols built.1.2 = n_cols data
  ∧ (∀ i j, built.2 !! i = Some j →
            columns built.1.2 !! i = columns data !! j)
  ∧ well_formed (columns built.1.2) built.1.1 = true
  ∧ covers built.1.1 (n_cols built.1.2) = true.
Proof.
  intros Hshape. unfold BinarySpaceTree_Z.
  set (pts := zip (columns data) (seq 0 (n_cols data))).
  assert (length pts = n_cols data) as Hpts.
  { unfold pts, n_cols. rewrite length_zip_with_l_eq; [done |].
    by rewrite length_seq. }
  destruct (Build_spec (n_rows data) (n_cols data) (Z.to_nat leaf) 0 pts)
    as (Hperm & Hbegin & Hcount & Hwf).
  { unfold pts. rewrite fst_zip; [done |]. rewrite length_seq. done. }
  destruct (Build (n_cols data) (Z.to_nat leaf) 0 pts) as [tree pts'].
  simpl in *.
  assert (length pts' = n_cols data) as Hpts' by (by rewrite Hperm).
  split.
  { rewrite Hperm. unfold pts. rewrite snd_zip; [done |].
    rewrite length_seq. done. }
  split; [unfold n_cols; simpl; by rewrite length_fmap |].
  split.
  { intros i j Hj. rewrite list_lookup_fmap in Hj. rewrite list_lookup_fmap.
    destruct (pts' !! i) as [[p j'] |] eqn:Hi; [| done].
    simpl in Hj |- *. injection Hj as ->.
    apply list_elem_of_lookup_2 in Hi. rewrite Hperm in Hi.
    symmetry. by eapply lookup_zip_seq. }
  split; [by apply Hwf |].
  unfold covers, n_cols. simpl.
  by rewrite Hbegin, Hcount, length_fmap, Hpts, Hpts', !Nat.eqb_refl.
Qed.

(** ** The intended composition

    What the executable would save if the remapping loop were given, on both
    sides, the permutation that the construction of the reference tree
    records, and the save statements the remapped matrices: each original
    point with its exact neighbours under their original indices. *)

Section RelabelFacts.
Context {R Bound : Type} `{Geometry R Bound}.

Lemma relabel_ascending perm (res : list (R * nat)) :
  ascending res → ascending (relabel perm res).
Proof.
  unfold ascending, relabel. induction 1 as [| c res Hs IH Hall]; simpl.
  - constructor.
  - constructor; [done |]. by apply Forall_fmap.
Qed.

(** An exact answer over the reordered reference set, relabelled, is an
    exact answer over the original reference set. *)
Lemma exact_knn_relabel k (refs refs' : list (list R)) perm q res :
  perm ≡ₚ seq 0 (length refs) → length refs' = length refs →
  (∀ i j, perm !! i = Some j → refs' !! i = refs !! j) →
  exact_knn k refs' q res → exact_knn k refs q (relabel perm res).
Proof.
  intros Hperm Hsame Hcol (Hlen & Hs & Hnd & Hin & Hout).
  assert (NoDup perm) as Hndp by (rewrite Hperm; apply NoDup_seq).
  assert (length perm = length refs) as Hlp
    by (by rewrite Hperm, length_seq).
  assert (∀ d i, (d, i) ∈ res →
            ∃ j r, perm !! i = Some j ∧ refs !! j = Some r
                   ∧ d = Evaluate q r) as Hin'.
  { intros d i Hc. destruct (Hin d i Hc) as (r & Hr & ->).
    destruct (perm !! i) as [j |] eqn:Hj.
    - exists j, r. by rewrite <- (Hcol i j Hj).
    - apply lookup_ge_None in Hj. apply lookup_lt_Some in Hr. lia. }
  split; [unfold relabel; by rewrite length_fmap |].
  split; [by apply relabel_ascending |].
  split.
  { unfold relabel. rewrite <- list_fmap_compose.
    replace (snd ∘ (λ c : R * nat, (c.1, default 0%nat (perm !! c.2))))
      with ((λ i, default 0%nat (perm !! i)) ∘ (snd : R * nat → nat)) by done.
    rewrite list_fmap_compose. apply NoDup_fmap_2_strong; [| done].
    intros i i' Hi Hi' Heq.
    apply list_elem_of_fmap in Hi as ([d x] & -> & Hc).
    apply list_elem_of_fmap in Hi' as ([d' x'] & -> & Hc'). simpl in *.
    destruct (Hin' d x Hc) as (j & _ & Hj & _).
    destruct (Hin' d' x' Hc') as (j' & _ & Hj' & _).
    rewrite Hj, Hj' in Heq. simpl in Heq. subst j'.
    by eapply NoDup_lookup. }
  split.
  { intros d j Hc. unfold relabel in Hc.
    apply list_elem_of_fmap in Hc as ([d' i] & [= -> ->] & Hc). simpl.
    destruct (Hin' d' i Hc) as (j & r & Hj & Hr & ->).
    rewrite Hj. simpl. by exists r. }
  intros j r Hr Hnot c Hc. unfold relabel in Hc.
  apply list_elem_of_fmap in Hc as (c' & -> & Hc'). simpl.
  assert (j ∈ perm) as Hjp.
  { rewrite Hperm. apply elem_of_seq. apply lookup_lt_Some in Hr. lia. }
  apply list_elem_of_lookup in Hjp as [i Hi].
  apply (Hout i r); [by rewrite (Hcol i j Hi) | | done].
  intros Hires. apply Hnot. unfold relabel. rewrite <- list_fmap_compose.
  apply list_elem_of_fmap in Hires as ([d x] & -> & Hx). simpl in Hi.
  apply list_elem_of_fmap. exists (d, x). split; [| done].
  simpl. by rewrite Hi.
Qed.

Lemma Finalize_length k (cs : list (R * nat)) : length (Finalize k cs) = k.
Proof.
  unfold Finalize. rewrite length_take, length_app, length_replicate. lia.
Qed.

End RelabelFacts.

Lemma intended_remap_restores_original_order (data : Mat Z) (leaf : Z)
    (k : nat) (naive single : bool) :
  well_shaped data → (k ≤ n_cols data)%nat →
  let built := BinarySpaceTree_Z data leaf in
  let result :=
    AllkNN_Search (mkAllkNN built.1.2 None naive single 20 built.1.1 None)
      (Z.of_nat k) in
  ∃ distancesOut neighborsOut,
    remap built.2 built.2 result.2 result.1 = Done (distancesOut, neighborsOut)
    ∧ ∀ j q, columns data !! j = Some q →
        ∃ res, exact_knn k (columns data) q res
               ∧ columns distancesOut !! j = Some (Some <$> res.*1)
               ∧ columns neighborsOut !! j = Some (Some <$> res.*2).
Proof.
  intros Hshape Hk built result.
  destruct (BinarySpaceTree_Z_spec data leaf Hshape)
    as (Hperm & Hn & Hcol & Hwf & Hcov).
  fold built in Hperm, Hn, Hcol, Hwf, Hcov.
  set (refs := columns built.1.2) in *.
  assert (length refs = n_cols data) as Hrefs by exact Hn.
  set (found := SearchEngine (SelectMode naive single) k refs refs
                  built.1.1 built.1.1).
  assert (result = (mkMat k ((λ cs, cs.*2) <$> (Finalize k <$> found)),
                    mkMat k ((λ cs, cs.*1) <$> (Finalize k <$> found))))
    as Hresult.
  { unfold result, AllkNN_Search. simpl. by rewrite Nat2Z.id. }
  assert (∀ i q, refs !! i = Some q →
            ∃ res, (Finalize k <$> found) !! i = Some res
                   ∧ exact_knn k refs q res) as Hexact.
  { intros i q Hq.
    assert (∃ res, found !! i = Some res ∧ exact_knn k refs q res)
      as (res & Hres & Hex).
    { apply (@SearchEngine_exact Z HRectBound Z_Geometry Z_GeometryLaws);
        try done; by rewrite Hrefs. }
    exists res. rewrite list_lookup_fmap, Hres. simpl.
    rewrite (@Finalize_full Z HRectBound Z_Geometry); [done |].
    by destruct Hex. }
  assert (length (Finalize k <$> found) = n_cols data) as Hfound.
  { rewrite length_fmap. unfold found.
    destruct (SelectMode naive single); simpl.
    - unfold NaiveSearch. by rewrite length_fmap.
    - unfold SingleTreeSearch. by rewrite length_fmap.
    - destruct (decide (length (DualTreeSearch k refs refs built.1.1 built.1.1)
                        = length refs)) as [-> | Hne]; [done |].
      exfalso. apply Hne. unfold DualTreeSearch.
      destruct (@DualTree_spec Z HRectBound Z_Geometry Z_GeometryLaws
                  k refs refs built.1.1 built.1.1 [] built.1.1
                  (mkDualState (replicate (length refs) []) ∅)
                  (λ _ _, False)) as [[Hlen _] _]; try done.
      + split; [simpl; by rewrite length_replicate |].
        intros qj q' Hq'. exists []. split; [| apply accounts_nil].
        simpl. apply lookup_replicate_2. by eapply lookup_lt_Some.
      + tauto. }
  rewrite Hresult. simpl.
  destruct (remap_restores_order built.2 built.2
              (mkMat k ((λ cs, cs.*1) <$> (Finalize k <$> found)))
              (mkMat k ((λ cs, cs.*2) <$> (Finalize k <$> found))))
    as (dOut & nOut & Hremap & Hset).
  - unfold n_cols. simpl. by rewrite length_fmap, Hfound.
  - unfold n_cols, well_shaped. simpl. rewrite !length_fmap.
    split; [done |]. split; [done |].
    apply Forall_fmap, Forall_fmap, Forall_forall. intros cs _. simpl.
    by rewrite length_fmap, (@Finalize_length Z HRectBound Z_Geometry).
  - simpl. apply Forall_fmap, Forall_lookup. intros i res Hres. simpl.
    destruct (lookup_lt_is_Some_2 refs i) as [q Hq].
    { apply lookup_lt_Some in Hres. rewrite Hfound in Hres. by rewrite Hrefs. }
    destruct (Hexact i q Hq) as (res' & Hres' & _ & _ & _ & Hin & _).
    assert (res' = res) as -> by congruence.
    apply Forall_fmap, Forall_forall. intros [d x] Hx. simpl.
    destruct (Hin d x Hx) as (r & Hr & _).
    apply lookup_lt_Some in Hr. rewrite Hperm, length_seq. by rewrite <- Hrefs.
  - exists dOut, nOut. split; [done |]. intros j q Hq.
    assert (j ∈ built.2) as Hj.
    { rewrite Hperm. apply elem_of_seq. apply lookup_lt_Some in Hq.
      unfold n_cols. lia. }
    apply list_elem_of_lookup in Hj as [i Hi].
    assert (refs !! i = Some q) as Hqi by (by rewrite (Hcol i j Hi)).
    destruct (Hexact i q Hqi) as (res & Hres & Hex).
    exists (relabel built.2 res).
    split.
    { eapply exact_knn_relabel; [| exact Hrefs | exact Hcol | exact Hex].
      by rewrite Hperm. }
    destruct (Hset i j res.*1 res.*2 Hi) as [Hd Hnb].
    { simpl. by rewrite list_lookup_fmap, Hres. }
    { simpl. by rewrite list_lookup_fmap, Hres. }
    rewrite Hd, Hnb. split.
    + unfold relabel. by rewrite <- !list_fmap_compose.
    + f_equal. unfold relabel. rewrite <- !list_fmap_compose.
      apply list_fmap_ext. intros n [d x] Hx. simpl.
      destruct Hex as (_ & _ & _ & Hin & _).
      apply list_elem_of_lookup_2 in Hx.
      destruct (Hin d x Hx) as (r & Hr & _).
      destruct (lookup_lt_is_Some_2 built.2 x) as [y Hy]; [| by rewrite Hy].
      apply lookup_lt_Some in Hr. rewrite Hperm, length_seq.
      by rewrite <- Hrefs.
Qed.

(** ** More on the remapping loop *)

(** A loop that completes has kept every invariant its body keeps, and its
    body has completed at every index, from a state with the invariant. *)
Lemma for_loop_Done {St} (I : St → Prop) (body : nat → St → outcome St) :
  (∀ i s s', I s → body i s = Done s' → I s') →
  ∀ cnt from s s',
    I s → for_loop from cnt body s = Done s' →
    I s' ∧ ∀ i, (from ≤ i < from + cnt)%nat →
             ∃ si si', I si ∧ body i si = Done si'.
Proof.
  intros Hbody. induction cnt as [| cnt IH]; intros from s s' Hs; simpl.
  - intros [= <-]. split; [done | lia].
  - destruct (body from s) as [s1 | | e] eqn:Hstep; simpl; [| done | done].
    intros Hloop.
    destruct (IH (S from) s1 s' (Hbody _ _ _ Hs Hstep) Hloop) as [Hs' Hrest].
    split; [done |]. intros i Hi.
    destruct (decide (i = from)) as [-> | Hne]; [by exists s, s1 |].
    apply Hrest. lia.
Qed.

Section RemapBounds.
Context {R : Type}.
Variables (oldFromNewQueries oldFromNewRefs : list nat).
Variable distances : Mat R.
Variable neighbors : Mat nat.

(** A write keeps the size of the matrix. *)
Lemma set_at_shape (name : string) (m m' : Mat (option nat)) j i x :
  set_at name m j i x = Done m' →
  n_rows m' = n_rows m ∧ n_cols m' = n_cols m
  ∧ (well_shaped m → well_shaped m').
Proof.
  unfold set_at. destruct (columns m !! i) as [c |] eqn:Hc; [| done].
  destruct (decide (j < length c)%nat); [| done]. intros [= <-].
  unfold n_cols, well_shaped. simpl. rewrite length_insert.
  split; [done |]. split; [done |]. intros Hshape.
  apply Forall_insert; [done |]. rewrite length_insert.
  by apply (Forall_lookup_1 _ _ _ _ Hshape Hc).
Qed.

Lemma remap_entry_shape i j (m m' : Mat (option nat)) :
  remap_entry oldFromNewQueries oldFromNewRefs neighbors i j m = Done m' →
  n_rows m' = n_rows m ∧ n_cols m' = n_cols m
  ∧ (well_shaped m → well_shaped m').
Proof.
  unfold remap_entry.
  destruct (vector_at _ oldFromNewQueries i) as [q | |]; simpl; [| done | done].
  destruct (at_ _ neighbors j i) as [x | |]; simpl; [| done | done].
  destruct (vector_at _ oldFromNewRefs x) as [r | |]; simpl; [| done | done].
  apply set_at_shape.
Qed.

(** One pass of the outer loop keeps the sizes of both outputs. *)
Lemma remap_column_shape i out out' :
  sized_as distances neighbors out →
  remap_column oldFromNewQueries oldFromNewRefs distances neighbors i out
    = Done out' →
  sized_as distances neighbors out'.
Proof.
  intros ((Hdr & Hdc) & (Hnr & Hnc) & Hns & Hds). unfold remap_column.
  destruct (vector_at _ oldFromNewQueries i) as [q | |]; simpl; [| done | done].
  destruct (col _ distances i) as [c | |] eqn:Hc; simpl; [| done | done].
  unfold set_col.
  destruct (decide (q < n_cols out.1)%nat); simpl; [| done].
  destruct (for_loop 0 (n_rows distances) _ out.2) as [nOut | |] eqn:Hloop;
    simpl; [| done | done].
  intros [= <-].
  destruct (for_loop_Done
              (λ m : Mat (option nat),
                 n_rows m = n_rows neighbors ∧ n_cols m = n_cols neighbors
                 ∧ well_shaped m)
              (remap_entry oldFromNewQueries oldFromNewRefs neighbors i))
    with (cnt := n_rows distances) (from := 0%nat) (s := out.2) (s' := nOut)
    as [(Hr & Hc' & Hs) _]; try done.
  { intros j m m' (? & ? & ?) Hstep.
    destruct (remap_entry_shape _ _ _ _ Hstep) as (-> & -> & Hs). auto. }
  unfold sized_as, n_cols, well_shaped in *. simpl.
  rewrite length_insert.
  split; [done |]. split; [done |]. split; [done |].
  intros Hshape. apply Forall_insert; [by apply Hds |].
  rewrite length_fmap, Hdr. unfold col in Hc.
  destruct (columns distances !! i) as [c0 |] eqn:Hc0; [| done].
  injection Hc as <-. by apply (Forall_lookup_1 _ _ _ _ Hshape Hc0).
Qed.

Lemma uninitialised_sized :
  sized_as distances neighbors
    (uninitialised (T := R) (n_rows distances) (n_cols distances),
     uninitialised (T := nat) (n_rows neighbors) (n_cols neighbors)).
Proof.
  unfold sized_as, uninitialised, n_cols, well_shaped. simpl.
  rewrite !length_replicate.
  split; [done |]. split; [done |].
  split; [apply Forall_replicate; by rewrite length_replicate |].
  intros _. apply Forall_replicate. by rewrite length_replicate.
Qed.

Lemma remap_sized out :
  remap oldFromNewQueries oldFromNewRefs distances neighbors = Done out →
  sized_as distances neighbors out.
Proof.
  unfold remap. intros Hloop.
  by destruct (for_loop_Done (sized_as distances neighbors) _
                 remap_column_shape _ _ _ _ uninitialised_sized Hloop).
Qed.

(** X13.  Given a permutation of the query columns on the query side, and
    neighbour indices that are all inside the reference-side vector, the
    loop nest completes: output column [oldFromNewQueries[i]] is column [i]
    of the input, with each neighbour index translated through
    [oldFromNewRefs], and no entry of either output matrix is left
    uninitialised. *)
Theorem remap_inverts_query_permutation :
  oldFromNewQueries ≡ₚ seq 0 (n_cols distances) →
  n_cols neighbors = n_cols distances ∧ n_rows neighbors = n_rows distances
  ∧ well_shaped neighbors →
  Forall (Forall (λ x, x < length oldFromNewRefs)%nat) (columns neighbors) →
  ∃ distancesOut neighborsOut,
    remap oldFromNewQueries oldFromNewRefs distances neighbors
      = Done (distancesOut, neighborsOut)
    ∧ (∀ i q c cn,
         oldFromNewQueries !! i = Some q →
         columns distances !! i = Some c → columns neighbors !! i = Some cn →
         columns distancesOut !! q = Some (Some <$> c)
         ∧ columns neighborsOut !! q
           = Some ((λ x : nat, oldFromNewRefs !! x) <$> cn))
    ∧ Forall (Forall is_Some) (columns distancesOut)
    ∧ Forall (Forall is_Some) (columns neighborsOut).
Proof.
  intros Hperm Hshape Hrange.
  destruct (remap_restores_order oldFromNewQueries oldFromNewRefs distances
              neighbors Hperm Hshape Hrange)
    as (dOut & nOut & Hdone & Hset).
  exists dOut, nOut. split; [done |]. split; [done |].
  destruct (remap_sized _ Hdone) as ((_ & Hdc) & (_ & Hnc) & _).
  destruct Hshape as (Hcols & _ & _). simpl in Hdc, Hnc.
  assert (∀ q, (q < n_cols distances)%nat →
            ∃ i c cn, oldFromNewQueries !! i = Some q
                      ∧ columns distances !! i = Some c
                      ∧ columns neighbors !! i = Some cn) as Hsource.
  { intros q Hq.
    assert (q ∈ oldFromNewQueries) as Hin.
    { rewrite Hperm. apply elem_of_seq. lia. }
    apply list_elem_of_lookup in Hin as (i & Hi).
    assert (i < n_cols distances)%nat as Hlt.
    { apply lookup_lt_Some in Hi.
      by rewrite Hperm, length_seq in Hi. }
    destruct (lookup_lt_is_Some_2 (columns distances) i Hlt) as (c & Hc).
    destruct (lookup_lt_is_Some_2 (columns neighbors) i) as (cn & Hcn);
      [unfold n_cols in *; lia |].
    by exists i, c, cn. }
  split; apply Forall_lookup; intros q col' Hcol.
  - destruct (Hsource q) as (i & c & cn & Hi & Hc & Hcn).
    { apply lookup_lt_Some in Hcol. unfold n_cols in *. lia. }
    destruct (Hset i q c cn Hi Hc Hcn) as [Hd _].
    rewrite Hd in Hcol. injection Hcol as <-.
    apply Forall_fmap, Forall_true. by eexists.
  - destruct (Hsource q) as (i & c & cn & Hi & Hc & Hcn).
    { apply lookup_lt_Some in Hcol. unfold n_cols in *. lia. }
    destruct (Hset i q c cn Hi Hc Hcn) as [_ Hn].
    rewrite Hn in Hcol. injection Hcol as <-.
    apply Forall_fmap.
    eapply Forall_impl; [exact (Forall_lookup_1 _ _ _ _ Hrange Hcn) |].
    intros x Hx. by apply lookup_lt_is_Some_2.
Qed.

(** X14.  Whenever the loop nest completes, [distancesOut] has the rows
    and columns of [distances] and [neighborsOut] those of [neighbors];
    every column of [neighborsOut] has as many entries as the matrix has
    rows, and so has every column of [distancesOut] when [distances] is well
    shaped. *)
Theorem remap_keeps_dimensions distancesOut neighborsOut :
  remap oldFromNewQueries oldFromNewRefs distances neighbors
    = Done (distancesOut, neighborsOut) →
  (n_rows distancesOut = n_rows distances
   ∧ n_cols distancesOut = n_cols distances)
  ∧ (n_rows neighborsOut = n_rows neighbors
     ∧ n_cols neighborsOut = n_cols neighbors)
  ∧ well_shaped neighborsOut
  ∧ (well_shaped distances → well_shaped distancesOut).
Proof.
  intros Hdone. apply remap_sized in Hdone.
  destruct Hdone as (Hdistances & Hneighbors & Hcolumns & Hshape). simpl in *.
  done.
Qed.

End RemapBounds.

(** ** Every run of the program *)

Section RunFacts.
Context {R Tree : Type}.
Variable Load : string → option (Mat R).
Variable BinarySpaceTree : Mat R → Z → Tree * Mat R * list nat.
Variable Search : AllkNN R Tree → Z → Mat nat * Mat R.

Abbreviation k_of p := (size_t_of_int (k_param p)).

(** The lines and the events of a run, by the statement that adds them. *)
Abbreviation reference_not_found p :=
  (Logged Fatal [Str "Reference file "; Str (reference_file p);
                 Str "not found."; Endl] : event R Tree).
Abbreviation reference_loaded p :=
  (Logged Info [Str "Loaded reference data from "; Str (reference_file p);
                Endl] : event R Tree).
Abbreviation invalid_k p m :=
  [Logged Fatal [Str "Invalid k: "; Num (k_of p);
                 Str "; must be greater than 0 and less "];
   Logged Fatal [Str "than the number of reference points ("];
   Logged Fatal [Num (Z.of_nat (n_cols m)); Str ")."; Endl] : event R Tree].
Abbreviation invalid_leaf_size p :=
  (Logged Fatal [Str "Invalid leaf size: "; Num (leaf_size p);
                 Str ".  Must be greater than or equal to 0."; Endl]
   : event R Tree).
Abbreviation query_not_found p :=
  (Logged Fatal [Str "Query file "; Str (query_file p); Str " not found";
                 Endl] : event R Tree).
Abbreviation checked p :=
  (reference_loaded p
   :: (if single_mode p && naive_flag p then [single_mode_warning] else [])).
Abbreviation timed_build data p :=
  [TimerStart "tree_building"; TreeBuilt data (leaf_size p);
   TimerStop "tree_building" : event R Tree].
Abbreviation reference_tree_built p m :=
  (checked p
   ++ Logged Info [Str "Building reference tree..."; Endl] :: timed_build m p).
Abbreviation self_engine p m :=
  (let built := BinarySpaceTree m (leaf_size p) in
   mkAllkNN built.1.2 None (naive_flag p) (single_mode p) 20 built.1.1 None).
Abbreviation query_engine p m qd :=
  (let built := BinarySpaceTree m (leaf_size p) in
   let qbuilt := BinarySpaceTree qd (leaf_size p) in
   mkAllkNN built.1.2 (Some qbuilt.1.2) (naive_flag p) (single_mode p) 20
     built.1.1 (Some qbuilt.1.1)).
Abbreviation searched p a :=
  [Logged Info [Str "Computing "; Num (k_of p); Str " nearest neighbors...";
                Endl];
   Searched a (k_of p) : event R Tree;
   Logged Info [Str "Neighbors computed."; Endl];
   Logged Info [Str "Re-mapping indices..."; Endl]].
Abbreviation saved p a :=
  [SavedDistances (distances_file p) (Search a (k_of p)).2;
   SavedNeighbors (neighbors_file p) (Search a (k_of p)).1 : event R Tree].
Abbreviation finish p a t :=
  (if decide (n_cols (Search a (k_of p)).2 = 0%nat)
   then (Done tt, t ++ searched p a ++ saved p a)
   else (Faulted (VectorIndex "oldFromNewQueries" 0 0), t ++ searched p a)).

(** Lines 155 to 182 with the vector [oldFromNewQueries] empty, as lines 101
    to 153 always leave it. *)
Lemma search_and_save_run p l t :
  oldFromNewQueries l = [] →
  search_and_save R Tree Search p l t = finish p (allknn l) t.
Proof.
  intros Hempty. unfold search_and_save, search, save_output.
  unfold mbind, mret, M_mbind, M_mret, M_bind, M_ret, log, emit, lift. simpl.
  destruct (Search (allknn l) (size_t_of_int (k_param p))) as [nb ds]. simpl.
  rewrite Hempty.
  destruct (decide (n_cols ds = 0%nat)) as [Hz | Hnz].
  - unfold remap. rewrite Hz. simpl. by rewrite <- !app_assoc.
  - rewrite remap_without_query_permutation by done. simpl.
    by rewrite <- !app_assoc.
Qed.

(** The condition of line 81 fails exactly when k is in range. *)
Lemma k_accepted p (m : Mat R) :
  (k_of p <=? 0) || (k_of p >=? Z.of_nat (n_cols m)) = false
  ↔ 0 < k_of p < Z.of_nat (n_cols m).
Proof. rewrite orb_false_iff, Z.leb_gt, Z.geb_leb, Z.leb_gt. lia. Qed.

(** The six ways through [main]: no reference file; k out of range; a
    negative leaf size; no query file where one is named; a self-search; a
    search with a query set. *)
Lemma run_cases p :
  let run_p := run R Tree Load BinarySpaceTree Search p in
  let valid_k m := 0 < k_of p < Z.of_nat (n_cols m) in
  (Load (reference_file p) = None
   ∧ run_p = (Exited, [reference_not_found p]))
  ∨ (∃ m, Load (reference_file p) = Some m ∧ ¬ valid_k m
       ∧ run_p = (Exited, reference_loaded p :: invalid_k p m))
  ∨ (∃ m, Load (reference_file p) = Some m ∧ valid_k m ∧ leaf_size p < 0
       ∧ run_p = (Exited, [reference_loaded p; invalid_leaf_size p]))
  ∨ (∃ m, Load (reference_file p) = Some m ∧ valid_k m ∧ 0 <= leaf_size p
       ∧ query_file p ≠ "" ∧ Load (query_file p) = None
       ∧ run_p = (Exited, reference_tree_built p m ++ [query_not_found p]))
  ∨ (∃ m, Load (reference_file p) = Some m ∧ valid_k m ∧ 0 <= leaf_size p
       ∧ query_file p = ""
       ∧ run_p = finish p (self_engine p m)
                   (reference_tree_built p m
                    ++ [EngineBuilt (self_engine p m);
                        Logged Info [Str "Trees built."; Endl]]))
  ∨ (∃ m qd, Load (reference_file p) = Some m ∧ valid_k m ∧ 0 <= leaf_size p
       ∧ query_file p ≠ "" ∧ Load (query_file p) = Some qd
       ∧ run_p = finish p (query_engine p m qd)
                   (reference_tree_built p m
                    ++ Logged Info [Str "Query data loaded from ";
                                    Str (query_file p); Endl]
                    :: Logged Info [Str "Building query tree..."; Endl]
                    :: timed_build qd p
                    ++ [EngineBuilt (query_engine p m qd);
                        Logged Info [Str "Tree built."; Endl]])).
Proof.
  intros run_p valid_k. unfold run_p, valid_k, run, main. clear run_p valid_k.
  destruct (Load (reference_file p)) as [m |] eqn:HL.
  2: { left. split; [done |].
       unfold load_and_check, data_Load. by rewrite HL. }
  right.
  destruct ((k_of p <=? 0) || (k_of p >=? Z.of_nat (n_cols m))) eqn:Hk.
  { left. exists m. split; [done |].
    split; [rewrite <- k_accepted; congruence |].
    by rewrite (bind_exited _ _ _ _
                  (load_and_check_invalid_k Load p m [] HL Hk)). }
  right. pose proof (proj1 (k_accepted p m) Hk) as Hvalid.
  destruct (Z.ltb_spec (leaf_size p) 0) as [Hleaf | Hleaf].
  { left. exists m. do 3 (split; [done |]).
    by rewrite (bind_exited _ _ _ _
                  (load_and_check_invalid_leaf_size Load p m [] HL Hk Hleaf)). }
  right.
  rewrite (bind_done _ _ _ _ _ (load_and_check_passes Load p m [] HL Hk Hleaf)).
  simpl.
  match goal with |- context [(_ ≫= _) ?t] => set (t1 := t) end.
  destruct (decide (query_file p = "")) as [Hq | Hq].
  - right. left. exists m. do 4 (split; [done |]).
    pose proof (build_trees_self_search Load BinarySpaceTree p m t1 Hq) as HB.
    destruct (BinarySpaceTree m (leaf_size p)) as [[refTree m'] perm].
    cbv zeta in HB. rewrite (bind_done _ _ _ _ _ HB).
    rewrite search_and_save_run by done. simpl.
    by rewrite <- !app_assoc.
  - destruct (Load (query_file p)) as [qd |] eqn:HLq.
    + right. right. exists m, qd. do 5 (split; [done |]).
      pose proof (build_trees_with_query Load BinarySpaceTree p m qd t1 Hq HLq)
        as HB.
      destruct (BinarySpaceTree m (leaf_size p)) as [[refTree m'] perm].
      destruct (BinarySpaceTree qd (leaf_size p)) as [[qTree qd'] qperm].
      cbv zeta in HB. rewrite (bind_done _ _ _ _ _ HB).
      rewrite search_and_save_run by done. simpl.
      by rewrite <- !app_assoc.
    + left. exists m. do 5 (split; [done |]).
      destruct (build_trees_query_not_found Load BinarySpaceTree p m t1 Hq HLq)
        as (e & HB & ->).
      rewrite (bind_exited _ _ _ _ HB). by rewrite <- !app_assoc.
Qed.

Ltac run_cases_of p :=
  let m := fresh "m" in
  let qd := fresh "qd" in
  let HL := fresh "HL" in
  let Hk := fresh "Hk" in
  let Hleaf := fresh "Hleaf" in
  let Hq := fresh "Hq" in
  let HLq := fresh "HLq" in
  let Hrun := fresh "Hrun" in
  destruct (run_cases p) as
    [ [HL Hrun]
    | [ (m & HL & Hk & Hrun)
      | [ (m & HL & Hk & Hleaf & Hrun)
        | [ (m & HL & Hk & Hleaf & Hq & HLq & Hrun)
          | [ (m & HL & Hk & Hleaf & Hq & Hrun)
            | (m & qd & HL & Hk & Hleaf & Hq & HLq & Hrun) ]]]]];
  rewrite Hrun; clear Hrun;
  try match goal with
      | |- context [decide (n_cols ?ds = 0%nat)] =>
          destruct (decide (n_cols ds = 0%nat))
      end;
  cbn [fst snd].

(** Proof steps over the trace of a run: every event of an explicit trace,
    one event of it, the two flags. *)
Ltac each_event :=
  cbn [app]; repeat first [apply Forall_nil_2 | apply Forall_cons_2].
Ltac find_event :=
  cbn [app];
  repeat first [apply list_elem_of_here | apply list_elem_of_further].
Ltac flags p := destruct (single_mode p), (naive_flag p); cbn [andb].

(** What holds of every event of a trace holds of the one that is found
    in it. *)
Lemma event_inv (P : event R Tree → Prop) t e : Forall P t → e ∈ t → P e.
Proof. rewrite Forall_forall. auto. Qed.

Lemma event_found (e : event R Tree) (C : Prop) t :
  Forall (λ e', e = e' → C) t → e ∈ t → C.
Proof. intros Hall Hin. by apply (event_inv _ _ _ Hall Hin). Qed.

Ltac same_file :=
  repeat match goal with
         | H1 : Load ?f = Some ?a, H2 : Load ?f = Some ?b |- _ =>
             rewrite H1 in H2; injection H2 as <-
         | H1 : Load ?f = Some ?a, H2 : Load ?f = None |- _ =>
             rewrite H1 in H2; discriminate H2
         end.

(** X1.  When the reference file cannot be loaded the run ends on one
    fatal line, "Reference file <name>not found." (without a space before
    "not"), whatever k, the leaf size and the query file are: the file is
    looked at before any parameter is checked. *)
Theorem missing_reference_file_ends_run p :
  Load (reference_file p) = None →
  run R Tree Load BinarySpaceTree Search p
    = (Exited,
       [Logged Fatal [Str "Reference file "; Str (reference_file p);
                      Str "not found."; Endl]]).
Proof. intros HL0. run_cases_of p; congruence. Qed.


(** X3.  A reference set of no point or of one point lets no k pass:
    the run ends on the report on k for every value of --k, with no
    assumption on the range of k. *)
Theorem too_few_reference_points_reject_every_k p m :
  Load (reference_file p) = Some m → (n_cols m ≤ 1)%nat →
  run R Tree Load BinarySpaceTree Search p
    = (Exited,
       [Logged Info [Str "Loaded reference data from ";
                     Str (reference_file p); Endl];
        Logged Fatal [Str "Invalid k: "; Num (size_t_of_int (k_param p));
                      Str "; must be greater than 0 and less "];
        Logged Fatal [Str "than the number of reference points ("];
        Logged Fatal [Num (Z.of_nat (n_cols m)); Str ")."; Endl]]).
Proof. intros HL0 Hn. run_cases_of p; same_file; try done; lia. Qed.

(** X4.  A negative k is converted to [size_t] before it is checked and
    reported: the run ends on the report on k, and the value printed in
    "Invalid k: " is k + 2^64, not k. *)
Theorem negative_k_is_reported_wrapped p m :
  Load (reference_file p) = Some m → fits m →
  is_int (k_param p) → k_param p < 0 →
  run R Tree Load BinarySpaceTree Search p
    = (Exited,
       [Logged Info [Str "Loaded reference data from ";
                     Str (reference_file p); Endl];
        Logged Fatal [Str "Invalid k: "; Num (k_param p + 2 ^ 64);
                      Str "; must be greater than 0 and less "];
        Logged Fatal [Str "than the number of reference points ("];
        Logged Fatal [Num (Z.of_nat (n_cols m)); Str ")."; Endl]]).
Proof.
  intros HL0 Hfit Hint Hneg.
  assert (size_t_of_int (k_param p) = k_param p + 2 ^ 64) as Hwrap.
  { unfold size_t_of_int, size_t_modulus, is_int, int_min, int_max in *.
    symmetry. apply (Z.mod_unique _ _ (-1)); lia. }
  unfold fits, size_t_modulus, is_int, int_min in *.
  run_cases_of p; same_file; try lia.
  by rewrite Hwrap.
Qed.

(** X5.  The report on k is in the trace exactly when the reference set
    loads and the converted k is not strictly between 0 and the number of
    points; the report on the leaf size exactly when the reference set
    loads, k is in range and the leaf size is negative.  So k is checked
    first, and with both invalid only k is reported. *)
Theorem reports_name_the_failed_check p :
  let k := size_t_of_int (k_param p) in
  let trace := (run R Tree Load BinarySpaceTree Search p).2 in
  (Exists (λ e, reports_invalid_k e = true) trace
   ↔ ∃ m, Load (reference_file p) = Some m ∧ ¬ 0 < k < Z.of_nat (n_cols m))
  ∧ (Exists (λ e, reports_invalid_leaf_size e = true) trace
     ↔ ∃ m, Load (reference_file p) = Some m ∧ 0 < k < Z.of_nat (n_cols m)
         ∧ leaf_size p < 0).
Proof.
  intros k trace. unfold k, trace. clear k trace.
  assert (∀ (P : event R Tree → bool) t,
            Forall (λ e, P e = false) t → ¬ Exists (λ e, P e = true) t)
    as Hnone.
  { intros P t Hall Hex. apply Exists_exists in Hex as (e & He & HP).
    apply (event_inv _ _ _ Hall) in He. congruence. }
  run_cases_of p; split; split.
  all: try (intros Hex; exfalso; revert Hex; apply Hnone;
            flags p; by each_event).
  all: try (intros (m' & HL' & Hk'); same_file; try done; lia).
  all: try (intros (m' & HL' & Hk' & Hleaf'); same_file; try done; lia).
  - intros _. by exists m.
  - intros _. apply Exists_cons_tl, Exists_cons_hd. reflexivity.
  - intros _. by exists m.
  - intros _. apply Exists_cons_tl, Exists_cons_hd. reflexivity.
Qed.

(** X6.  The warning that --single_mode is ignored is logged exactly when
    both flags are given and the reference set loads, k is in range and the
    leaf size is not negative. *)
Theorem single_mode_warning_iff p :
  single_mode_warning ∈ (run R Tree Load BinarySpaceTree Search p).2
  ↔ single_mode p = true ∧ naive_flag p = true
    ∧ ∃ m, Load (reference_file p) = Some m
        ∧ 0 < size_t_of_int (k_param p) < Z.of_nat (n_cols m)
        ∧ 0 <= leaf_size p.
Proof.
  split.
  - apply event_found.
    run_cases_of p; flags p; each_event; try discriminate.
    all: intros _; do 2 (split; [done |]); by exists m.
  - intros (Hs & Hn & m' & HL' & Hk' & Hleaf').
    run_cases_of p; same_file; try lia; try tauto.
    all: rewrite Hs, Hn; find_event.
Qed.

(** X7.  The search is only ever called with the k of the command line
    (converted to [size_t]) strictly between 0 and the number of reference
    points, a leaf size that is not negative, a query file that loads when
    one is named, and on the engine that was constructed before. *)
Theorem search_needs_valid_parameters p a k :
  Searched a k ∈ (run R Tree Load BinarySpaceTree Search p).2 →
  k = size_t_of_int (k_param p)
  ∧ (∃ m, Load (reference_file p) = Some m ∧ 0 < k < Z.of_nat (n_cols m))
  ∧ 0 <= leaf_size p
  ∧ (query_file p ≠ "" → is_Some (Load (query_file p)))
  ∧ EngineBuilt a ∈ (run R Tree Load BinarySpaceTree Search p).2.
Proof.
  apply event_found.
  run_cases_of p; flags p; each_event; try discriminate.
  all: intros [= -> ->]; split; [done |]; split; [by exists m |].
  all: split; [done |]; split; [| find_event].
  all: try done; by rewrite ?HLq.
Qed.

(** X8.  The engine that [main] constructs holds the reference matrix as
    the tree construction has reordered it and the reference tree, the two
    flags as given (both may be set), and either no query set and no query
    tree (no query file) or the reordered query matrix and the query
    tree. *)
Theorem engine_is_built_from_the_trees p a :
  EngineBuilt a ∈ (run R Tree Load BinarySpaceTree Search p).2 →
  ∃ m, Load (reference_file p) = Some m
    ∧ referenceSet a = (BinarySpaceTree m (leaf_size p)).1.2
    ∧ referenceTree a = (BinarySpaceTree m (leaf_size p)).1.1
    ∧ naive a = naive_flag p ∧ singleMode a = single_mode p
    ∧ ((query_file p = "" ∧ querySet a = None ∧ queryTree a = None)
       ∨ (query_file p ≠ ""
          ∧ ∃ qd, Load (query_file p) = Some qd
              ∧ querySet a = Some (BinarySpaceTree qd (leaf_size p)).1.2
              ∧ queryTree a = Some (BinarySpaceTree qd (leaf_size p)).1.1)).
Proof.
  apply event_found.
  run_cases_of p; flags p; each_event; try discriminate.
  all: intros [= ->]; exists m; do 5 (split; [done |]).
  all: first [by left | right; split; [done |]; by exists qd].
Qed.


(** X10.  At line 153, whenever the tree building completes: the vector
    [oldFromNewQueries] is empty; [referenceData] is the reference matrix as
    reordered by its tree; [oldFromNewRefs] holds the permutation of the
    reference tree when there is no query file, and the permutation of the
    query tree when there is one. *)
Theorem tree_building_leaves_one_permutation p m t l t' :
  build_trees R Tree Load BinarySpaceTree p m t = (Done l, t') →
  oldFromNewQueries l = []
  ∧ referenceData l = (BinarySpaceTree m (leaf_size p)).1.2
  ∧ (query_file p = "" →
     oldFromNewRefs l = (BinarySpaceTree m (leaf_size p)).2)
  ∧ (query_file p ≠ "" →
     ∃ qd, Load (query_file p) = Some qd
       ∧ oldFromNewRefs l = (BinarySpaceTree qd (leaf_size p)).2).
Proof.
  destruct (decide (query_file p = "")) as [Hq | Hq].
  - pose proof (build_trees_self_search Load BinarySpaceTree p m t Hq) as HB.
    destruct (BinarySpaceTree m (leaf_size p)) as [[refTree m'] perm].
    cbv zeta in HB. rewrite HB. intros [= <- _].
    do 3 (split; [done |]). by intros [].
  - destruct (Load (query_file p)) as [qd |] eqn:HL.
    + pose proof (build_trees_with_query Load BinarySpaceTree p m qd t Hq HL)
        as HB.
      destruct (BinarySpaceTree m (leaf_size p)) as [[refTree m'] perm].
      destruct (BinarySpaceTree qd (leaf_size p)) as [[qTree qd'] qperm]
        eqn:Hqb.
      cbv zeta in HB. rewrite HB. intros [= <- _].
      do 3 (split; [done |]). intros _. exists qd. by rewrite Hqb.
    + destruct (build_trees_query_not_found Load BinarySpaceTree p m t Hq HL)
        as (e & -> & _).
      done.
Qed.

(** X11.  A run without a query file ends in one of three ways.  It
    exits, right after a fatal line that ends in [endl], with no engine
    constructed and no search done.  Or it stops in the remapping loop on
    [oldFromNewQueries[0]], read from an empty vector, the search having
    returned at least one column.  Or it completes, the search having
    returned no column. *)
Theorem self_search_ends_in_one_of_three_ways p :
  query_file p = "" →
  let k := size_t_of_int (k_param p) in
  let trace := (run R Tree Load BinarySpaceTree Search p).2 in
  match (run R Tree Load BinarySpaceTree Search p).1 with
  | Exited =>
      (∃ t msg, trace = t ++ [Logged Fatal msg] ∧ has_endl msg = true)
      ∧ Forall (λ e, match e with
                     | EngineBuilt _ | Searched _ _ => False
                     | _ => True
                     end) trace
  | Faulted f =>
      f = VectorIndex "oldFromNewQueries" 0 0
      ∧ ∃ a, Searched a k ∈ trace ∧ n_cols (Search a k).2 ≠ 0%nat
  | Done _ =>
      ∃ a, Searched a k ∈ trace ∧ n_cols (Search a k).2 = 0%nat
  end.
Proof.
  intros Hself k trace. unfold k, trace. clear k trace.
  run_cases_of p; try congruence.
  4-5: flags p; try (split; [done |]); eexists; (split; [find_event | done]).
  all: split; [| flags p; by each_event].
  - by eexists [], _.
  - by eexists [_; _; _], _.
  - by eexists [_], _.
Qed.


End RunFacts.

(** ** The mode the engine selects *)

Section ModeFacts.
Context {R Bound : Type} `{Geometry R Bound}.
Variable Load : string → option (Mat R).
Variable BinarySpaceTree : Mat R → Z → Node Bound * Mat R * list nat.

Abbreviation run_with p :=
  (run R (Node Bound) Load BinarySpaceTree AllkNN_Search p).
Abbreviation trace_with p :=
  (run R (Node Bound) Load BinarySpaceTree AllkNN_Search p).2.

#[local] Arguments AllkNN_Search : simpl never.

Lemma AllkNN_Search_naive d q (single : bool) leaf t u k :
  AllkNN_Search (mkAllkNN d q true single leaf t u) k =
  AllkNN_Search (mkAllkNN d q true false leaf t u) k.
Proof. reflexivity. Qed.

(** With the naive flag the engine compares every query point with every
    reference point: it consults neither the single-tree flag nor the
    trees. *)
Lemma AllkNN_Search_brute_force (a : AllkNN R (Node Bound)) k :
  naive a = true →
  let queries := match querySet a with
                 | Some q => columns q
                 | None => columns (referenceSet a)
                 end in
  let results :=
    Finalize (Z.to_nat k)
      <$> NaiveSearch (Z.to_nat k) (columns (referenceSet a)) queries in
  AllkNN_Search a k
  = (mkMat (Z.to_nat k) ((λ cs, cs.*2) <$> results),
     mkMat (Z.to_nat k) ((λ cs, cs.*1) <$> results)).
Proof. intros Hnaive. unfold AllkNN_Search. by rewrite Hnaive. Qed.

(** Proof steps: the case of a run that fits what is known of the command
    line, and the events of its trace. *)
Ltac fields :=
  repeat match goal with
         | p := mkParams _ _ _ _ _ _ _ _ |- _ => progress unfold p in *
         end;
  cbn [reference_file query_file distances_file neighbors_file leaf_size
       naive_flag single_mode k_param andb] in *.
Ltac same_loaded :=
  repeat match goal with
         | H1 : Load ?f = Some ?a, H2 : Load ?f = Some ?b |- _ =>
             rewrite H1 in H2; injection H2 as <-
         end.
Ltac clash := exfalso; same_loaded; first [congruence | lia | tauto].
Ltac cases_of p Hrun :=
  let m := fresh "m" in
  let qd := fresh "qd" in
  let HL := fresh "HL" in
  let Hk := fresh "Hk" in
  let Hleaf := fresh "Hleaf" in
  let Hq := fresh "Hq" in
  let HLq := fresh "HLq" in
  destruct (run_cases Load BinarySpaceTree AllkNN_Search p) as
    [ [HL Hrun]
    | [ (m & HL & Hk & Hrun)
      | [ (m & HL & Hk & Hleaf & Hrun)
        | [ (m & HL & Hk & Hleaf & Hq & HLq & Hrun)
          | [ (m & HL & Hk & Hleaf & Hq & Hrun)
            | (m & qd & HL & Hk & Hleaf & Hq & HLq & Hrun) ]]]]];
  fields; try clash; same_loaded.
Ltac columns_of Hrun :=
  match type of Hrun with
  | context [decide (n_cols ?ds = 0%nat)] =>
      destruct (decide (n_cols ds = 0%nat))
  | _ => idtac
  end.
Ltac every_event :=
  cbn [app]; repeat first [apply Forall_nil_2 | apply Forall_cons_2].
Ltac this_event :=
  cbn [app];
  repeat first [apply list_elem_of_here | apply list_elem_of_further].

(** C9.  With --naive and --single_mode, [main] warns and hands both flags
    to the engine as they are; the engine then selects naive mode.  A run
    with both flags that passes the checks logs the warning and performs a
    search.  Every search of such a run is on an engine that holds both
    flags, selects naive mode and returns the result of the brute-force
    comparison, which is also what the engine of the run with --naive alone
    returns; and that run searches on the same engine but for the flag.
    Without a query file the two runs end the same way and perform the same
    work: the same trees, the same search results, the same files.  The run
    with --naive alone never logs the warning. *)
Theorem naive_overrides_single_mode rf qf df nf leaf k :
  let both := mkParams rf qf df nf leaf true true k in
  let alone := mkParams rf qf df nf leaf true false k in
  let checks_pass :=
    (∃ m, Load rf = Some m ∧ 0 < size_t_of_int k < Z.of_nat (n_cols m))
    ∧ 0 <= leaf ∧ (qf ≠ "" → is_Some (Load qf)) in
  let without_single (a : AllkNN R (Node Bound)) :=
    mkAllkNN (referenceSet a) (querySet a) (naive a) false (leafSize a)
      (referenceTree a) (queryTree a) in
  let brute_force (a : AllkNN R (Node Bound)) (k' : Z) :=
    let queries := match querySet a with
                   | Some q => columns q
                   | None => columns (referenceSet a)
                   end in
    let results :=
      Finalize (Z.to_nat k')
        <$> NaiveSearch (Z.to_nat k') (columns (referenceSet a)) queries in
    (mkMat (Z.to_nat k') ((λ cs, cs.*2) <$> results),
     mkMat (Z.to_nat k') ((λ cs, cs.*1) <$> results)) in
  (checks_pass →
   single_mode_warning ∈ trace_with both
   ∧ (∃ a, Searched a (size_t_of_int k) ∈ trace_with both))
  ∧ (single_mode_warning ∉ trace_with alone)
  ∧ (∀ a k', Searched a k' ∈ trace_with both →
       naive a = true ∧ singleMode a = true
       ∧ Searched (without_single a) k' ∈ trace_with alone
       ∧ SelectMode (naive a) (singleMode a) = NaiveMode
       ∧ AllkNN_Search a k' = brute_force a k'
       ∧ AllkNN_Search (without_single a) k' = brute_force a k')
  ∧ (qf = "" →
     (run_with both).1 = (run_with alone).1
     ∧ omap performed (trace_with both) = omap performed (trace_with alone)).
Proof.
  intros both alone checks_pass without_single brute_force.
  unfold checks_pass, without_single, brute_force.
  clear checks_pass without_single brute_force.
  split; [| split; [| split]].
  - intros ((m' & HL' & Hk') & Hleaf' & HLq').
    cases_of both Hrun; rewrite Hrun; columns_of Hrun; cbn [fst snd].
    all: try (destruct HLq' as [? ?]; [done | congruence]).
    all: split; [this_event | eexists; this_event].
  - unfold not. apply event_found.
    cases_of alone Hrun; rewrite Hrun; columns_of Hrun; cbn [fst snd].
    all: by every_event.
  - intros a k'. apply event_found.
    cases_of both Hboth; rewrite Hboth; columns_of Hboth; cbn [fst snd].
    all: every_event; try discriminate.
    all: intros [= -> ->]; do 2 (split; [reflexivity |]).
    all: split;
      [| split; [reflexivity |];
         split; (refine (AllkNN_Search_brute_force _ _ _); reflexivity)].
    all: cases_of alone Halone; rewrite Halone; columns_of Halone;
      cbn [fst snd]; this_event.
  - intros ->.
    cases_of both Hboth; cases_of alone Halone;
      rewrite ?(AllkNN_Search_naive _ _ true) in Hboth;
      rewrite Hboth, Halone; columns_of Halone; cbn [fst snd];
      (split; [reflexivity |]).
    all: cbn [app omap performed naive singleMode SelectMode mbind
              option_bind].
    all: by rewrite ?(AllkNN_Search_naive _ _ true).
Qed.

End ModeFacts.

(** ** The further properties at concrete inputs *)

Lemma missing_reference_file_ends_run_witness :
  let p := mkParams "nowhere.csv" "" "distances.csv" "neighbors.csv"
             2 false false 2 in
  line_Load (reference_file p) = None
  ∧ run_Z line_Load p
    = (Exited,
       [Logged Fatal [Str "Reference file "; Str "nowhere.csv";
                      Str "not found."; Endl]]).
Proof.
  intros p.
  assert (line_Load (reference_file p) = None) as HL by reflexivity.
  split; [exact HL |].
  exact (missing_reference_file_ends_run line_Load BinarySpaceTree_Z
           AllkNN_Search p HL).
Defined.


Lemma too_few_reference_points_reject_every_k_witness :
  let p := mkParams "reference.csv" "" "distances.csv" "neighbors.csv"
             20 false false 1 in
  let one_point := mkMat 1 [[5]] in
  let Load := λ _ : string, Some one_point in
  (Load (reference_file p) = Some one_point ∧ (n_cols one_point ≤ 1)%nat)
  ∧ (run_Z Load p).1 = Exited.
Proof.
  intros p one_point Load.
  assert (Load (reference_file p) = Some one_point) as HL by reflexivity.
  assert (n_cols one_point ≤ 1)%nat as Hn by (vm_compute; constructor).
  split; [done |].
  exact (f_equal fst
           (too_few_reference_points_reject_every_k Load BinarySpaceTree_Z
              AllkNN_Search p one_point HL Hn)).
Defined.

Lemma negative_k_is_reported_wrapped_witness :
  let p := mkParams "reference.csv" "" "distances.csv" "neighbors.csv"
             2 false false (-1) in
  (line_Load (reference_file p) = Some line_reference ∧ fits line_reference
   ∧ is_int (k_param p) ∧ k_param p < 0)
  ∧ run_Z line_Load p
    = (Exited,
       [Logged Info [Str "Loaded reference data from "; Str "reference.csv";
                     Endl];
        Logged Fatal [Str "Invalid k: "; Num 18446744073709551615;
                      Str "; must be greater than 0 and less "];
        Logged Fatal [Str "than the number of reference points ("];
        Logged Fatal [Num 4; Str ")."; Endl]]).
Proof.
  intros p.
  assert (line_Load (reference_file p) = Some line_reference) as HL
    by reflexivity.
  assert (fits line_reference) as Hfit by (by vm_compute).
  assert (is_int (k_param p)) as Hint by (by vm_compute).
  assert (k_param p < 0) as Hneg by reflexivity.
  split; [done |].
  exact (negative_k_is_reported_wrapped line_Load BinarySpaceTree_Z
           AllkNN_Search p line_reference HL Hfit Hint Hneg).
Defined.

Lemma reports_name_the_failed_check_witness :
  let p := mkParams "reference.csv" "" "distances.csv" "neighbors.csv"
             20 false false 4 in
  (∃ m, plane_Load (reference_file p) = Some m
     ∧ ¬ 0 < size_t_of_int (k_param p) < Z.of_nat (n_cols m))
  ∧ Exists (λ e, reports_invalid_k e = true) (run_Z plane_Load p).2.
Proof.
  intros p.
  assert (∃ m, plane_Load (reference_file p) = Some m
            ∧ ¬ 0 < size_t_of_int (k_param p) < Z.of_nat (n_cols m)) as Hbad.
  { exists plane_reference. split; [reflexivity |]. by intros [_ ?]. }
  split; [exact Hbad |].
  pose proof (reports_name_the_failed_check plane_Load BinarySpaceTree_Z
                AllkNN_Search p) as Hreports.
  cbv zeta in Hreports. destruct Hreports as [[_ Hk] _].
  exact (Hk Hbad).
Defined.

Lemma single_mode_warning_iff_witness :
  let p := mkParams "reference.csv" "" "distances.csv" "neighbors.csv"
             2 true true 2 in
  (single_mode p = true ∧ naive_flag p = true
   ∧ ∃ m, line_Load (reference_file p) = Some m
       ∧ 0 < size_t_of_int (k_param p) < Z.of_nat (n_cols m)
       ∧ 0 <= leaf_size p)
  ∧ single_mode_warning ∈ (run_Z line_Load p).2.
Proof.
  intros p.
  assert (single_mode p = true ∧ naive_flag p = true
          ∧ ∃ m, line_Load (reference_file p) = Some m
              ∧ 0 < size_t_of_int (k_param p) < Z.of_nat (n_cols m)
              ∧ 0 <= leaf_size p) as Hboth.
  { do 2 (split; [reflexivity |]). exists line_reference.
    split; [reflexivity |]. by vm_compute. }
  split; [exact Hboth |].
  destruct (single_mode_warning_iff line_Load BinarySpaceTree_Z AllkNN_Search p)
    as [_ Hwarn].
  exact (Hwarn Hboth).
Defined.

Lemma search_needs_valid_parameters_witness :
  let p := line_self_search in
  let built := BinarySpaceTree_Z line_reference 2 in
  let a := mkAllkNN built.1.2 None false false 20 built.1.1 None in
  Searched a 2 ∈ (run_Z line_Load p).2
  ∧ EngineBuilt a ∈ (run_Z line_Load p).2.
Proof.
  intros p built a.
  assert (Searched a 2 ∈ (run_Z line_Load p).2) as Hin.
  { vm_compute.
    repeat first [apply list_elem_of_here | apply list_elem_of_further]. }
  split; [exact Hin |].
  destruct (search_needs_valid_parameters line_Load BinarySpaceTree_Z
              AllkNN_Search p a 2 Hin) as (_ & _ & _ & _ & Hengine).
  exact Hengine.
Defined.

Lemma engine_is_built_from_the_trees_witness :
  let p := line_with_query in
  let built := BinarySpaceTree_Z line_reference 2 in
  let qbuilt := BinarySpaceTree_Z line_query 2 in
  let a := mkAllkNN built.1.2 (Some qbuilt.1.2) false false 20
             built.1.1 (Some qbuilt.1.1) in
  EngineBuilt a ∈ (run_Z line_Load p).2
  ∧ ∃ m, line_Load (reference_file p) = Some m
      ∧ referenceSet a = (BinarySpaceTree_Z m (leaf_size p)).1.2
      ∧ referenceTree a = (BinarySpaceTree_Z m (leaf_size p)).1.1
      ∧ naive a = naive_flag p ∧ singleMode a = single_mode p
      ∧ ((query_file p = "" ∧ querySet a = None ∧ queryTree a = None)
         ∨ (query_file p ≠ ""
            ∧ ∃ qd, line_Load (query_file p) = Some qd
                ∧ querySet a = Some (BinarySpaceTree_Z qd (leaf_size p)).1.2
                ∧ queryTree a
                  = Some (BinarySpaceTree_Z qd (leaf_size p)).1.1)).
Proof.
  intros p built qbuilt a.
  assert (EngineBuilt a ∈ (run_Z line_Load p).2) as Hin.
  { vm_compute.
    repeat first [apply list_elem_of_here | apply list_elem_of_further]. }
  split; [exact Hin |].
  exact (engine_is_built_from_the_trees line_Load BinarySpaceTree_Z
           AllkNN_Search p a Hin).
Defined.

Lemma tree_building_leaves_one_permutation_witness :
  let p := line_with_query in
  let out := build_trees Z (Node HRectBound) line_Load BinarySpaceTree_Z p
               line_reference [] in
  ∃ l t, out = (Done l, t)
    ∧ oldFromNewQueries l = []
    ∧ referenceData l = (BinarySpaceTree_Z line_reference (leaf_size p)).1.2
    ∧ (query_file p = "" →
       oldFromNewRefs l = (BinarySpaceTree_Z line_reference (leaf_size p)).2)
    ∧ (query_file p ≠ "" →
       ∃ qd, line_Load (query_file p) = Some qd
         ∧ oldFromNewRefs l = (BinarySpaceTree_Z qd (leaf_size p)).2).
Proof.
  intros p out.
  assert (∃ l t, out = (Done l, t)) as (l & t & Hout).
  { eexists _, _. vm_compute. reflexivity. }
  exists l, t. split; [exact Hout |].
  exact (tree_building_leaves_one_permutation line_Load BinarySpaceTree_Z p
           line_reference [] l t Hout).
Defined.


Lemma remap_inverts_query_permutation_witness :
  let distances := mkMat 1 [[5]; [7]] in
  let neighbors := mkMat 1 [[0]; [1]]%nat in
  let oldFromNewQueries := [1; 0]%nat in
  let oldFromNewRefs := [1; 0]%nat in
  (oldFromNewQueries ≡ₚ seq 0 (n_cols distances)
   ∧ (n_cols neighbors = n_cols distances
      ∧ n_rows neighbors = n_rows distances ∧ well_shaped neighbors)
   ∧ Forall (Forall (λ x, x < length oldFromNewRefs)%nat) (columns neighbors))
  ∧ ∃ distancesOut neighborsOut,
      remap oldFromNewQueries oldFromNewRefs distances neighbors
        = Done (distancesOut, neighborsOut)
      ∧ (∀ i q c cn,
           oldFromNewQueries !! i = Some q →
           columns distances !! i = Some c →
           columns neighbors !! i = Some cn →
           columns distancesOut !! q = Some (Some <$> c)
           ∧ columns neighborsOut !! q
             = Some ((λ x : nat, oldFromNewRefs !! x) <$> cn))
      ∧ Forall (Forall is_Some) (columns distancesOut)
      ∧ Forall (Forall is_Some) (columns neighborsOut).
Proof.
  intros distances neighbors oldFromNewQueries oldFromNewRefs.
  assert (oldFromNewQueries ≡ₚ seq 0 (n_cols distances)) as Hperm
    by apply perm_swap.
  assert (n_cols neighbors = n_cols distances
          ∧ n_rows neighbors = n_rows distances ∧ well_shaped neighbors)
    as Hshape by (do 2 (split; [reflexivity |]); by repeat constructor).
  assert (Forall (Forall (λ x, x < length oldFromNewRefs)%nat)
            (columns neighbors)) as Hrange
    by (repeat constructor).
  split; [done |].
  exact (remap_inverts_query_permutation oldFromNewQueries oldFromNewRefs
           distances neighbors Hperm Hshape Hrange).
Defined.

Lemma remap_keeps_dimensions_witness :
  let distances := mkMat 1 [[5]; [7]] in
  let neighbors := mkMat 1 [[0]; [1]]%nat in
  let distancesOut := mkMat 1 [[Some 7]; [Some 5]] in
  let neighborsOut := mkMat 1 [[Some 0]; [Some 1]]%nat in
  remap [1; 0]%nat [1; 0]%nat distances neighbors
    = Done (distancesOut, neighborsOut)
  ∧ (n_rows distancesOut = n_rows distances
     ∧ n_cols distancesOut = n_cols distances)
  ∧ (n_rows neighborsOut = n_rows neighbors
     ∧ n_cols neighborsOut = n_cols neighbors)
  ∧ well_shaped neighborsOut
  ∧ (well_shaped distances → well_shaped distancesOut).
Proof.
  intros distances neighbors distancesOut neighborsOut.
  assert (remap [1; 0]%nat [1; 0]%nat distances neighbors
          = Done (distancesOut, neighborsOut)) as Hdone by reflexivity.
  split; [exact Hdone |].
  exact (remap_keeps_dimensions _ _ _ _ _ _ Hdone).
Defined.

Lemma self_search_ends_in_one_of_three_ways_witness :
  let p := line_self_search in
  query_file p = ""
  ∧ (run_Z line_Load p).1 = Faulted (VectorIndex "oldFromNewQueries" 0 0)
  ∧ ∃ a, Searched a 2 ∈ (run_Z line_Load p).2
      ∧ n_cols (AllkNN_Search a 2).2 ≠ 0%nat.
Proof.
  intros p.
  assert (query_file p = "") as Hself by reflexivity.
  assert ((run Z (Node HRectBound) line_Load BinarySpaceTree_Z AllkNN_Search
             p).1 = Faulted (VectorIndex "oldFromNewQueries" 0 0)) as Hstop
    by (vm_compute; reflexivity).
  pose proof (self_search_ends_in_one_of_three_ways line_Load
                BinarySpaceTree_Z AllkNN_Search p Hself) as Hends.
  cbv zeta in Hends. revert Hends. rewrite Hstop. intros [_ Hsearch].
  split; [exact Hself |]. split; [exact Hstop | exact Hsearch].
Defined.

Lemma naive_overrides_single_mode_witness :
  let both := mkParams "reference.csv" "" "distances.csv" "neighbors.csv"
                2 true true 2 in
  ((∃ m, line_Load "reference.csv" = Some m
      ∧ 0 < size_t_of_int 2 < Z.of_nat (n_cols m))
   ∧ 0 <= 2 ∧ ("" ≠ "" → is_Some (line_Load "")))
  ∧ single_mode_warning ∈ (run_Z line_Load both).2
  ∧ ∃ a, Searched a (size_t_of_int 2) ∈ (run_Z line_Load both).2.
Proof.
  intros both.
  assert ((∃ m, line_Load "reference.csv" = Some m
             ∧ 0 < size_t_of_int 2 < Z.of_nat (n_cols m))
          ∧ 0 <= 2 ∧ ("" ≠ "" → is_Some (line_Load ""))) as Hpass.
  { split; [exists line_reference; split; [reflexivity | by vm_compute] |].
    split; [by vm_compute | done]. }
  split; [exact Hpass |].
  pose proof (naive_overrides_single_mode line_Load BinarySpaceTree_Z
                "reference.csv" "" "distances.csv" "neighbors.csv" 2 2)
    as Hnaive.
  cbv zeta in Hnaive. destruct Hnaive as [Hsearch _].
  exact (Hsearch Hpass).
Defined.
